(** * qanoonSpider: corpus cleaning and chunk assembly, embedded in Rocq

    Shallow embedding of the text helpers of [prepare_axolotl_cpt.py] and
    [clean_qnoon_collection.py], followed by the properties proved about
    them.

    Python strings are sequences of Unicode code points, and [len] counts
    code points; a string is therefore modelled as a list of code points
    ([N]), not as a list of bytes.  Python integers are unbounded: [Z]. *)

From Stdlib Require Import ZArith NArith Lia Bool.
From Stdlib Require Import SpecFloat.
From Stdlib Require DecimalString DecimalZ.
From stdpp Require Import base numbers option strings list sorting gmap.

Set Default Proof Using "Type".

(* ================================================================== *)
(** * Part I: the embedding                                             *)
(* ================================================================== *)

(** ** Python strings and the builtins the code uses *)

Module Py.

Abbreviation char := N (only parsing).
Abbreviation str := (list N) (only parsing).

Definition LF : char := 10%N.
Definition CR : char := 13%N.
Definition TAB : char := 9%N.
Definition SPACE : char := 32%N.
Definition BOM : char := 65279%N.   (* U+FEFF *)
Definition LRM : char := 8206%N.    (* U+200E *)
Definition RLM : char := 8207%N.    (* U+200F *)

(** [str.isspace] on one code point, which is also what [str.strip()]
    trims and what the regular expression class [\s] matches on [str]
    patterns: U+0009..U+000D, U+001C..U+0020, U+0085, U+00A0, U+1680,
    U+2000..U+200A, U+2028, U+2029, U+202F, U+205F, U+3000. *)
Definition isspace (c : char) : bool :=
  ((9 <=? c) && (c <=? 13) || (28 <=? c) && (c <=? 32)
   || (c =? 133) || (c =? 160) || (c =? 5760)
   || (8192 <=? c) && (c <=? 8202)
   || (c =? 8232) || (c =? 8233) || (c =? 8239) || (c =? 8287)
   || (c =? 12288))%N.

(** [len(s)], for strings and lists alike *)
Definition len {A} (s : list A) : Z := Z.of_nat (length s).

(** [s.lstrip()] *)
Fixpoint lstrip (s : str) : str :=
  match s with
  | c :: r => if isspace c then lstrip r else s
  | [] => []
  end.

(** [s.rstrip()]: the shortest prefix of [s] followed by whitespace only *)
Fixpoint rstrip (s : str) : str :=
  match s with
  | c :: r =>
      match rstrip r with
      | [] => if isspace c then [] else [c]
      | r' => c :: r'
      end
  | [] => []
  end.

(** [s.strip()] *)
Definition strip (s : str) : str := rstrip (lstrip s).

(** [s[i:j]] with Python's treatment of negative and out-of-range bounds *)
Definition clamp_index (n i : Z) : Z :=
  if (i <? 0)%Z then Z.max 0 (i + n) else Z.min i n.

Definition slice {A} (s : list A) (i j : Z) : list A :=
  let i' := clamp_index (len s) i in
  let j' := clamp_index (len s) j in
  if (i' <? j')%Z then take (Z.to_nat (j' - i')) (drop (Z.to_nat i') s) else [].

(** [s[i:]] *)
Definition slice_from {A} (s : list A) (i : Z) : list A :=
  drop (Z.to_nat (clamp_index (len s) i)) s.

(** [s[:j]] *)
Definition slice_to {A} (s : list A) (j : Z) : list A :=
  take (Z.to_nat (clamp_index (len s) j)) s.

(** put [c] in front of the first piece of a split *)
Definition cons_head (c : char) (ls : list str) : list str :=
  match ls with
  | l :: ls' => (c :: l) :: ls'
  | [] => [[c]]
  end.

(** [s.split(sep)] for a one-character separator: never the empty list *)
Fixpoint split_on (sep : char) (s : str) : list str :=
  match s with
  | [] => [[]]
  | c :: r => if (c =? sep)%N then [] :: split_on sep r
              else cons_head c (split_on sep r)
  end.

(** [sep.join(ls)] for a one-character separator *)
Fixpoint join (sep : char) (ls : list str) : str :=
  match ls with
  | [] => []
  | [l] => l
  | l :: ls' => l ++ sep :: join sep ls'
  end.

(** [s.replace(c, "")] and [s.replace(c, d)] for single characters *)
Definition remove_char (c : char) (s : str) : str :=
  List.filter (fun x => negb (x =? c)%N) s.

Definition replace_char (c d : char) (s : str) : str :=
  map (fun x => if (x =? c)%N then d else x) s.

(** [s.replace("\r\n", "\n")]: non-overlapping, left to right *)
Fixpoint replace_crlf (s : str) : str :=
  match s with
  | c :: r =>
      match r with
      | d :: r' =>
          if (c =? CR)%N && (d =? LF)%N then LF :: replace_crlf r'
          else c :: replace_crlf r
      | [] => [c]
      end
  | [] => []
  end.

(** [c in s] *)
Definition contains (c : char) (s : str) : bool :=
  existsb (fun x => (x =? c)%N) s.

(** [s == t] *)
Fixpoint str_eqb (s t : str) : bool :=
  match s, t with
  | [], [] => true
  | c :: s', d :: t' => (c =? d)%N && str_eqb s' t'
  | _, _ => false
  end.

(** truth value of a string: non-empty *)
Definition truthy (s : str) : bool :=
  match s with [] => false | _ => true end.

(** [s.lower()] on strings whose cased characters are ASCII letters: a
    stand-in for the Unicode case tables when the definitions are run on
    concrete inputs *)
Definition ascii_lower (s : str) : str :=
  map (fun c => if (65 <=? c)%N && (c <=? 90)%N then (c + 32)%N else c) s.

(** [\d] and [int()] rest on the Unicode decimal-digit table; these are
    their restrictions to ASCII, for running the definitions on concrete
    inputs. *)
Definition ascii_digit (c : char) : bool := (48 <=? c)%N && (c <=? 57)%N.

Fixpoint ascii_digits (acc : Z) (s : str) : option Z :=
  match s with
  | [] => Some acc
  | c :: r => if ascii_digit c
              then ascii_digits (10 * acc + Z.of_N (c - 48)) r
              else None
  end.

Definition ascii_int (s : str) : option Z :=
  match strip s with
  | [] => None
  | c :: r =>
      if (c =? 45)%N then
        match r with [] => None | _ => Z.opp <$> ascii_digits 0 r end
      else if (c =? 43)%N then
        match r with [] => None | _ => ascii_digits 0 r end
      else ascii_digits 0 (c :: r)
  end.

(** ASCII literals for the examples *)
Fixpoint of_string (s : string) : str :=
  match s with
  | EmptyString => []
  | String a s' => Ascii.N_of_ascii a :: of_string s'
  end.

End Py.
Import Py.

(** ** Normalizer ([prepare_axolotl_cpt.py], lines 27-34) *)

Module Normalizer.

(** the class [[ \t]] *)
Definition is_hspace (c : char) : bool := (c =? SPACE)%N || (c =? TAB)%N.

Definition is_lf (c : char) : bool := (c =? LF)%N.

(** [re.sub(r"[ \t]+", " ", text)]: [in_run] says that the characters
    just read belong to a run already replaced. *)
Fixpoint collapse_hspace (in_run : bool) (s : str) : str :=
  match s with
  | [] => []
  | c :: r =>
      if is_hspace c
      then if in_run then collapse_hspace true r
           else SPACE :: collapse_hspace true r
      else c :: collapse_hspace false r
  end.

(** what a run of [n] line feeds becomes under [\n{3,}] -> [\n\n] *)
Definition flush_lf (n : nat) : str :=
  if 3 <=? n then [LF; LF] else replicate n LF.

(** [re.sub(r"\n{3,}", "\n\n", text)]: [n] counts the line feeds of the
    run being read. *)
Fixpoint collapse_lf (n : nat) (s : str) : str :=
  match s with
  | [] => flush_lf n
  | c :: r =>
      if is_lf c then collapse_lf (S n) r
      else flush_lf n ++ c :: collapse_lf 0 r
  end.

Definition normalize_newlines (text : str) : str :=
  let text := remove_char BOM text in
  let text := replace_char CR LF (replace_crlf text) in
  let text := remove_char LRM (remove_char RLM text) in
  let text := collapse_hspace false text in
  let text := collapse_lf 0 text in
  strip text.

End Normalizer.

(** ** Paragraph chunker ([prepare_axolotl_cpt.py], lines 52-90) *)

Module Chunker.

(** The regular expression [\n\s*\n] of [re.split].  After a line feed,
    [sep_tail rest] is the length of the longest prefix of [rest] made
    of whitespace and ending in a line feed: the greedy [\s*] takes the
    whole whitespace run and backs off to its last line feed. *)
Fixpoint sep_tail (rest : str) : option nat :=
  match rest with
  | [] => None
  | c :: r =>
      if isspace c then
        match sep_tail r with
        | Some k => Some (S k)
        | None => if (c =? LF)%N then Some 1%nat else None
        end
      else None
  end.

(** [re.split(r"\n\s*\n", text)]: [skip] counts the characters of the
    current match still to be consumed. *)
Fixpoint re_split_blank (skip : nat) (s : str) : list str :=
  match s with
  | [] => [[]]
  | c :: r =>
      match skip with
      | S k => re_split_blank k r
      | O =>
          if (c =? LF)%N then
            match sep_tail r with
            | Some k => [] :: re_split_blank k r
            | None => cons_head c (re_split_blank 0 r)
            end
          else cons_head c (re_split_blank 0 r)
      end
  end.

(** line 56 *)
Definition paragraphs (text : str) : list str :=
  map strip (List.filter (fun p => truthy (strip p)) (re_split_blank 0 text)).

(** lines 60-70: one iteration of [for p in paras], on [(chunks, buf)] *)
Definition para_step (max_chars overlap_chars : Z)
    (st : list str * str) (p : str) : list str * str :=
  let '(chunks, buf) := st in
  if negb (truthy buf) then (chunks, p)
  else if (len buf + len p + 2 <=? max_chars)%Z
       then (chunks, buf ++ [LF; LF] ++ p)
       else
         let tail := if (overlap_chars >? 0)%Z
                     then slice_from buf (- overlap_chars) else [] in
         (chunks ++ [strip buf], strip (tail ++ [LF; LF] ++ p)).

(** lines 57-73 *)
Definition accumulate (paras : list str) (max_chars overlap_chars : Z)
    : list str :=
  let '(chunks, buf) := foldl (para_step max_chars overlap_chars) ([], []) paras in
  if truthy buf then chunks ++ [strip buf] else chunks.

(** lines 82-88: the [while start < len(c)] loop; [None] is the loop
    still running when the fuel is spent. *)
Fixpoint hard_split (fuel : nat) (c : str) (max_chars overlap_chars : Z)
    (start : Z) (hardened : list str) : option (list str) :=
  match fuel with
  | O => None
  | S fuel' =>
      if (start <? len c)%Z then
        let end_ := Z.min (start + max_chars) (len c) in
        let hardened' := hardened ++ [strip (slice c start end_)] in
        if (end_ >=? len c)%Z then Some hardened'
        else hard_split fuel' c max_chars overlap_chars
               (Z.max 0 (end_ - overlap_chars)) hardened'
      else Some hardened
  end.

(** lines 77-88: [for c in chunks] *)
Fixpoint harden (fuel : nat) (chunks : list str) (max_chars overlap_chars : Z)
    (hardened : list str) : option (list str) :=
  match chunks with
  | [] => Some hardened
  | c :: cs =>
      if (len c <=? max_chars)%Z
      then harden fuel cs max_chars overlap_chars (hardened ++ [c])
      else match hard_split fuel c max_chars overlap_chars 0 hardened with
           | Some h => harden fuel cs max_chars overlap_chars h
           | None => None
           end
  end.

(** [chunk_text_paragraphwise]; every [while] loop may run [fuel] times *)
Definition chunk_text_paragraphwise (fuel : nat) (text : str)
    (max_chars overlap_chars : Z) : option (list str) :=
  match harden fuel (accumulate (paragraphs text) max_chars overlap_chars)
          max_chars overlap_chars [] with
  | Some hardened => Some (List.filter truthy hardened)
  | None => None
  end.

End Chunker.

(** ** Article segmenter ([prepare_axolotl_cpt.py], lines 40-50) and
       [chunk_document] (lines 92-111) *)

Module Segmenter.

(** ["المادة"] and ["مادة"] *)
Definition AL_MADDA : str := [1575; 1604; 1605; 1575; 1583; 1577]%N.
Definition MADDA : str := [1605; 1575; 1583; 1577]%N.

Definition LPAREN : char := 40%N.

(** what is left of [s] after the literal [w], if [s] starts with it *)
Fixpoint after_literal (w s : str) : option str :=
  match w, s with
  | [], _ => Some s
  | c :: w', d :: s' => if (c =? d)%N then after_literal w' s' else None
  | _ :: _, [] => None
  end.

Section WithDigit.
(** the class [\d]: the Unicode decimal digits *)
Variable is_digit : char -> bool.

(** [\(?\d+\)?] matches at the head of [s]: a digit, or a parenthesis and
    a digit; what follows the first digit always matches. *)
Definition number_ahead (s : str) : bool :=
  match s with
  | c :: r =>
      is_digit c
      || ((c =? LPAREN)%N && match r with d :: _ => is_digit d | [] => false end)
  | [] => false
  end.

(** [\s+\(?\d+\)?] *)
Fixpoint spaces_number_ahead (s : str) : bool :=
  match s with
  | c :: r => isspace c && (number_ahead r || spaces_number_ahead r)
  | [] => false
  end.

(** [(?:المادة|مادة)\s+\(?\d+\)?] *)
Definition heading_ahead (s : str) : bool :=
  match after_literal AL_MADDA s with
  | Some r => spaces_number_ahead r
  | None => false
  end
  || match after_literal MADDA s with
     | Some r => spaces_number_ahead r
     | None => false
     end.

(** the lookahead [(?=\s*(?:المادة|مادة)\s+\(?\d+\)?)] *)
Fixpoint lookahead (s : str) : bool :=
  match s with
  | c :: r => heading_ahead s || (isspace c && lookahead r)
  | [] => heading_ahead []
  end.

(** [re.split(pattern, text)] (Python 3.7 and later, where an empty match
    splits): the pattern matches the empty string at a line start, i.e.
    at position 0 or after a line feed, where the lookahead holds.
    [bol] says that the position before [s] is a line start. *)
Fixpoint re_split_articles (bol : bool) (s : str) : list str :=
  match s with
  | [] => [[]]
  | c :: r =>
      let rest := cons_head c (re_split_articles (c =? LF)%N r) in
      if bol && lookahead s then [] :: rest else rest
  end.

(** line 49 *)
Definition article_spans (text : str) : list str :=
  map strip
    (List.filter (fun p => truthy p && truthy (strip p))
       (re_split_articles true text)).

(** [split_by_articles] *)
Definition split_by_articles (text : str) : option (list str) :=
  let parts := article_spans text in
  if 1 <? length parts then Some parts else None.

(** lines 103-109: [for part in parts] on the accumulator [out] *)
Fixpoint chunk_parts (fuel : nat) (parts : list str) (max_chars overlap_chars : Z)
    (out : list str) : option (list str) :=
  match parts with
  | [] => Some out
  | part :: parts' =>
      if (len part <=? max_chars)%Z
      then chunk_parts fuel parts' max_chars overlap_chars (out ++ [part])
      else
        match Chunker.chunk_text_paragraphwise fuel part max_chars overlap_chars with
        | Some cs => chunk_parts fuel parts' max_chars overlap_chars (out ++ cs)
        | None => None
        end
  end.

(** [chunk_document] *)
Definition chunk_document (fuel : nat) (text : str) (max_chars overlap_chars : Z)
    (use_article_split : bool) : option (list str) :=
  let fallback :=
    Chunker.chunk_text_paragraphwise fuel text max_chars overlap_chars in
  if use_article_split then
    match split_by_articles text with
    | Some ((_ :: _) as parts) => chunk_parts fuel parts max_chars overlap_chars []
    | _ => fallback
    end
  else fallback.

End WithDigit.
End Segmenter.

(** ** Override parsing ([prepare_axolotl_cpt.py], lines 159-174) *)

Module Overrides.

Definition COMMA : char := 44%N.
Definition EQUALS : char := 61%N.

(** the two [ValueError]s the function can end in *)
Inductive error :=
| BadOverride (part : str)      (* "Bad override '{part}'. Use CAT=NUM, e.g., AD=300" *)
| InvalidLiteral (v : str).     (* raised by [int(v.strip())] *)

(** [part.split("=", 1)] on a [part] that holds ["="] *)
Fixpoint split_once (sep : char) (s : str) : str * str :=
  match s with
  | [] => ([], [])
  | c :: r => if (c =? sep)%N then ([], r)
              else let '(k, v) := split_once sep r in (c :: k, v)
  end.

Section WithInt.
(** the builtin [int] on a string; [None] is its [ValueError] *)
Variable int : str -> option Z.

(** lines 167-173: the body of the loop on one [part] *)
Definition parse_part (part : str) (out : gmap (list N) Z)
    : error + gmap (list N) Z :=
  if negb (contains EQUALS part) then inl (BadOverride part)
  else
    let '(k, v) := split_once EQUALS part in
    match int (strip v) with
    | Some n => inr (<[strip k := n]> out)
    | None => inl (InvalidLiteral (strip v))
    end.

(** lines 166-173: [for part in s.split(",")] *)
Fixpoint parse_parts (parts : list str) (out : gmap (list N) Z)
    : error + gmap (list N) Z :=
  match parts with
  | [] => inr out
  | part :: parts' =>
      let part := strip part in
      if negb (truthy part) then parse_parts parts' out
      else match parse_part part out with
           | inr out' => parse_parts parts' out'
           | inl e => inl e
           end
  end.

(** [parse_overrides] *)
Definition parse_overrides (s : str) : error + gmap (list N) Z :=
  if negb (truthy (strip s)) then inr ∅
  else parse_parts (split_on COMMA s) ∅.

End WithInt.
End Overrides.

(** ** The seeded random source

    [random.Random] is a library object: its state is threaded explicitly
    and its two methods used by the code are taken as they are, whatever
    generator is behind them. *)

Module Random.

(** The methods of one [random.Random] instance. *)
Record methods (rng : Type) := Methods {
  (** [rng.sample(range(n), k)] *)
  sample_range : nat -> nat -> rng -> list nat * rng;
  (** [rng.shuffle(x)]: the rearranged list in place of the mutated one *)
  shuffle : forall A : Type, list A -> rng -> list A * rng
}.
Arguments Methods {rng}.
Arguments sample_range {rng}.
Arguments shuffle {rng} _ {A}.

(** A small linear congruential generator with the same interface, for
    running the definitions on concrete inputs. *)
Module Lcg.
Definition next (st : N) : N := ((st * 1103515245 + 12345) mod 2147483648)%N.

(** draw [k] positions from [pool] without replacement *)
Fixpoint draw (k : nat) (pool : list nat) (st : N) : list nat * N :=
  match k with
  | O => ([], st)
  | S k' =>
      let st1 := next st in
      let j := N.to_nat (st1 mod N.of_nat (length pool))%N in
      match pool !! j with
      | Some x =>
          let '(xs, st2) := draw k' (delete j pool) st1 in (x :: xs, st2)
      | None => ([], st1)
      end
  end.

Definition lcg : methods N :=
  Methods (fun n k st => draw k (seq 0 n) st)
          (fun A l st =>
             let '(order, st') := draw (length l) (seq 0 (length l)) st in
             (omap (fun i => l !! i) order, st')).
End Lcg.

End Random.

(** ** Chunk capper ([prepare_axolotl_cpt.py], lines 146-151 and 280-285) *)

Module Capper.
Section WithRandom.
Context {rng : Type} (R : Random.methods rng).

(** [maybe_cap_chunks]; [None] is the [IndexError] of [chunks[i]] *)
Definition maybe_cap_chunks (chunks : list str) (cap : Z) (st : rng)
    : option (list str * rng) :=
  if (cap <=? 0)%Z || (len chunks <=? cap)%Z then Some (chunks, st)
  else
    let '(drawn, st') := Random.sample_range R (length chunks) (Z.to_nat cap) st in
    let idxs := merge_sort Nat.le drawn in
    match mapM (fun i => chunks !! i) idxs with
    | Some out => Some (out, st')
    | None => None
    end.

(** lines 281-285 of [main]: the capped list and the number added to
    [chunks_capped_away] *)
Definition cap_document (chunks : list str) (cap : Z) (st : rng)
    : option (list str * nat * rng) :=
  let before := length chunks in
  match maybe_cap_chunks chunks cap st with
  | Some (chunks', st') =>
      let after := length chunks' in
      Some (chunks', (if after <? before then before - after else 0), st')
  | None => None
  end.

(** the capping of the documents of a run, in traversal order, on the
    one generator *)
Fixpoint cap_documents (docs : list (list str)) (cap : Z) (st : rng)
    : option (list (list str) * rng) :=
  match docs with
  | [] => Some ([], st)
  | d :: ds =>
      match maybe_cap_chunks d cap st with
      | Some (c, st1) =>
          match cap_documents ds cap st1 with
          | Some (cs, st2) => Some (c :: cs, st2)
          | None => None
          end
      | None => None
      end
  end.

End WithRandom.
End Capper.

(** ** Python floats: IEEE 754 binary64, round to nearest even *)

Module PyFloat.

Abbreviation float := spec_float (only parsing).

(** [float(n)] for an integer [n], as done by [n * x] *)
Definition of_int (n : Z) : float := binary_normalize 53 1024 n 0 false.

(** [x * y] *)
Definition mul (x y : float) : float := SFmul 53 1024 x y.

(** neither an infinity nor a NaN *)
Definition is_finite (x : float) : bool :=
  match x with
  | S754_zero _ | S754_finite _ _ _ => true
  | S754_infinity _ | S754_nan => false
  end.

(** [int(x)]: truncation toward zero; [None] is the [ValueError] on a NaN
    and the [OverflowError] on an infinity *)
Definition to_int (x : float) : option Z :=
  match x with
  | S754_zero _ => Some 0%Z
  | S754_finite s m e =>
      Some (match e with
            | Zneg p => Z.quot (cond_Zopp s (Zpos m)) (2 ^ Zpos p)
            | _ => cond_Zopp s (Zpos m) * 2 ^ e
            end)%Z
  | S754_infinity _ | S754_nan => None
  end.

(** [math.floor(x)]: the greatest integer not above [x] *)
Definition floor (x : float) : option Z :=
  match x with
  | S754_zero _ => Some 0%Z
  | S754_finite s m e =>
      Some (match e with
            | Zneg p => Z.div (cond_Zopp s (Zpos m)) (2 ^ Zpos p)
            | _ => cond_Zopp s (Zpos m) * 2 ^ e
            end)%Z
  | S754_infinity _ | S754_nan => None
  end.

End PyFloat.

(** ** Dataset assembler ([prepare_axolotl_cpt.py], lines 294-300) *)

Module Assembler.

(** A record is the dict [{"text": header + ch}]; [rec_id] stands for the
    identity of the dict object, [rec_text] for its content. *)
Record record := Record_ { rec_id : nat; rec_text : str }.

Section WithRandom.
Context {rng : Type} (R : Random.methods rng).

(** line 298 *)
Definition val_size (all_records : list record) (val_ratio : PyFloat.float)
    : option Z :=
  match all_records with
  | [] => Some 0%Z
  | _ =>
      match PyFloat.to_int (PyFloat.mul (PyFloat.of_int (len all_records)) val_ratio) with
      | Some n => Some (Z.max 1 n)
      | None => None
      end
  end.

(** lines 295-300: [(val_records, train_records)] and the generator after
    the shuffle *)
Definition assemble (all_records : list record) (val_ratio : PyFloat.float)
    (st : rng) : option (list record * list record * rng) :=
  let '(all_records, st') := Random.shuffle R all_records st in
  match val_size all_records val_ratio with
  | Some val_size =>
      Some (slice_to all_records val_size, slice_from all_records val_size, st')
  | None => None
  end.

End WithRandom.
End Assembler.

(** ** Noise-line stripper ([clean_qnoon_collection.py], lines 39-112) *)

Module Stripper.

(** ["تحميل"] *)
Definition DOWNLOAD_AR : str := [1578; 1581; 1605; 1610; 1604]%N.

(** ["english"] *)
Definition ENGLISH : str := [101; 110; 103; 108; 105; 115; 104]%N.

(** [lines[0].strip() == ""] *)
Definition is_blank_line (s : str) : bool := str_eqb (strip s) [].

(** [is_download_line], lines 71-72 *)
Definition is_download_line (s : str) : bool := str_eqb (strip s) DOWNLOAD_AR.

(** [while lines and lines[0].strip() == "": lines.pop(0); removed += 1]
    (lines 63-65, 79-82 and 94-96); the flag tells whether the body ran,
    which is what lines 79-82 record in [changed]. *)
Fixpoint pop_blank (lines : list str) (removed : nat) : list str * nat * bool :=
  match lines with
  | l :: rest =>
      if is_blank_line l
      then let '(lines', removed', _) := pop_blank rest (S removed) in
           (lines', removed', true)
      else (lines, removed, false)
  | [] => ([], removed, false)
  end.

Section WithLower.
(** [str.lower], which rests on the Unicode case tables *)
Variable lower : str -> str.

(** [is_english_line], lines 68-69 *)
Definition is_english_line (s : str) : bool := str_eqb (lower (strip s)) ENGLISH.

(** lines 74-109: [while changed]; one unit of fuel per iteration, and a
    recursive call is the next iteration entered with [changed] true. *)
Fixpoint strip_loop (fuel : nat) (lines : list str) (removed : nat)
    : option (list str * nat) :=
  match fuel with
  | O => None
  | S fuel' =>
      let '(lines, removed, changed) := pop_blank lines removed in
      match lines with
      | [] => Some (lines, removed)
      | l0 :: rest =>
          if is_download_line l0 then
            let '(lines, removed, _) := pop_blank rest (S removed) in
            match lines with
            | l1 :: rest1 =>
                if is_english_line l1 || is_download_line l1
                then strip_loop fuel' rest1 (S removed)
                else strip_loop fuel' lines removed
            | [] => strip_loop fuel' lines removed
            end
          else if is_english_line l0 then strip_loop fuel' rest (S removed)
          else if changed then strip_loop fuel' lines removed
          else Some (lines, removed)
      end
  end.

(** [strip_leading_download_lines]: [(cleaned, removed)].  Every iteration
    that asks for another one has popped a line, so one more iteration
    than there are lines is all the loop can use. *)
Definition strip_leading_download_lines (text : str) : option (str * nat) :=
  let lines := split_on LF text in
  let '(lines, removed, _) := pop_blank lines 0 in
  match strip_loop (S (length lines)) lines removed with
  | Some (lines, removed) => Some (strip (join LF lines), removed)
  | None => None
  end.

End WithLower.
End Stripper.

(** ** Content sufficiency filter ([has_useful_content], in both files) *)

Module Filter.

(** [re.sub(r"\s+", "", text)]: every run of whitespace is replaced by
    nothing *)
Fixpoint sub_whitespace (s : str) : str :=
  match s with
  | [] => []
  | c :: r => if isspace c then sub_whitespace r else c :: sub_whitespace r
  end.

(** [has_useful_content] *)
Definition has_useful_content (text : str) (min_chars : Z) : bool :=
  (len (sub_whitespace text) >=? min_chars)%Z.

End Filter.

(** ** The cleaning pass ([clean_qnoon_collection.py]) *)

Module Cleaner.

(** [normalize_newlines] of the cleaner, lines 41-46 *)
Definition normalize_newlines (text : str) : str :=
  let text := remove_char BOM text in
  let text := replace_char CR LF (replace_crlf text) in
  remove_char LRM (remove_char RLM text).

(** what [main] writes for one file, lines 185-195: the cleaned text under
    [cleaned/], or the raw text under [discarded/] *)
Inductive written :=
| Cleaned (content : str)
| Discarded (content : str).

Section WithLower.
Variable lower : str -> str.

(** lines 178-195 of [main], on the text read from one file: what is
    written, and the number added to [removed_lines_total] *)
Definition clean_file (raw : str) (min_chars : Z) : option (written * nat) :=
  let raw := normalize_newlines raw in
  match Stripper.strip_leading_download_lines lower raw with
  | Some (cleaned_text, removed_lines) =>
      if Filter.has_useful_content cleaned_text min_chars
      then Some (Cleaned (cleaned_text ++ [LF]), removed_lines)
      else Some (Discarded (strip raw ++ [LF]), removed_lines)
  | None => None
  end.

(** [CATEGORY_FOLDERS] *)
Definition CATEGORY_FOLDERS : gmap (list N) (list N) :=
  <[of_string "TA" := of_string "International Agreements"]>
  (<[of_string "RO" := of_string "Royal Orders"]>
  (<[of_string "AD" := of_string "Administrative Decisions"]>
  (<[of_string "FATWA" := of_string "Fatwas"]>
  (<[of_string "RD" := of_string "Royal Decrees"]> ∅)))).

(** [within_configured_categories] *)
Definition within_configured_categories (category : str) : bool :=
  bool_decide (is_Some (CATEGORY_FOLDERS !! category)).

(** the counters of one category, line 159 *)
Record counters := Counters {
  processed : nat;
  cleaned : nat;
  discarded : nat;
  removed_lines_total : nat
}.

Definition add_processed (n : nat) (c : counters) : counters :=
  Counters (processed c + n) (cleaned c) (discarded c) (removed_lines_total c).
Definition add_cleaned (n : nat) (c : counters) : counters :=
  Counters (processed c) (cleaned c + n) (discarded c) (removed_lines_total c).
Definition add_discarded (n : nat) (c : counters) : counters :=
  Counters (processed c) (cleaned c) (discarded c + n) (removed_lines_total c).
Definition add_removed_lines_total (n : nat) (c : counters) : counters :=
  Counters (processed c) (cleaned c) (discarded c) (removed_lines_total c + n).

(** [bump], lines 158-160: [stats.setdefault(cat, {...})] and then
    [stats[cat][key] += n] *)
Definition bump (stats : gmap (list N) counters) (cat : str)
    (add : counters -> counters) : gmap (list N) counters :=
  <[cat := add (default (Counters 0 0 0 0) (stats !! cat))]> stats.

(** a file of the traversal with one of the extensions [EXTS]: its
    category ([infer_category_folder]), its path under the input root and
    its content *)
Record file := File { file_cat : str; file_rel_path : str; file_raw : str }.

(** lines 164-195: [for fp in input_root.rglob("*")], on the state
    [(stats, processed_files)] and the files written so far, each with
    its path under [cleaned/] or [discarded/] *)
Fixpoint run (include_uncategorized : bool) (min_chars : Z) (files : list file)
    (stats : gmap (list N) counters) (processed_files : nat)
    (out : list (str * written))
    : option (gmap (list N) counters * nat * list (str * written)) :=
  match files with
  | [] => Some (stats, processed_files, out)
  | fp :: files' =>
      let cat := file_cat fp in
      if negb include_uncategorized && negb (within_configured_categories cat)
      then run include_uncategorized min_chars files' stats processed_files out
      else
        let stats := bump stats cat (add_processed 1) in
        match clean_file (file_raw fp) min_chars with
        | None => None
        | Some (w, removed_lines) =>
            let stats := bump stats cat (add_removed_lines_total removed_lines) in
            let stats :=
              match w with
              | Cleaned _ => bump stats cat (add_cleaned 1)
              | Discarded _ => bump stats cat (add_discarded 1)
              end in
            run include_uncategorized min_chars files' stats
              (processed_files + 1) (out ++ [(file_rel_path fp, w)])
        end
  end.

End WithLower.
End Cleaner.

(** ** The dataset preparation run ([prepare_axolotl_cpt.py], [main] and
       its helpers) *)

Module Prepare.

(** [str(n)] for an integer, as an f-string prints it *)
Definition str_of_int (n : Z) : str :=
  of_string (DecimalString.NilZero.string_of_int (Z.to_int n)).

(** [DEFAULT_EXTS] *)
Definition DEFAULT_EXTS : list str := [of_string ".txt"; of_string ".text"].

(** [[c.strip() for c in s.split(",") if c.strip()]], lines 228 and 230 *)
Definition parse_list (s : str) : list str :=
  map strip (List.filter (fun c => truthy (strip c)) (split_on Overrides.COMMA s)).

(** [choose_min_chars] *)
Definition choose_min_chars (category : str) (default_min : Z)
    (overrides : gmap (list N) Z) : Z :=
  default default_min (overrides !! category).

(** [DEFAULT_CATEGORY_LABELS] *)
Definition DEFAULT_CATEGORY_LABELS : gmap (list N) (list N) :=
  <[of_string "TA" := [1575; 1578; 1601; 1575; 1602; 1610; 1577; 32;
                       1583; 1608; 1604; 1610; 1577]%N]>
  (<[of_string "RO" := [1571; 1605; 1585; 32; 1587; 1575; 1605; 1613]%N]>
  (<[of_string "FATWA" := [1601; 1578; 1608; 1609]%N]>
  (<[of_string "RD" := [1605; 1585; 1587; 1608; 1605; 32;
                        1587; 1604; 1591; 1575; 1606; 1610]%N]>
  (<[of_string "AD" := [1602; 1585; 1575; 1585; 32;
                        1573; 1583; 1575; 1585; 1610]%N]> ∅)))).

(** lines 237-239: [for part in args.category_labels.split(",")]; [None]
    is the [ValueError] of unpacking [k, v] from a part without ["="] *)
Fixpoint parse_label_parts (parts : list str) (labels : gmap (list N) (list N))
    : option (gmap (list N) (list N)) :=
  match parts with
  | [] => Some labels
  | part :: parts' =>
      if contains Overrides.EQUALS part then
        let '(k, v) := Overrides.split_once Overrides.EQUALS part in
        parse_label_parts parts' (<[strip k := strip v]> labels)
      else None
  end.

(** lines 234-239 *)
Definition parse_labels (category_labels : str) : option (gmap (list N) (list N)) :=
  let labels := DEFAULT_CATEGORY_LABELS in
  if truthy (strip category_labels)
  then parse_label_parts (split_on Overrides.COMMA category_labels) labels
  else Some labels.

(** the literal pieces of the header, lines 139-143 *)
Definition H_TYPE : str :=
  [91; 1606; 1608; 1593; 95; 1575; 1604; 1605; 1587; 1578; 1606; 1583; 93; 58; 32]%N.
Definition H_SOURCE : str :=
  [91; 1575; 1604; 1605; 1589; 1583; 1585; 93; 58; 32;
   113; 97; 110; 111; 111; 110; 46; 111; 109; 10]%N.
Definition H_PATH : str :=
  [91; 1575; 1604; 1605; 1587; 1575; 1585; 93; 58; 32]%N.
Definition H_PART : str :=
  [91; 1575; 1604; 1580; 1586; 1569; 93; 58; 32]%N.
Definition H_TEXT : str := [1575; 1604; 1606; 1589; 58; 10]%N.
Definition SLASH : char := 47%N.

(** [build_header] *)
Definition build_header (category_code : str) (category_labels : gmap (list N) (list N))
    (rel_path : str) (chunk_index chunk_total : Z) (include_header : bool) : str :=
  if negb include_header then []
  else
    let label := default category_code (category_labels !! category_code) in
    H_TYPE ++ label ++ [LF]
    ++ H_SOURCE
    ++ H_PATH ++ rel_path ++ [LF]
    ++ H_PART ++ str_of_int chunk_index ++ [SLASH] ++ str_of_int chunk_total ++ [LF]
    ++ H_TEXT.

(** lines 288-290: [for i, ch in enumerate(chunks, start=1)], the texts of
    the records appended; [i] is the index of the next chunk *)
Fixpoint record_texts (cat : str) (labels : gmap (list N) (list N)) (rel_path : str)
    (include_header : bool) (total : Z) (i : Z) (chunks : list str) : list str :=
  match chunks with
  | [] => []
  | ch :: chunks' =>
      (build_header cat labels rel_path i total include_header ++ ch)
      :: record_texts cat labels rel_path include_header total (i + 1) chunks'
  end.

(** the options of the run that the per-document work reads *)
Record args := Args {
  max_chars : Z;
  overlap_chars : Z;
  use_article_split : bool;
  min_chars_default : Z;
  max_chunks_per_doc : Z;
  include_header : bool
}.

(** what one file adds: nothing but a discard count, or its chunks after
    capping, the texts of its records and the number of chunks capped
    away *)
Inductive document :=
| NotUseful
| Kept (chunks : list str) (texts : list str) (capped_away : nat).

(** the counters of one category, lines 246-247 *)
Record counters := Counters {
  files_seen : nat;
  files_kept : nat;
  files_discarded : nat;
  chunks_written : nat;
  chunks_capped_away : nat
}.

(** line 246: [{c: {...} for c in keep_set}] *)
Definition init_stats (keep_set : gset (list N)) : gmap (list N) counters :=
  gset_to_gmap (Counters 0 0 0 0 0) keep_set.

(** [stats[cat][key] += n] for each of the five keys *)
Definition add_seen (n : nat) (c : counters) : counters :=
  Counters (files_seen c + n) (files_kept c) (files_discarded c)
    (chunks_written c) (chunks_capped_away c).
Definition add_kept (n : nat) (c : counters) : counters :=
  Counters (files_seen c) (files_kept c + n) (files_discarded c)
    (chunks_written c) (chunks_capped_away c).
Definition add_discarded (n : nat) (c : counters) : counters :=
  Counters (files_seen c) (files_kept c) (files_discarded c + n)
    (chunks_written c) (chunks_capped_away c).
Definition add_written (n : nat) (c : counters) : counters :=
  Counters (files_seen c) (files_kept c) (files_discarded c)
    (chunks_written c + n) (chunks_capped_away c).
Definition add_capped_away (n : nat) (c : counters) : counters :=
  Counters (files_seen c) (files_kept c) (files_discarded c)
    (chunks_written c) (chunks_capped_away c + n).

(** [stats[cat][key] += n]; [None] is the [KeyError] of [stats[cat]] *)
Definition bump (stats : gmap (list N) counters) (cat : str)
    (add : counters -> counters) : option (gmap (list N) counters) :=
  match stats !! cat with
  | Some c => Some (<[cat := add c]> stats)
  | None => None
  end.

(** a file of the traversal: its category ([infer_category]), its path
    under the input root and its content *)
Record file := File { file_cat : str; file_rel_path : str; file_raw : str }.

Section WithLibraries.
Variable is_digit : char -> bool.
Context {rng : Type} (R : Random.methods rng).

(** lines 262-292 of [main] for one file of category [cat]: the
    normalised text is filtered, chunked, capped and turned into records *)
Definition process_document (fuel : nat) (a : args)
    (overrides : gmap (list N) Z) (labels : gmap (list N) (list N))
    (cat rel_path raw : str) (st : rng) : option (document * rng) :=
  let text := Normalizer.normalize_newlines raw in
  let min_chars := choose_min_chars cat (min_chars_default a) overrides in
  if negb (Filter.has_useful_content text min_chars) then Some (NotUseful, st)
  else
    let split :=
      use_article_split a
      && (str_eqb cat (of_string "RD") || str_eqb cat (of_string "FATWA")
          || str_eqb cat (of_string "AD")) in
    match Segmenter.chunk_document is_digit fuel text
            (max_chars a) (overlap_chars a) split with
    | Some chunks =>
        match Capper.cap_document R chunks (max_chunks_per_doc a) st with
        | Some (chunks, capped_away, st') =>
            Some (Kept chunks
                       (record_texts cat labels rel_path (include_header a)
                          (len chunks) 1 chunks)
                       capped_away,
                  st')
        | None => None
        end
    | None => None
    end.

(** lines 268-270 and 274-292: what the outcome of a file does to the
    counters of its category *)
Definition count_document (stats : gmap (list N) counters) (cat : str)
    (d : document) : option (gmap (list N) counters) :=
  match d with
  | NotUseful => bump stats cat (add_discarded 1)
  | Kept chunks _ capped_away =>
      match bump stats cat (add_kept 1) with
      | None => None
      | Some stats =>
          match (if 0 <? capped_away
                 then bump stats cat (add_capped_away capped_away)
                 else Some stats) with
          | None => None
          | Some stats => bump stats cat (add_written (length chunks))
          end
      end
  end.

(** lines 288-290: the records a file appends to [all_records] *)
Definition texts_of (d : document) : list str :=
  match d with
  | NotUseful => []
  | Kept _ texts _ => texts
  end.

(** lines 254-292: [for fp in files], on the state
    [(stats, total_files_seen, all_records)] and the generator *)
Fixpoint collect (fuel : nat) (a : args) (overrides : gmap (list N) Z)
    (labels : gmap (list N) (list N)) (keep_set : gset (list N))
    (files : list file) (stats : gmap (list N) counters)
    (total_files_seen : nat) (all_records : list str) (st : rng)
    : option (gmap (list N) counters * nat * list str * rng) :=
  match files with
  | [] => Some (stats, total_files_seen, all_records, st)
  | fp :: files' =>
      let cat := file_cat fp in
      if negb (bool_decide (cat ∈ keep_set))
      then collect fuel a overrides labels keep_set files' stats
             total_files_seen all_records st
      else
        match bump stats cat (add_seen 1) with
        | None => None
        | Some stats =>
            match process_document fuel a overrides labels cat
                    (file_rel_path fp) (file_raw fp) st with
            | None => None
            | Some (d, st) =>
                match count_document stats cat d with
                | None => None
                | Some stats =>
                    collect fuel a overrides labels keep_set files' stats
                      (total_files_seen + 1) (all_records ++ texts_of d) st
                end
            end
        end
  end.

End WithLibraries.
End Prepare.

(* ================================================================== *)
(** * Part II: the vocabulary of the statements                         *)
(* ================================================================== *)

(** ** Runs of consecutive elements *)

(** length of the run of [P] at the head of [s] *)
Fixpoint run_from {A} (P : A -> bool) (s : list A) : nat :=
  match s with
  | c :: r => if P c then S (run_from P r) else 0
  | [] => 0
  end.

(** length of the longest run of consecutive elements satisfying [P] *)
Fixpoint max_run {A} (P : A -> bool) (s : list A) : nat :=
  match s with
  | _ :: r => Nat.max (run_from P s) (max_run P r)
  | [] => 0
  end.

(** an empty line *)
Definition is_empty_line (l : str) : bool := negb (truthy l).

(** ** Chunks *)

(** A chunk obeys the bound. *)
Definition fits (max_chars : Z) (c : str) : Prop := (len c <= max_chars)%Z.

(** Length of the longest chunk. *)
Definition longest (chunks : list str) : nat :=
  foldr (fun c m => Nat.max (length c) m) 0 chunks.

(** The chunker applied span by span, as the specification words it:
    a span no longer than the maximum is one chunk, a longer span goes
    through the paragraph chunker, and the results are concatenated in
    the order of the spans. *)
Definition per_span (fuel : nat) (parts : list str) (max_chars overlap_chars : Z)
    : option (list str) :=
  @concat str <$>
    mapM (fun part =>
            if (len part <=? max_chars)%Z then Some [part]
            else Chunker.chunk_text_paragraphwise fuel part max_chars overlap_chars)
         parts.

(** ** Lines *)

(** What [rstrip] does to a text, told on its lines: trailing lines of
    whitespace go, and the last line kept loses its trailing whitespace. *)
Fixpoint rstrip_lines (ls : list str) : list str :=
  match ls with
  | [] => []
  | l :: r =>
      match rstrip_lines r with
      | [] => match rstrip l with [] => [] | l' => [l'] end
      | r' => l :: r'
      end
  end.

Section NoiseLines.
Variable lower : str -> str.

(** A line the stripper may pop: blank, download marker or English
    marker. *)
Definition noise (l : str) : bool :=
  Stripper.is_blank_line l || Stripper.is_download_line l
  || Stripper.is_english_line lower l.

(** [ls] is what is left of [lines] after popping a prefix of noise lines,
    the counter going from [removed] to [n]. *)
Definition stripped (lines : list str) (removed : nat)
    (ls : list str) (n : nat) : Prop :=
  exists pre, lines = pre ++ ls
              /\ Forall (fun l => noise l = true) pre
              /\ n = removed + length pre.

(** The first line left, if any, is not a noise line. *)
Definition head_clean (ls : list str) : Prop :=
  match ls with
  | l :: _ => noise l = false
  | [] => True
  end.

End NoiseLines.

(** ** Override strings *)

(** A part, already trimmed, seen as [KEY=NUMBER]. *)
Definition key_text (p : str) : str :=
  strip (Overrides.split_once Overrides.EQUALS p).1.
Definition value_text (p : str) : str :=
  strip (Overrides.split_once Overrides.EQUALS p).2.

(** The error a malformed part ends in. *)
Definition error_of (p : str) : Overrides.error :=
  if contains Overrides.EQUALS p
  then Overrides.InvalidLiteral (value_text p)
  else Overrides.BadOverride p.

Definition put (m : gmap (list N) Z) (kv : list N * Z) : gmap (list N) Z :=
  <[kv.1 := kv.2]> m.

Section OverrideParts.
Variable int : str -> option Z.

(** A non-empty part that is not of the form [KEY=NUMBER]: no ["="] in
    it, or a value that [int] rejects. *)
Definition malformed (p : str) : Prop :=
  p <> [] /\ (Overrides.EQUALS ∉ p \/ int (value_text p) = None).

(** The key and integer value of a well-formed part. *)
Definition entry (p : str) : option (list N * Z) :=
  if truthy p then (fun n => (key_text p, n)) <$> int (value_text p) else None.

Definition entries (parts : list str) : list (list N * Z) := omap entry parts.

End OverrideParts.

(** ** Useful characters *)

(** A character that counts for the sufficiency filter once the text has
    gone through the normalizer: not whitespace, and not one of the marks
    the normalizer deletes. *)
Definition useful_char (c : N) : bool :=
  negb (isspace c) && negb (c =? BOM)%N && negb (c =? RLM)%N && negb (c =? LRM)%N.

(** ** Normal forms *)

(** What the normalizer of [prepare_axolotl_cpt.py] leaves nothing to do
    on. *)
Definition normal_form (s : str) : Prop :=
  (BOM ∉ s) /\ (LRM ∉ s) /\ (RLM ∉ s) /\ (CR ∉ s) /\ (TAB ∉ s)
  /\ max_run Normalizer.is_hspace s <= 1
  /\ max_run Normalizer.is_lf s <= 2
  /\ strip s = s.

(** What the normalizer of [clean_qnoon_collection.py] leaves nothing to
    do on. *)
Definition mark_free (s : str) : Prop :=
  (BOM ∉ s) /\ (CR ∉ s) /\ (LRM ∉ s) /\ (RLM ∉ s).

(** ** Chunks of a document *)

(** A chunk as the dataset wants it: within the bound, not empty, and with
    no whitespace at either end. *)
Definition well_formed (max_chars : Z) (c : str) : Prop :=
  fits max_chars c /\ c <> [] /\ strip c = c.

(** The characters [b] account for those of [a]: with a positive overlap
    [a] is a subsequence of [b] (the overlaps repeat characters), with no
    overlap they are the same. *)
Definition covers (overlap_chars : Z) (a b : str) : Prop :=
  if (overlap_chars >? 0)%Z then sublist a b else a = b.

(** The paragraphs put together again with a blank line between two of
    them, as the accumulating loop builds its buffer. *)
Definition blank_joined (paras : list str) : str :=
  match paras with
  | [] => []
  | p :: ps => foldl (fun buf q => buf ++ [LF; LF] ++ q) p ps
  end.

(** A state [(chunks, buf)] of the accumulating loop from which a chunk
    longer than the maximum is bound to come out: one is already among
    the chunks, or the buffer, trimmed, is too long. *)
Definition oversized (max_chars : Z) (st : list str * str) : Prop :=
  Exists (fun c => (max_chars < len c)%Z) st.1
  \/ ((max_chars < len st.2)%Z /\ strip st.2 = st.2).

(** ** Command-line lists and labels *)

(** An item of a comma-separated option: not empty, trimmed, and with no
    comma in it. *)
Definition token (t : str) : Prop :=
  t <> [] /\ strip t = t /\ Overrides.COMMA ∉ t.

(** The label that a part [KEY=LABEL] of [--category_labels] gives. *)
Definition label_entry (part : str) : list N * list N :=
  let '(k, v) := Overrides.split_once Overrides.EQUALS part in (strip k, strip v).

(** ** The generator's contract *)

(** [rng.sample(range(n), k)] with [k <= n] returns [k] distinct positions
    below [n]. *)
Definition sample_contract {rng : Type} (R : Random.methods rng) : Prop :=
  forall (n k : nat) (st : rng), k <= n ->
    let drawn := (Random.sample_range R n k st).1 in
    length drawn = k /\ NoDup drawn /\ Forall (fun i => i < n) drawn.

(** ** The counters of a run *)

(** The sum of one counter over the categories. *)
Definition total_of {C : Type} (field : C -> nat) (stats : gmap (list N) C) : nat :=
  map_fold (fun _ c n => field c + n) 0 stats.

(** The number of files of a category in the traversal. *)
Definition files_in (cat : str) (files : list Prepare.file) : nat :=
  length (List.filter (fun fp => bool_decide (Prepare.file_cat fp = cat)) files).

(** The number of files whose category is kept. *)
Definition files_kept_in (keep_set : gset (list N)) (files : list Prepare.file) : nat :=
  length (List.filter (fun fp => bool_decide (Prepare.file_cat fp ∈ keep_set)) files).

(** The files the cleaner processes: all of them, or those under a
    configured category folder. *)
Definition is_processed (include_uncategorized : bool) (fp : Cleaner.file) : bool :=
  include_uncategorized || Cleaner.within_configured_categories (Cleaner.file_cat fp).

(** The files of a category among them. *)
Definition processed_in (include_uncategorized : bool) (cat : str)
    (files : list Cleaner.file) : nat :=
  length (List.filter (fun fp => is_processed include_uncategorized fp
                                 && bool_decide (Cleaner.file_cat fp = cat)) files).

Definition is_cleaned (w : str * Cleaner.written) : bool :=
  match w.2 with Cleaner.Cleaned _ => true | Cleaner.Discarded _ => false end.

(** ** Article headings *)

(** The segmenter as the specification words it: the document is cut at
    the line starts where an article heading lies ahead, and the spans
    are the pieces, trimmed, those of whitespace only left out. *)

(** Position [i] of the text is the start of a line. *)
Definition line_start (text : str) (i : nat) : Prop :=
  match i with
  | O => True
  | S j => text !! j = Some LF
  end.

(** The two heading words, ["المادة"] and ["مادة"]. *)
Definition heading_words : list str :=
  [[1575; 1604; 1605; 1575; 1583; 1577]%N; [1605; 1575; 1583; 1577]%N].

(** A number starts here: a digit, or an opening parenthesis (code point
    40) and a digit. *)
Definition number_at (is_digit : N -> bool) (s : str) : Prop :=
  exists d rest, is_digit d = true
                 /\ (s = d :: rest \/ s = 40%N :: d :: rest).

(** An article heading lies ahead of [s]: after whitespace, if any, one of
    the two heading words, whitespace, and a number. *)
Definition heading_at (is_digit : N -> bool) (s : str) : Prop :=
  exists ws word sp rest,
    s = ws ++ word ++ sp ++ rest
    /\ Forall (fun c => isspace c = true) ws
    /\ word ∈ heading_words
    /\ sp <> [] /\ Forall (fun c => isspace c = true) sp
    /\ number_at is_digit rest.

(** The text [s], which starts at position [offset] of the document, cut
    at the positions [cuts] of the document, taken in increasing order. *)
Fixpoint cut_at (offset : nat) (cuts : list nat) (s : str) : list str :=
  match cuts with
  | [] => [s]
  | p :: cuts' => take (p - offset) s :: cut_at p cuts' (drop (p - offset) s)
  end.

(** The spans that pieces give: trimmed, blank ones left out. *)
Definition spans_of (pieces : list str) : list str :=
  strip <$> List.filter (fun p => truthy (strip p)) pieces.

(** The positions at which the source's pattern matches, in increasing
    order: [i] is the position of the head of [s], [bol] says that it is
    a line start. *)
Fixpoint cut_points (is_digit : N -> bool) (bol : bool) (i : nat) (s : str)
    : list nat :=
  match s with
  | [] => []
  | c :: r =>
      (if bol && Segmenter.lookahead is_digit s then [i] else [])
      ++ cut_points is_digit (c =? LF)%N (S i) r
  end.

(** The word ["مادة"] occurs in the text. *)
Definition mentions_article (text : str) : Prop :=
  exists a b, text = a ++ Segmenter.MADDA ++ b.

(* ================================================================== *)
(** * Part III: properties                                              *)
(* ================================================================== *)

(** ** Strings *)

Section StringFacts.

Lemma len_nonneg (s : str) : (0 <= len s)%Z.
Proof. unfold len. lia. Qed.

Lemma len_app (s t : str) : len (s ++ t) = (len s + len t)%Z.
Proof. unfold len. rewrite length_app. lia. Qed.

Lemma length_lstrip (s : str) : length (lstrip s) <= length s.
Proof.
  induction s as [|c r IH]; simpl; [lia|].
  destruct (isspace c); simpl; lia.
Qed.

Lemma length_rstrip (s : str) : length (rstrip s) <= length s.
Proof.
  induction s as [|c r IH]; simpl; [lia|].
  destruct (rstrip r) as [|d r'].
  - destruct (isspace c); simpl; lia.
  - simpl in *. lia.
Qed.

Lemma len_strip (s : str) : (len (strip s) <= len s)%Z.
Proof.
  unfold strip, len.
  pose proof (length_rstrip (lstrip s)). pose proof (length_lstrip s). lia.
Qed.

Lemma len_slice (s : str) (i j : Z) :
  (0 <= i <= j)%Z -> (len (slice s i j) <= j - i)%Z.
Proof.
  intros Hij. unfold slice, clamp_index.
  pose proof (len_nonneg s) as Hn.
  destruct (Z.ltb_spec i 0) as [?|_]; [lia|].
  destruct (Z.ltb_spec j 0) as [?|_]; [lia|].
  destruct (Z.ltb_spec (Z.min i (len s)) (Z.min j (len s))) as [Hlt|Hge].
  - unfold len at 1. rewrite length_take. lia.
  - unfold len at 1. simpl. lia.
Qed.

Lemma Forall_List_filter {A} (P : A -> Prop) (f : A -> bool) (l : list A) :
  Forall P l -> Forall P (List.filter f l).
Proof.
  induction 1 as [|x l Hx Hl IH]; simpl; [constructor|].
  destruct (f x); [constructor|]; assumption.
Qed.

End StringFacts.

(** ** Paragraph chunker *)

Section ChunkerFacts.
Import Chunker.

Variables (max_chars overlap_chars : Z).

(** Every window cut by the hard split is at most [max_chars] long. *)
Lemma hard_split_fits (c : str) (fuel : nat) :
  (0 < max_chars)%Z ->
  forall start hardened h,
    (0 <= start)%Z ->
    Forall (fits max_chars) hardened ->
    hard_split fuel c max_chars overlap_chars start hardened = Some h ->
    Forall (fits max_chars) h.
Proof.
  intros HM. induction fuel as [|fuel IH]; intros start hardened h Hs Hh; simpl.
  - discriminate.
  - destruct (Z.ltb_spec start (len c)) as [Hlt|Hge].
    + assert (Hw : Forall (fits max_chars)
                (hardened ++ [strip (slice c start (Z.min (start + max_chars) (len c)))])).
      { apply Forall_app. split; [assumption|].
        apply Forall_singleton. unfold fits.
        pose proof (len_strip (slice c start (Z.min (start + max_chars) (len c)))).
        pose proof (len_slice c start (Z.min (start + max_chars) (len c))).
        lia. }
      destruct (Z.geb_spec (Z.min (start + max_chars) (len c)) (len c)).
      * intros [= <-]. exact Hw.
      * apply IH; [lia|exact Hw].
    + intros [= <-]. exact Hh.
Qed.

Lemma harden_fits (fuel : nat) (chunks : list str) :
  (0 < max_chars)%Z ->
  forall hardened h,
    Forall (fits max_chars) hardened ->
    harden fuel chunks max_chars overlap_chars hardened = Some h ->
    Forall (fits max_chars) h.
Proof.
  intros HM. induction chunks as [|c cs IH]; intros hardened h Hh; simpl.
  - intros [= <-]. exact Hh.
  - destruct (Z.leb_spec (len c) max_chars) as [Hle|Hgt].
    + apply IH. apply Forall_app. split; [assumption|].
      apply Forall_singleton. exact Hle.
    + destruct (hard_split fuel c max_chars overlap_chars 0 hardened) as [h'|] eqn:E;
        [|discriminate].
      apply IH. eapply hard_split_fits; eauto. lia.
Qed.

(** More fuel does not change a result already reached. *)
Lemma hard_split_mono (c : str) (fuel fuel' : nat) :
  fuel <= fuel' ->
  forall start hardened h,
    hard_split fuel c max_chars overlap_chars start hardened = Some h ->
    hard_split fuel' c max_chars overlap_chars start hardened = Some h.
Proof.
  revert fuel'. induction fuel as [|fuel IH]; intros fuel' Hle start hardened h; simpl.
  - discriminate.
  - destruct fuel' as [|fuel']; [lia|]. simpl.
    destruct (start <? len c)%Z; [|trivial].
    destruct (Z.min (start + max_chars) (len c) >=? len c)%Z; [trivial|].
    apply IH. lia.
Qed.

Lemma harden_mono (fuel fuel' : nat) (chunks : list str) :
  fuel <= fuel' ->
  forall hardened h,
    harden fuel chunks max_chars overlap_chars hardened = Some h ->
    harden fuel' chunks max_chars overlap_chars hardened = Some h.
Proof.
  intros Hle. induction chunks as [|c cs IH]; intros hardened h; simpl; [trivial|].
  destruct (len c <=? max_chars)%Z; [apply IH|].
  destruct (hard_split fuel c max_chars overlap_chars 0 hardened) as [h'|] eqn:E;
    [|discriminate].
  rewrite (hard_split_mono c fuel fuel' Hle _ _ _ E). apply IH.
Qed.

(** With an overlap below the maximum every step moves the window start
    forward, so the loop ends within [len c - start] further steps. *)
Lemma hard_split_terminates (c : str) (fuel : nat) :
  (0 < max_chars)%Z -> (overlap_chars < max_chars)%Z ->
  forall start hardened,
    (0 <= start)%Z ->
    Z.to_nat (len c - start) < fuel ->
    is_Some (hard_split fuel c max_chars overlap_chars start hardened).
Proof.
  intros HM HO. induction fuel as [|fuel IH]; intros start hardened Hs Hf; simpl.
  - lia.
  - destruct (Z.ltb_spec start (len c)) as [Hlt|Hge]; [|eauto].
    destruct (Z.geb_spec (Z.min (start + max_chars) (len c)) (len c)); [eauto|].
    apply IH; lia.
Qed.

Lemma harden_terminates (fuel : nat) (chunks : list str) :
  (0 < max_chars)%Z -> (overlap_chars < max_chars)%Z ->
  longest chunks < fuel ->
  forall hardened, is_Some (harden fuel chunks max_chars overlap_chars hardened).
Proof.
  intros HM HO. induction chunks as [|c cs IH]; intros Hf hardened; simpl in *; [eauto|].
  destruct (len c <=? max_chars)%Z; [apply IH; lia|].
  destruct (hard_split_terminates c fuel HM HO 0 hardened) as [h Hh];
    [lia|unfold len; lia|].
  rewrite Hh. apply IH. lia.
Qed.

(** With an overlap of at least the maximum, the window start of a chunk
    longer than the maximum never leaves 0. *)
Lemma hard_split_stuck (c : str) :
  (0 < max_chars)%Z -> (max_chars <= overlap_chars)%Z -> (max_chars < len c)%Z ->
  forall fuel hardened,
    hard_split fuel c max_chars overlap_chars 0 hardened = None.
Proof.
  intros HM HO Hc. induction fuel as [|fuel IH]; intros hardened; simpl; [reflexivity|].
  destruct (Z.ltb_spec 0 (len c)) as [_|?]; [|lia].
  replace (Z.min (0 + max_chars) (len c)) with max_chars by lia.
  destruct (Z.geb_spec max_chars (len c)) as [?|_]; [lia|].
  replace (Z.max 0 (max_chars - overlap_chars)) with 0%Z by lia.
  apply IH.
Qed.

End ChunkerFacts.

(** C1: for every text, every maximum [M > 0] and every overlap [O] with
    [0 <= O < M], [chunk_text_paragraphwise] returns (the loops end once
    they are given enough steps, and the result no longer depends on the
    number of steps allowed) and every chunk of the returned list has
    length at most [M]; the chunks that come out of the paragraph
    accumulation and the windows cut by the hard split all pass through
    the same final list. *)
Theorem chunk_text_paragraphwise_bounded (text : str) (M O : Z) :
  (0 < M)%Z -> (0 <= O < M)%Z ->
  exists (fuel0 : nat) (chunks : list str),
    (forall fuel, fuel0 <= fuel ->
       Chunker.chunk_text_paragraphwise fuel text M O = Some chunks)
    /\ Forall (fun c => (len c <= M)%Z) chunks.
Proof.
  intros HM HO. unfold Chunker.chunk_text_paragraphwise.
  set (cs := Chunker.accumulate (Chunker.paragraphs text) M O).
  destruct (harden_terminates M O (S (longest cs)) cs HM ltac:(lia) ltac:(lia) [])
    as [h Hh].
  exists (S (longest cs)), (List.filter truthy h). split.
  - intros fuel Hf. rewrite (harden_mono M O _ fuel cs Hf _ _ Hh). reflexivity.
  - apply Forall_List_filter.
    eapply (harden_fits M O); [exact HM| |exact Hh]. constructor.
Qed.

Lemma chunk_text_paragraphwise_bounded_witness :
  exists (fuel0 : nat) (chunks : list str),
    (forall fuel, fuel0 <= fuel ->
       Chunker.chunk_text_paragraphwise fuel
         [97; 98; 10; 10; 99; 100; 10; 10; 101; 102; 103; 104]%N 6 2 = Some chunks)
    /\ Forall (fun c => (len c <= 6)%Z) chunks.
Proof.
  apply (chunk_text_paragraphwise_bounded _ 6 2); lia.
Defined.

(** C2 (the code at the failing input): a ten-character paragraph with
    [max_chars = 5] and [overlap_chars = 5].  However many steps the
    hard-split loop is allowed, it has not returned: the window start is
    0 after every step. *)
Theorem hard_split_overlap_eq_max_never_returns :
  forall fuel : nat,
    Chunker.chunk_text_paragraphwise fuel
      [97; 98; 99; 100; 101; 102; 103; 104; 105; 106]%N 5 5 = None.
Proof.
  intros fuel. unfold Chunker.chunk_text_paragraphwise.
  change (Chunker.accumulate _ 5 5)
    with [[97; 98; 99; 100; 101; 102; 103; 104; 105; 106]%N].
  cbn [Chunker.harden].
  change (len [97; 98; 99; 100; 101; 102; 103; 104; 105; 106]%N <=? 5)%Z with false.
  cbv iota. rewrite hard_split_stuck; [reflexivity|lia|lia|vm_compute; reflexivity].
Qed.

(** ** Chunk capper *)

Section CapperFacts.
Import Capper.
Context {rng : Type} (R : Random.methods rng).

Lemma mapM_ext_Forall {A B} (f g : A -> option B) (l : list A) :
  Forall (fun x => f x = g x) l -> mapM f l = mapM g l.
Proof.
  induction 1 as [|x l Hx _ IH]; [reflexivity|].
  cbn. rewrite Hx, IH. reflexivity.
Qed.

(** Reading a list at strictly increasing positions yields a sublist:
    the elements read keep their relative order. *)
Lemma lookup_increasing_sublist {A} (l : list A) :
  forall (k : nat) (idxs : list nat),
    StronglySorted lt idxs ->
    Forall (fun i => k <= i < k + length l) idxs ->
    exists out, mapM (fun i => l !! (i - k)) idxs = Some out
                /\ out `sublist_of` l.
Proof.
  induction l as [|a l IH]; intros k idxs Hs Hr.
  - destruct idxs as [|i idxs].
    + exists []. split; [reflexivity|constructor].
    + apply Forall_cons in Hr as [Hi _]. simpl in Hi. lia.
  - destruct idxs as [|i idxs].
    + exists []. split; [reflexivity|apply sublist_nil_l].
    + apply StronglySorted_inv in Hs as [Hs Hlt].
      apply Forall_cons in Hr as [Hi Hr]. simpl in Hi, Hr.
      destruct (decide (i = k)) as [->|Hne].
      * destruct (IH (S k) idxs Hs) as (out & Hout & Hsub).
        { apply Forall_forall. intros j Hj.
          rewrite Forall_forall in Hlt, Hr.
          specialize (Hlt j Hj). specialize (Hr j Hj). lia. }
        exists (a :: out). split; [|by constructor].
        cbn. rewrite Nat.sub_diag. cbn.
        rewrite (mapM_ext_Forall _ (fun j => l !! (j - S k))), Hout; [reflexivity|].
        apply Forall_forall. intros j Hj. rewrite Forall_forall in Hlt.
        specialize (Hlt j Hj).
        replace (j - k) with (S (j - S k)) by lia. reflexivity.
      * destruct (IH (S k) (i :: idxs)) as (out & Hout & Hsub).
        { by constructor. }
        { apply Forall_forall. intros j Hj.
          apply elem_of_cons in Hj as [->|Hj]; [lia|].
          rewrite Forall_forall in Hlt, Hr.
          specialize (Hlt j Hj). specialize (Hr j Hj). lia. }
        exists out. split; [|by constructor].
        rewrite (mapM_ext_Forall _ (fun j => l !! (j - S k))); [exact Hout|].
        apply Forall_forall. intros j Hj.
        assert (k < j).
        { apply elem_of_cons in Hj as [->|Hj]; [lia|].
          rewrite Forall_forall in Hlt. specialize (Hlt j Hj). lia. }
        replace (j - k) with (S (j - S k)) by lia. reflexivity.
Qed.

Lemma sorted_nodup_increasing (l : list nat) :
  Sorted Nat.le l -> NoDup l -> StronglySorted lt l.
Proof.
  intros Hs Hn. apply (Sorted_StronglySorted Nat.le) in Hs.
  induction Hs as [|x l Hs IH Hx]; [constructor|].
  apply NoDup_cons in Hn as [Hx' Hn].
  constructor; [by apply IH|].
  apply Forall_forall. intros y Hy. rewrite Forall_forall in Hx.
  specialize (Hx y Hy). assert (x <> y) by (intros ->; contradiction). lia.
Qed.

(** The uncapped case neither changes the list nor touches the
    generator. *)
Lemma maybe_cap_chunks_unchanged (chunks : list str) (cap : Z) (st : rng) :
  (cap <= 0)%Z \/ (len chunks <= cap)%Z ->
  maybe_cap_chunks R chunks cap st = Some (chunks, st).
Proof.
  intros H. unfold maybe_cap_chunks, len in *.
  destruct (Z.leb_spec cap 0); [reflexivity|].
  destruct (Z.leb_spec (Z.of_nat (length chunks)) cap); [reflexivity|lia].
Qed.

Lemma cap_documents_app (d1 d2 : list (list str)) (cap : Z) (st : rng) :
  cap_documents R (d1 ++ d2) cap st =
  match cap_documents R d1 cap st with
  | Some (c1, st1) =>
      match cap_documents R d2 cap st1 with
      | Some (c2, st2) => Some (c1 ++ c2, st2)
      | None => None
      end
  | None => None
  end.
Proof.
  revert st. induction d1 as [|d d1 IH]; intros st; simpl.
  - destruct (cap_documents R d2 cap st) as [[c2 st2]|]; reflexivity.
  - destruct (maybe_cap_chunks R d cap st) as [[c st1]|]; [|reflexivity].
    rewrite IH.
    destruct (cap_documents R d1 cap st1) as [[c1 st2]|]; [|reflexivity].
    destruct (cap_documents R d2 cap st2) as [[c2 st3]|]; reflexivity.
Qed.

Lemma cap_documents_length (docs : list (list str)) (cap : Z) :
  forall st cs st', cap_documents R docs cap st = Some (cs, st') ->
                    length cs = length docs.
Proof.
  induction docs as [|d ds IH]; intros st cs st'; simpl.
  - intros [= <- _]. reflexivity.
  - destruct (maybe_cap_chunks R d cap st) as [[c st1]|]; [|discriminate].
    destruct (cap_documents R ds cap st1) as [[cs' st2]|] eqn:E; [|discriminate].
    intros [= <- _]. simpl. f_equal. eauto.
Qed.

End CapperFacts.

(** C3: for a chunk list of length [N] and a cap [C] with [0 < C < N],
    where the generator's [sample(range(N), C)] returns [C] distinct
    positions below [N] (the contract of [random.Random.sample]),
    [maybe_cap_chunks] returns exactly [C] chunks; they are the chunks at
    the drawn positions taken in increasing order, every one an element of
    the input, in their original relative order; the generator is left in
    the state after that one draw; [main] counts [N - C] chunks as capped
    away; and with a cap of 0 or of at least [N] the list comes back
    unchanged. *)
Theorem maybe_cap_chunks_samples_cap {rng : Type} (R : Random.methods rng)
    (chunks : list str) (cap : Z) (st : rng) (drawn : list nat) (st' : rng) :
  (0 < cap < len chunks)%Z ->
  Random.sample_range R (length chunks) (Z.to_nat cap) st = (drawn, st') ->
  length drawn = Z.to_nat cap ->
  NoDup drawn ->
  Forall (fun i => i < length chunks) drawn ->
  exists out : list str,
    Capper.maybe_cap_chunks R chunks cap st = Some (out, st')
    /\ len out = cap
    /\ Forall2 (fun i c => chunks !! i = Some c) (merge_sort Nat.le drawn) out
    /\ Forall (fun c => c ∈ chunks) out
    /\ out `sublist_of` chunks
    /\ Capper.cap_document R chunks cap st
       = Some (out, length chunks - Z.to_nat cap, st')
    /\ (forall cap' : Z,
          cap' = 0%Z \/ (len chunks <= cap')%Z ->
          Capper.maybe_cap_chunks R chunks cap' st = Some (chunks, st)).
Proof.
  intros Hcap Hdraw Hlen Hnd Hrange. unfold len in *.
  set (idxs := merge_sort Nat.le drawn).
  assert (Hperm : idxs ≡ₚ drawn) by apply merge_sort_Permutation.
  assert (Hinc : StronglySorted lt idxs).
  { apply sorted_nodup_increasing.
    - apply (Sorted_merge_sort Nat.le).
    - by rewrite Hperm. }
  assert (Hin : Forall (fun i => 0 <= i < 0 + length chunks) idxs).
  { rewrite Hperm. eapply Forall_impl; [exact Hrange|]. simpl. intros; lia. }
  destruct (lookup_increasing_sublist chunks 0 idxs Hinc Hin) as (out & Hout & Hsub).
  rewrite (mapM_ext _ (fun i => chunks !! i)) in Hout
    by (intros i; by rewrite Nat.sub_0_r).
  assert (Hmc : Capper.maybe_cap_chunks R chunks cap st = Some (out, st')).
  { unfold Capper.maybe_cap_chunks, len.
    destruct (Z.leb_spec cap 0); [lia|].
    destruct (Z.leb_spec (Z.of_nat (length chunks)) cap); [lia|]. simpl.
    rewrite Hdraw. fold idxs. rewrite Hout. reflexivity. }
  assert (Hlo : length out = Z.to_nat cap).
  { rewrite <- (length_mapM _ _ _ Hout), Hperm. exact Hlen. }
  exists out. repeat split.
  - exact Hmc.
  - lia.
  - by apply mapM_Some in Hout.
  - apply Forall_forall. intros c Hc. eapply elem_of_sublist; eauto.
  - exact Hsub.
  - unfold Capper.cap_document. rewrite Hmc, Hlo.
    destruct (Nat.ltb_spec (Z.to_nat cap) (length chunks)); [reflexivity|lia].
  - intros cap' Hc'. apply maybe_cap_chunks_unchanged. unfold len. lia.
Qed.

Lemma maybe_cap_chunks_samples_cap_witness :
  exists out : list str,
    Capper.maybe_cap_chunks Random.Lcg.lcg [[1]; [2]; [3]; [4]; [5]; [6]; [7]]%N 3 42%N
    = Some (out, 1000676753%N)
    /\ len out = 3%Z
    /\ Forall2 (fun i c => [[1]; [2]; [3]; [4]; [5]; [6]; [7]]%N !! i = Some c)
         (merge_sort Nat.le [4; 2; 5]) out
    /\ Forall (fun c => c ∈ [[1]; [2]; [3]; [4]; [5]; [6]; [7]]%N) out
    /\ out `sublist_of` [[1]; [2]; [3]; [4]; [5]; [6]; [7]]%N
    /\ Capper.cap_document Random.Lcg.lcg [[1]; [2]; [3]; [4]; [5]; [6]; [7]]%N 3 42%N
       = Some (out, 7 - Z.to_nat 3, 1000676753%N)
    /\ (forall cap' : Z,
          cap' = 0%Z \/ (len [[1]; [2]; [3]; [4]; [5]; [6]; [7]]%N <= cap')%Z ->
          Capper.maybe_cap_chunks Random.Lcg.lcg [[1]; [2]; [3]; [4]; [5]; [6]; [7]]%N cap' 42%N
          = Some ([[1]; [2]; [3]; [4]; [5]; [6]; [7]]%N, 42%N)).
Proof.
  apply (maybe_cap_chunks_samples_cap Random.Lcg.lcg
           [[1]; [2]; [3]; [4]; [5]; [6]; [7]]%N 3 42%N [4; 2; 5] 1000676753%N).
  - unfold len. simpl. lia.
  - vm_compute. reflexivity.
  - reflexivity.
  - compute_done.
  - compute_done.
Defined.

(** C10: when the cap is non-positive or the chunk list has at most [cap]
    elements, [maybe_cap_chunks] returns the input list and the generator
    state it was given, whatever the generator's methods are; in a run
    over several documents, leaving such a document out changes neither
    the capped lists of the other documents nor the generator state
    handed to the final shuffle. *)
Theorem maybe_cap_chunks_under_cap_frame {rng : Type} (R : Random.methods rng)
    (chunks : list str) (cap : Z) (st : rng) :
  (cap <= 0)%Z \/ (len chunks <= cap)%Z ->
  Capper.maybe_cap_chunks R chunks cap st = Some (chunks, st)
  /\ (forall (before after : list (list str)) (st0 : rng),
        Capper.cap_documents R (before ++ chunks :: after) cap st0 =
        match Capper.cap_documents R (before ++ after) cap st0 with
        | Some (cs, st1) =>
            Some (take (length before) cs ++ chunks :: drop (length before) cs, st1)
        | None => None
        end).
Proof.
  intros H. split; [by apply maybe_cap_chunks_unchanged|].
  intros before after st0. rewrite !cap_documents_app. simpl.
  destruct (Capper.cap_documents R before cap st0) as [[c1 st1]|] eqn:E1; [|reflexivity].
  rewrite (maybe_cap_chunks_unchanged R chunks cap st1 H).
  destruct (Capper.cap_documents R after cap st1) as [[c2 st2]|]; [|reflexivity].
  apply cap_documents_length in E1.
  rewrite take_app_length', drop_app_length' by done. reflexivity.
Qed.

Lemma maybe_cap_chunks_under_cap_frame_witness :
  Capper.maybe_cap_chunks Random.Lcg.lcg [[1]; [2]; [3]]%N 3 42%N
  = Some ([[1]; [2]; [3]]%N, 42%N)
  /\ (forall (before after : list (list str)) (st0 : N),
        Capper.cap_documents Random.Lcg.lcg (before ++ [[1]; [2]; [3]]%N :: after) 3 st0 =
        match Capper.cap_documents Random.Lcg.lcg (before ++ after) 3 st0 with
        | Some (cs, st1) =>
            Some (take (length before) cs ++ [[1]; [2]; [3]]%N :: drop (length before) cs, st1)
        | None => None
        end).
Proof.
  apply (maybe_cap_chunks_under_cap_frame Random.Lcg.lcg [[1]; [2]; [3]]%N 3 42%N).
  right. unfold len. simpl. lia.
Defined.

(** ** Dataset assembler *)

Section AssemblerFacts.
Import Assembler.

(** Under [max(1, _)], truncation toward zero and rounding down agree. *)
Lemma max1_to_int_floor (x : PyFloat.float) :
  PyFloat.is_finite x = true ->
  exists n f, PyFloat.to_int x = Some n /\ PyFloat.floor x = Some f
              /\ Z.max 1 n = Z.max 1 f.
Proof.
  destruct x as [s|s| |s m e]; simpl; try discriminate; intros _.
  - exists 0%Z, 0%Z. auto.
  - eexists _, _. split; [reflexivity|]. split; [reflexivity|].
    destruct e as [|p|p]; try reflexivity.
    assert (Hd : (0 < 2 ^ Z.pos p)%Z) by (apply Z.pow_pos_nonneg; lia).
    destruct s; simpl.
    + assert ((Z.neg m ÷ 2 ^ Z.pos p <= 0)%Z).
      { change (Z.neg m) with (- Z.pos m)%Z. rewrite Z.quot_opp_l by lia.
        pose proof (Z.quot_pos (Z.pos m) (2 ^ Z.pos p)). lia. }
      assert ((Z.neg m `div` 2 ^ Z.pos p <= 0)%Z).
      { apply Z.div_le_upper_bound; lia. }
      lia.
    + rewrite Z.quot_div_nonneg by lia. reflexivity.
Qed.

Lemma slice_to_nonneg {A} (l : list A) (n : Z) :
  (0 <= n)%Z -> slice_to l n = take (Z.to_nat n) l.
Proof.
  intros Hn. unfold slice_to, clamp_index, len.
  destruct (Z.ltb_spec n 0); [lia|].
  destruct (Z.le_ge_cases n (Z.of_nat (length l))).
  - by rewrite Z.min_l.
  - rewrite Z.min_r, Nat2Z.id by lia. rewrite !take_ge by lia. reflexivity.
Qed.

Lemma slice_from_nonneg {A} (l : list A) (n : Z) :
  (0 <= n)%Z -> slice_from l n = drop (Z.to_nat n) l.
Proof.
  intros Hn. unfold slice_from, clamp_index, len.
  destruct (Z.ltb_spec n 0); [lia|].
  destruct (Z.le_ge_cases n (Z.of_nat (length l))).
  - by rewrite Z.min_l.
  - rewrite Z.min_r, Nat2Z.id by lia. rewrite !drop_ge by lia. reflexivity.
Qed.

Lemma take_drop_disjoint_ids (l : list record) (n : nat) :
  NoDup (rec_id <$> l) ->
  forall r1 r2, r1 ∈ take n l -> r2 ∈ drop n l -> rec_id r1 <> rec_id r2.
Proof.
  intros Hnd r1 r2 H1 H2 Heq.
  rewrite <- (take_drop n l), fmap_app in Hnd.
  apply NoDup_app in Hnd as (_ & Hdis & _).
  apply (Hdis (rec_id r1)).
  - apply list_elem_of_fmap. eauto.
  - rewrite Heq. apply list_elem_of_fmap. eauto.
Qed.

End AssemblerFacts.

(** C4: for every record sequence, with the shuffle returning a
    rearrangement of it and the float product [total * val_ratio] finite
    when there are records, the assembler returns a validation and a
    training list such that: the validation size is 0 for no records and
    [max(1, floor(total * val_ratio))] otherwise (the product being the
    float product the code computes); validation is the first
    validation-size records of the shuffled sequence and training is the
    rest; validation followed by training is the shuffled sequence; the
    lengths add up to the total; and no record object is in both. *)
Theorem assemble_partition {rng : Type} (R : Random.methods rng)
    (all_records : list Assembler.record) (val_ratio : PyFloat.float)
    (st : rng) (shuffled : list Assembler.record) (st' : rng) :
  Random.shuffle R all_records st = (shuffled, st') ->
  shuffled ≡ₚ all_records ->
  (all_records = [] \/
   PyFloat.is_finite
     (PyFloat.mul (PyFloat.of_int (len all_records)) val_ratio) = true) ->
  exists (val_size : Z) (val train : list Assembler.record),
    Assembler.assemble R all_records val_ratio st = Some (val, train, st')
    /\ (all_records = [] -> val_size = 0%Z)
    /\ (all_records <> [] ->
        exists f : Z,
          PyFloat.floor (PyFloat.mul (PyFloat.of_int (len all_records)) val_ratio)
          = Some f
          /\ val_size = Z.max 1 f)
    /\ val = take (Z.to_nat val_size) shuffled
    /\ train = drop (Z.to_nat val_size) shuffled
    /\ val ++ train = shuffled
    /\ length val + length train = length all_records
    /\ (NoDup (Assembler.rec_id <$> all_records) ->
        forall r1 r2, r1 ∈ val -> r2 ∈ train ->
                      Assembler.rec_id r1 <> Assembler.rec_id r2).
Proof.
  intros Hsh Hperm Hfin.
  assert (Hlen : length shuffled = length all_records) by (by rewrite Hperm).
  assert (Hvs : exists vs : Z,
             Assembler.val_size shuffled val_ratio = Some vs /\ (0 <= vs)%Z
             /\ (all_records = [] -> vs = 0%Z)
             /\ (all_records <> [] ->
                 exists f : Z,
                   PyFloat.floor
                     (PyFloat.mul (PyFloat.of_int (len all_records)) val_ratio)
                   = Some f /\ vs = Z.max 1 f)).
  { unfold Assembler.val_size.
    destruct shuffled as [|r shuffled'] eqn:Es.
    - exists 0%Z. split; [reflexivity|]. split; [lia|]. split.
      + intros _. reflexivity.
      + intros Hne. destruct all_records; [done|discriminate].
    - destruct Hfin as [->|Hfin]; [discriminate|].
      replace (len (r :: shuffled')) with (len all_records) by (unfold len; lia).
      destruct (max1_to_int_floor _ Hfin) as (n & f & Hn & Hf & Hmax).
      rewrite Hn. exists (Z.max 1 n). split; [reflexivity|]. split; [lia|]. split.
      + intros ->. discriminate.
      + intros _. exists f. split; [exact Hf|exact Hmax]. }
  destruct Hvs as (vs & Hvs & Hpos & Hzero & Hfloor).
  exists vs, (take (Z.to_nat vs) shuffled), (drop (Z.to_nat vs) shuffled).
  repeat split; try assumption.
  - unfold Assembler.assemble. rewrite Hsh, Hvs.
    by rewrite slice_to_nonneg, slice_from_nonneg.
  - apply take_drop.
  - rewrite <- Hlen, <- length_app. by rewrite take_drop.
  - intros Hnd. apply take_drop_disjoint_ids. by rewrite Hperm.
Qed.

Lemma assemble_partition_witness :
  exists (val_size : Z) (val train : list Assembler.record),
    Assembler.assemble Random.Lcg.lcg
      [Assembler.Record_ 0 [97]; Assembler.Record_ 1 [98]; Assembler.Record_ 2 [97]]%N
      (S754_finite false 5764607523034235 (-59)) 7%N
    = Some (val, train, 712265938%N)
    /\ ([Assembler.Record_ 0 [97]; Assembler.Record_ 1 [98]; Assembler.Record_ 2 [97]]%N = []
        -> val_size = 0%Z)
    /\ ([Assembler.Record_ 0 [97]; Assembler.Record_ 1 [98]; Assembler.Record_ 2 [97]]%N <> [] ->
        exists f : Z,
          PyFloat.floor
            (PyFloat.mul
               (PyFloat.of_int
                  (len [Assembler.Record_ 0 [97]; Assembler.Record_ 1 [98];
                        Assembler.Record_ 2 [97]]%N))
               (S754_finite false 5764607523034235 (-59)))
          = Some f
          /\ val_size = Z.max 1 f)
    /\ val = take (Z.to_nat val_size)
               [Assembler.Record_ 0 [97]; Assembler.Record_ 2 [97]; Assembler.Record_ 1 [98]]%N
    /\ train = drop (Z.to_nat val_size)
                 [Assembler.Record_ 0 [97]; Assembler.Record_ 2 [97]; Assembler.Record_ 1 [98]]%N
    /\ val ++ train
       = [Assembler.Record_ 0 [97]; Assembler.Record_ 2 [97]; Assembler.Record_ 1 [98]]%N
    /\ length val + length train = 3
    /\ (NoDup (Assembler.rec_id <$>
                 [Assembler.Record_ 0 [97]; Assembler.Record_ 1 [98];
                  Assembler.Record_ 2 [97]]%N) ->
        forall r1 r2, r1 ∈ val -> r2 ∈ train ->
                      Assembler.rec_id r1 <> Assembler.rec_id r2).
Proof.
  apply (assemble_partition Random.Lcg.lcg
           [Assembler.Record_ 0 [97]; Assembler.Record_ 1 [98]; Assembler.Record_ 2 [97]]%N
           (S754_finite false 5764607523034235 (-59)) 7%N
           [Assembler.Record_ 0 [97]; Assembler.Record_ 2 [97]; Assembler.Record_ 1 [98]]%N
           712265938%N).
  - vm_compute. reflexivity.
  - apply Permutation_skip, Permutation_swap.
  - right. vm_compute. reflexivity.
Defined.

(** ** Lines, joins and trimming *)

Section LineFacts.

Lemma str_eqb_eq (s t : str) : str_eqb s t = true <-> s = t.
Proof.
  revert t. induction s as [|c s IH]; intros [|d t]; simpl; try (split; [discriminate|congruence]).
  - split; reflexivity.
  - rewrite andb_true_iff, N.eqb_eq, IH. split; [intros [-> ->]; reflexivity|].
    intros [= -> ->]. split; reflexivity.
Qed.

Lemma lstrip_idemp (s : str) : lstrip (lstrip s) = lstrip s.
Proof.
  induction s as [|c r IH]; [reflexivity|]. simpl.
  destruct (isspace c) eqn:E; [exact IH|]. simpl. rewrite E. reflexivity.
Qed.

Lemma rstrip_idemp (s : str) : rstrip (rstrip s) = rstrip s.
Proof.
  induction s as [|c r IH]; [reflexivity|]. simpl.
  destruct (rstrip r) as [|d r'] eqn:E.
  - destruct (isspace c) eqn:Ec; [reflexivity|]. simpl. rewrite Ec. reflexivity.
  - cbn [rstrip]. cbn [rstrip] in IH. rewrite IH. reflexivity.
Qed.

Lemma lstrip_rstrip_comm (s : str) : lstrip (rstrip s) = rstrip (lstrip s).
Proof.
  induction s as [|c r IH]; [reflexivity|]. simpl.
  destruct (isspace c) eqn:Ec.
  - rewrite <- IH. destruct (rstrip r) as [|d r']; simpl; rewrite ?Ec; reflexivity.
  - cbn [rstrip]. destruct (rstrip r) as [|d r']; simpl; rewrite ?Ec; reflexivity.
Qed.

Lemma strip_idemp (s : str) : strip (strip s) = strip s.
Proof.
  unfold strip. by rewrite lstrip_rstrip_comm, lstrip_idemp, rstrip_idemp.
Qed.

Lemma strip_lstrip (s : str) : strip (lstrip s) = strip s.
Proof. unfold strip. by rewrite lstrip_idemp. Qed.

Lemma strip_rstrip (s : str) : strip (rstrip s) = strip s.
Proof. unfold strip. by rewrite lstrip_rstrip_comm, rstrip_idemp. Qed.

Lemma rstrip_nil_strip (s : str) : rstrip s = [] -> strip s = [].
Proof. intros H. unfold strip. by rewrite <- lstrip_rstrip_comm, H. Qed.

Lemma lstrip_nil_strip (s : str) : lstrip s = [] -> strip s = [].
Proof. intros H. unfold strip. by rewrite H. Qed.

Lemma rstrip_app (a b : str) :
  rstrip (a ++ b) = match rstrip b with [] => rstrip a | b' => a ++ b' end.
Proof.
  induction a as [|c a IH]; simpl.
  - by destruct (rstrip b).
  - rewrite IH. destruct (rstrip b) as [|d b']; [reflexivity|].
    by destruct a.
Qed.

Lemma lstrip_app (a b : str) : lstrip a <> [] -> lstrip (a ++ b) = lstrip a ++ b.
Proof.
  induction a as [|c a IH]; simpl; [done|].
  destruct (isspace c); [exact IH|reflexivity].
Qed.

Lemma elem_of_lstrip (x : N) (s : str) : x ∈ lstrip s -> x ∈ s.
Proof.
  induction s as [|c r IH]; simpl; [done|].
  destruct (isspace c); [|done]. intros H. apply elem_of_cons. right. auto.
Qed.

Lemma elem_of_rstrip (x : N) (s : str) : x ∈ rstrip s -> x ∈ s.
Proof.
  induction s as [|c r IH]; simpl; [done|].
  destruct (rstrip r) as [|d r'].
  - destruct (isspace c); [by intros ?%elem_of_nil|].
    intros ->%list_elem_of_singleton. apply elem_of_cons. by left.
  - intros [->|H]%elem_of_cons; apply elem_of_cons; [by left|right; auto].
Qed.

Lemma split_on_nonempty (sep : N) (s : str) : split_on sep s <> [].
Proof.
  destruct s as [|c r]; simpl; [done|].
  destruct (c =? sep)%N; [done|]. by destruct (split_on sep r).
Qed.

Lemma split_on_free (sep : N) (s : str) :
  Forall (fun l => sep ∉ l) (split_on sep s).
Proof.
  induction s as [|c r IH]; simpl.
  - constructor; [apply not_elem_of_nil|constructor].
  - destruct (N.eqb_spec c sep) as [->|Hne].
    + constructor; [apply not_elem_of_nil|exact IH].
    + destruct (split_on sep r) as [|l ls]; simpl.
      * constructor; [|constructor]. apply not_elem_of_cons.
        split; [congruence|apply not_elem_of_nil].
      * apply Forall_cons in IH as [Hl Hls]. constructor; [|exact Hls].
        apply not_elem_of_cons. split; [congruence|exact Hl].
Qed.

Lemma split_on_no_sep (sep : N) (l : str) : sep ∉ l -> split_on sep l = [l].
Proof.
  induction l as [|c l IH]; simpl; [done|].
  intros [Hne Hl]%not_elem_of_cons.
  destruct (N.eqb_spec c sep) as [->|_]; [done|]. by rewrite IH.
Qed.

Lemma split_on_app_sep (sep : N) (l rest : str) :
  sep ∉ l -> split_on sep (l ++ sep :: rest) = l :: split_on sep rest.
Proof.
  induction l as [|c l IH]; simpl.
  - intros _. by rewrite N.eqb_refl.
  - intros [Hne Hl]%not_elem_of_cons.
    destruct (N.eqb_spec c sep) as [->|_]; [done|]. by rewrite IH.
Qed.

Lemma join_cons2 (sep : N) (l l1 : str) (ls : list str) :
  join sep (l :: l1 :: ls) = l ++ sep :: join sep (l1 :: ls).
Proof. reflexivity. Qed.

Lemma split_on_join (sep : N) (ls : list str) :
  ls <> [] -> Forall (fun l => sep ∉ l) ls -> split_on sep (join sep ls) = ls.
Proof.
  induction ls as [|l ls IH]; [done|]. intros _ [Hl Hls]%Forall_cons.
  destruct ls as [|l1 ls].
  - simpl. by apply split_on_no_sep.
  - rewrite join_cons2, split_on_app_sep by done. f_equal. by apply IH.
Qed.

Lemma join_split_on (sep : N) (s : str) : join sep (split_on sep s) = s.
Proof.
  induction s as [|c r IH]; [reflexivity|]. simpl.
  pose proof (split_on_nonempty sep r) as Hne.
  destruct (split_on sep r) as [|l ls]; [done|].
  destruct (N.eqb_spec c sep) as [->|_].
  - rewrite join_cons2, IH. reflexivity.
  - simpl. destruct ls as [|l1 ls]; simpl in *; by rewrite <- IH.
Qed.

Lemma lstrip_join (sep : N) (l : str) (ls : list str) :
  lstrip l <> [] -> lstrip (join sep (l :: ls)) = join sep (lstrip l :: ls).
Proof.
  intros Hl. destruct ls as [|l1 ls]; [reflexivity|].
  rewrite !join_cons2. by apply lstrip_app.
Qed.

Lemma join_rstrip_lines_nonempty (ls : list str) :
  rstrip_lines ls <> [] -> join LF (rstrip_lines ls) <> [].
Proof.
  induction ls as [|l r IH]; simpl; [done|].
  destruct (rstrip_lines r) as [|l1 r'] eqn:E.
  - by destruct (rstrip l).
  - intros _. rewrite join_cons2. by destruct l.
Qed.

Lemma rstrip_join (ls : list str) :
  rstrip (join LF ls) = join LF (rstrip_lines ls).
Proof.
  induction ls as [|l r IH]; [reflexivity|].
  destruct r as [|l1 r].
  - simpl. by destruct (rstrip l).
  - rewrite join_cons2, rstrip_app. cbn [rstrip]. rewrite IH.
    assert (Hne := join_rstrip_lines_nonempty (l1 :: r)).
    change (rstrip_lines (l :: l1 :: r)) with
      (match rstrip_lines (l1 :: r) with
       | [] => match rstrip l with [] => [] | l' => [l'] end
       | r' => l :: r'
       end).
    destruct (rstrip_lines (l1 :: r)) as [|l2 r'] eqn:E.
    + simpl. by destruct (rstrip l).
    + specialize (Hne ltac:(done)).
      destruct (join LF (l2 :: r')) as [|d t] eqn:Ej; [done|].
      by rewrite join_cons2, Ej.
Qed.

Lemma rstrip_lines_free (ls : list str) :
  Forall (fun l => LF ∉ l) ls -> Forall (fun l => LF ∉ l) (rstrip_lines ls).
Proof.
  induction 1 as [|l r Hl Hr IH]; simpl; [constructor|].
  destruct (rstrip_lines r) as [|l1 r'].
  - pose proof (elem_of_rstrip LF l) as Hin.
    destruct (rstrip l); constructor; [|constructor]. intros H. by apply Hl, Hin.
  - by constructor.
Qed.

Lemma rstrip_lines_lookup (ls : list str) (i : nat) (l : str) :
  ls !! i = Some l -> strip l <> [] ->
  exists l', rstrip_lines ls !! i = Some l' /\ strip l' = strip l.
Proof.
  revert i. induction ls as [|l0 r IH]; intros i; [done|]. simpl.
  destruct i as [|i]; simpl.
  - intros [= ->] Hl.
    destruct (rstrip_lines r) as [|l1 r']; [|eauto].
    destruct (rstrip l) as [|d t] eqn:E.
    + by apply rstrip_nil_strip in E.
    + exists (d :: t). split; [done|]. rewrite <- E. apply strip_rstrip.
  - intros Hi Hl. destruct (IH i Hi Hl) as (l' & Hl' & Hs).
    destruct (rstrip_lines r) as [|l1 r']; [done|]. eauto.
Qed.

Lemma rstrip_lines_length (ls : list str) : length (rstrip_lines ls) <= length ls.
Proof.
  induction ls as [|l r IH]; simpl; [lia|].
  destruct (rstrip_lines r) as [|l1 r']; simpl in *; [|lia].
  destruct (rstrip l); simpl; lia.
Qed.

(** The lines of the trimmed join, when the first line is not blank. *)
Lemma split_strip_join (l0 : str) (rest : list str) :
  strip l0 <> [] -> Forall (fun l => LF ∉ l) (l0 :: rest) ->
  split_on LF (strip (join LF (l0 :: rest))) = rstrip_lines (lstrip l0 :: rest).
Proof.
  intros Hl0 [Hf0 Hf]%Forall_cons.
  assert (Hls : lstrip l0 <> []) by (intros H; by apply lstrip_nil_strip in H).
  unfold strip at 1. rewrite lstrip_join, rstrip_join by done.
  apply split_on_join.
  - simpl. destruct (rstrip_lines rest); [|done].
    fold (strip l0). by destruct (strip l0).
  - apply rstrip_lines_free. constructor; [|done].
    intros H. by apply Hf0, elem_of_lstrip.
Qed.

End LineFacts.

(** ** Noise-line stripper *)

Section StripperFacts.
Import Stripper.
Variable lower : str -> str.

(** Decide [noise lower l = true] or [noise lower l = false] from what the context
    knows about the three tests. *)
Ltac noise_known :=
  unfold noise;
  repeat match goal with
         | H : _ = true |- _ => rewrite H
         | H : _ = false |- _ => rewrite H
         end;
  rewrite ?orb_true_r; reflexivity.

Lemma is_blank_line_true (l : str) : is_blank_line l = true <-> strip l = [].
Proof. apply str_eqb_eq. Qed.

Lemma is_blank_line_false (l : str) : is_blank_line l = false <-> strip l <> [].
Proof.
  rewrite <- is_blank_line_true. destruct (is_blank_line l); split; congruence.
Qed.

Lemma noise_strip (l l' : str) : strip l' = strip l -> noise lower l' = noise lower l.
Proof.
  intros H. unfold noise, is_blank_line, is_download_line, is_english_line.
  by rewrite H.
Qed.

Lemma pop_blank_spec (lines : list str) :
  forall removed ls n ch,
    pop_blank lines removed = (ls, n, ch) ->
    exists pre, lines = pre ++ ls
                /\ Forall (fun l => is_blank_line l = true) pre
                /\ n = removed + length pre
                /\ (if ch then pre <> [] else pre = [])
                /\ match ls with l :: _ => is_blank_line l = false | [] => True end.
Proof.
  induction lines as [|l rest IH]; intros removed ls n ch; simpl.
  - intros [= <- <- <-]. exists []. repeat split; auto.
  - destruct (is_blank_line l) eqn:E.
    + destruct (pop_blank rest (S removed)) as [[ls' n'] ch'] eqn:Ep.
      intros [= <- <- <-].
      destruct (IH _ _ _ _ Ep) as (pre & -> & Hpre & -> & _ & Hhd).
      exists (l :: pre). split_and!; [done|by constructor|simpl; lia|done|done].
    + intros [= <- <- <-]. exists []. repeat split; auto.
Qed.

Lemma stripped_app (pre lines ls : list str) (removed n : nat) :
  Forall (fun l => noise lower l = true) pre ->
  stripped lower lines (removed + length pre) ls n ->
  stripped lower (pre ++ lines) removed ls n.
Proof.
  intros Hpre (pre' & -> & Hpre' & ->). exists (pre ++ pre').
  rewrite Forall_app, length_app, <- app_assoc. repeat split; auto. lia.
Qed.

Lemma blank_noise (pre : list str) :
  Forall (fun l => is_blank_line l = true) pre ->
  Forall (fun l => noise lower l = true) pre.
Proof.
  intros Hpre. eapply Forall_impl; [exact Hpre|].
  intros l H. simpl in H. unfold noise. by rewrite H.
Qed.

(** What the loop returns, when it returns. *)
Lemma strip_loop_sound (fuel : nat) :
  forall lines removed ls n,
    strip_loop lower fuel lines removed = Some (ls, n) ->
    stripped lower lines removed ls n /\ head_clean lower ls.
Proof.
  induction fuel as [|fuel IH]; intros lines removed ls n; simpl; [discriminate|].
  destruct (pop_blank lines removed) as [[ls1 n1] ch] eqn:Ep.
  destruct (pop_blank_spec _ _ _ _ _ Ep) as (pre1 & -> & Hpre1 & -> & Hch & Hhd).
  apply blank_noise in Hpre1.
  destruct ls1 as [|l0 rest].
  { intros [= <- <-]. split; [|exact I]. exists pre1. by rewrite app_nil_r. }
  destruct (is_download_line l0) eqn:Ed.
  { destruct (pop_blank rest (S (removed + length pre1))) as [[ls2 n2] ch2] eqn:Ep2.
    destruct (pop_blank_spec _ _ _ _ _ Ep2) as (pre2 & -> & Hpre2 & -> & _ & _).
    apply blank_noise in Hpre2.
    assert (Hn0 : noise lower l0 = true) by noise_known.
    destruct ls2 as [|l1 rest1].
    - intros H. destruct (IH _ _ _ _ H) as [Hs Hc]. split; [|exact Hc].
      replace (pre1 ++ l0 :: pre2 ++ []) with ((pre1 ++ l0 :: pre2) ++ []) by
        (by rewrite <- app_assoc).
      apply stripped_app.
      + rewrite Forall_app, Forall_cons. auto.
      + rewrite length_app. simpl.
        replace (removed + (length pre1 + S (length pre2)))
          with (S (removed + length pre1) + length pre2) by lia. exact Hs.
    - destruct (is_english_line lower l1 || is_download_line l1) eqn:E1.
      + intros H. destruct (IH _ _ _ _ H) as [Hs Hc]. split; [|exact Hc].
        replace (pre1 ++ l0 :: pre2 ++ l1 :: rest1)
          with ((pre1 ++ l0 :: pre2 ++ [l1]) ++ rest1)
          by (rewrite <- !app_assoc; simpl; by rewrite <- app_assoc).
        apply stripped_app.
        * rewrite Forall_app, Forall_cons, Forall_app, Forall_singleton.
          repeat split; auto.
          apply orb_true_iff in E1 as [E1|E1]; noise_known.
        * rewrite !length_app. simpl. rewrite length_app. simpl.
          replace (removed + (length pre1 + S (length pre2 + 1)))
            with (S (S (removed + length pre1) + length pre2)) by lia. exact Hs.
      + intros H. destruct (IH _ _ _ _ H) as [Hs Hc]. split; [|exact Hc].
        replace (pre1 ++ l0 :: pre2 ++ l1 :: rest1)
          with ((pre1 ++ l0 :: pre2) ++ l1 :: rest1)
          by (by rewrite <- app_assoc).
        apply stripped_app.
        * rewrite Forall_app, Forall_cons. auto.
        * rewrite length_app. simpl.
          replace (removed + (length pre1 + S (length pre2)))
            with (S (removed + length pre1) + length pre2) by lia. exact Hs. }
  destruct (is_english_line lower l0) eqn:Ee.
  { intros H. destruct (IH _ _ _ _ H) as [Hs Hc]. split; [|exact Hc].
    replace (pre1 ++ l0 :: rest) with ((pre1 ++ [l0]) ++ rest)
      by (by rewrite <- app_assoc).
    apply stripped_app.
    - rewrite Forall_app, Forall_singleton. split; [done|]. noise_known.
    - rewrite length_app. simpl.
      replace (removed + (length pre1 + 1)) with (S (removed + length pre1)) by lia.
      exact Hs. }
  destruct ch.
  { intros H. destruct (IH _ _ _ _ H) as [Hs Hc]. split; [|exact Hc].
    by apply stripped_app. }
  intros [= <- <-]. split.
  - exists pre1. auto.
  - simpl. noise_known.
Qed.

(** The loop returns: an iteration that asks for another one has popped
    a line. *)
Lemma strip_loop_total (fuel : nat) :
  forall lines removed,
    length lines < fuel -> is_Some (strip_loop lower fuel lines removed).
Proof.
  induction fuel as [|fuel IH]; intros lines removed Hf; simpl; [lia|].
  destruct (pop_blank lines removed) as [[ls1 n1] ch] eqn:Ep.
  destruct (pop_blank_spec _ _ _ _ _ Ep) as (pre1 & -> & _ & -> & Hch & _).
  rewrite length_app in Hf.
  destruct ls1 as [|l0 rest]; [eauto|]. simpl in Hf.
  destruct (is_download_line l0).
  { destruct (pop_blank rest (S (removed + length pre1))) as [[ls2 n2] ch2] eqn:Ep2.
    destruct (pop_blank_spec _ _ _ _ _ Ep2) as (pre2 & -> & _ & -> & _ & _).
    rewrite length_app in Hf.
    destruct ls2 as [|l1 rest1]; [apply IH; simpl; lia|]. simpl in Hf.
    destruct (is_english_line lower l1 || is_download_line l1);
      apply IH; simpl; lia. }
  destruct (is_english_line lower l0); [apply IH; lia|].
  destruct ch; [|eauto].
  apply IH. simpl. destruct pre1; [done|simpl in Hf; lia].
Qed.

(** More iterations allowed do not change a result already reached. *)
Lemma strip_loop_mono (fuel fuel' : nat) :
  fuel <= fuel' ->
  forall lines removed r,
    strip_loop lower fuel lines removed = Some r ->
    strip_loop lower fuel' lines removed = Some r.
Proof.
  revert fuel'. induction fuel as [|fuel IH]; intros fuel' Hle lines removed r;
    [discriminate|].
  destruct fuel' as [|fuel']; [lia|]. simpl.
  destruct (pop_blank lines removed) as [[ls1 n1] ch].
  destruct ls1 as [|l0 rest]; [done|].
  destruct (is_download_line l0).
  { destruct (pop_blank rest (S n1)) as [[ls2 n2] ch2].
    destruct ls2 as [|l1 rest1]; [apply IH; lia|].
    destruct (is_english_line lower l1 || is_download_line l1); apply IH; lia. }
  destruct (is_english_line lower l0); [apply IH; lia|].
  destruct ch; [apply IH; lia|done].
Qed.

(** A list whose first line is clean is left alone. *)
Lemma strip_loop_clean (fuel : nat) (l : str) (rest : list str) (removed : nat) :
  noise lower l = false ->
  strip_loop lower (S fuel) (l :: rest) removed = Some (l :: rest, removed).
Proof.
  unfold noise. intros H.
  apply orb_false_iff in H as [H He]. apply orb_false_iff in H as [Hb Hd].
  simpl. by rewrite Hb, Hd, He.
Qed.

(** The function returns, and what it returns. *)
Lemma strip_leading_download_lines_spec (text : str) :
  exists ls n,
    strip_leading_download_lines lower text = Some (strip (join LF ls), n)
    /\ stripped lower (split_on LF text) 0 ls n
    /\ head_clean lower ls.
Proof.
  unfold strip_leading_download_lines.
  destruct (pop_blank (split_on LF text) 0) as [[ls1 n1] ch] eqn:Ep.
  destruct (pop_blank_spec _ _ _ _ _ Ep) as (pre1 & Hl & Hpre1 & -> & _ & _).
  destruct (strip_loop_total (S (length ls1)) ls1 (0 + length pre1)) as [[ls n] Hr];
    [lia|].
  rewrite Hr. exists ls, n. split; [reflexivity|].
  destruct (strip_loop_sound _ _ _ _ _ Hr) as [Hs Hc]. split; [|exact Hc].
  rewrite Hl. apply stripped_app; [by apply blank_noise|exact Hs].
Qed.

(** The lines of the cleaned text, when lines are left. *)
Lemma cleaned_lines (text : str) (pre : list str) (l0 : str) (rest : list str) :
  split_on LF text = pre ++ l0 :: rest ->
  noise lower l0 = false ->
  split_on LF (strip (join LF (l0 :: rest))) = rstrip_lines (lstrip l0 :: rest)
  /\ exists l0' rest', rstrip_lines (lstrip l0 :: rest) = l0' :: rest'
                       /\ strip l0' = strip l0.
Proof.
  intros Hl Hn.
  assert (Hb : strip l0 <> []).
  { apply is_blank_line_false. unfold noise in Hn.
    by destruct (is_blank_line l0). }
  pose proof (split_on_free LF text) as Hfree.
  rewrite Hl, Forall_app in Hfree. destruct Hfree as [_ Hfree].
  split; [by apply split_strip_join|].
  destruct (rstrip_lines_lookup (lstrip l0 :: rest) 0 (lstrip l0)) as (l' & Hl' & Hs);
    [done|by rewrite strip_lstrip|].
  destruct (rstrip_lines (lstrip l0 :: rest)) as [|l0' rest']; [done|].
  injection Hl' as ->. exists l', rest'. split; [done|].
  by rewrite Hs, strip_lstrip.
Qed.

End StripperFacts.

(** C5 (as the code has it): applying the stripper to the cleaned text it
    returned gives that same cleaned text back; the second count is zero
    when the cleaned text is not empty, and one when it is empty, the
    empty text being split into a single empty line that is popped and
    counted. *)
Theorem strip_leading_download_lines_twice (lower : str -> str) (text : str) :
  exists (cleaned : str) (n : nat),
    Stripper.strip_leading_download_lines lower text = Some (cleaned, n)
    /\ Stripper.strip_leading_download_lines lower cleaned
       = Some (cleaned, match cleaned with [] => 1 | _ => 0 end).
Proof.
  destruct (strip_leading_download_lines_spec lower text)
    as (ls & n & Hr & (pre & Hl & Hpre & Hn) & Hc).
  exists (strip (join LF ls)), n. split; [exact Hr|].
  destruct ls as [|l0 rest]; [reflexivity|].
  simpl in Hc.
  destruct (cleaned_lines lower text pre l0 rest Hl Hc)
    as (Hsplit & l0' & rest' & Hrl & Hs).
  assert (Hn' : noise lower l0' = false) by (by rewrite (noise_strip lower l0 l0')).
  assert (Hb' : Stripper.is_blank_line l0' = false).
  { unfold noise in Hn'. by destruct (Stripper.is_blank_line l0'). }
  rewrite Hrl in Hsplit.
  set (cleaned := strip (join LF (l0 :: rest))) in *.
  assert (Hne : cleaned <> []).
  { intros E. rewrite E in Hsplit. simpl in Hsplit.
    injection Hsplit as <- _. discriminate Hb'. }
  unfold Stripper.strip_leading_download_lines.
  rewrite Hsplit. cbn [Stripper.pop_blank]. rewrite Hb'.
  rewrite strip_loop_clean by exact Hn'.
  rewrite <- Hsplit, join_split_on.
  unfold cleaned at 1. rewrite strip_idemp. fold cleaned.
  by destruct cleaned.
Qed.

(** C5 (as stated) fails on a document made of noise lines only: its
    cleaned text is empty, and stripping the empty text reports one
    removed line, not zero. *)
Lemma strip_leading_download_lines_twice_count_not_zero :
  ~ (forall (text cleaned : str) (n : nat),
       Stripper.strip_leading_download_lines ascii_lower text = Some (cleaned, n) ->
       Stripper.strip_leading_download_lines ascii_lower cleaned = Some (cleaned, 0)).
Proof.
  intros H.
  specialize (H (Stripper.DOWNLOAD_AR ++ [LF] ++ of_string "English" ++ [LF]) [] 3).
  vm_compute in H. specialize (H eq_refl). discriminate H.
Qed.

(** C6 (as the code has it): the stripper returns; the lines it removed,
    as many as it reports, are a prefix of the input's line list made of
    blank and marker lines only; the cleaned text is the rest of the
    lines joined again and trimmed of whitespace at both ends; and every
    line after that prefix that is not blank, a download or English
    marker included, is still in the cleaned text, at the same place
    among the remaining lines and equal to the original up to
    surrounding whitespace, hence classified as before. *)
Theorem strip_leading_download_lines_prefix (lower : str -> str) (text : str) :
  exists (cleaned : str) (n : nat),
    Stripper.strip_leading_download_lines lower text = Some (cleaned, n)
    /\ n <= length (split_on LF text)
    /\ Forall (fun l => noise lower l = true) (take n (split_on LF text))
    /\ cleaned = strip (join LF (drop n (split_on LF text)))
    /\ (forall (i : nat) (l : str),
          drop n (split_on LF text) !! i = Some l ->
          strip l <> [] ->
          exists l', split_on LF cleaned !! i = Some l'
                     /\ strip l' = strip l
                     /\ Stripper.is_download_line l' = Stripper.is_download_line l
                     /\ Stripper.is_english_line lower l'
                        = Stripper.is_english_line lower l).
Proof.
  destruct (strip_leading_download_lines_spec lower text)
    as (ls & n & Hr & (pre & Hl & Hpre & Hn) & Hc).
  simpl in Hn. subst n.
  exists (strip (join LF ls)), (length pre).
  rewrite Hl, take_app_length, drop_app_length, length_app.
  split; [exact Hr|]. split; [lia|]. split; [exact Hpre|]. split; [reflexivity|].
  intros i l Hi Hb.
  destruct ls as [|l0 rest]; [done|]. simpl in Hc.
  destruct (cleaned_lines lower text pre l0 rest Hl Hc) as (Hsplit & _).
  rewrite Hsplit.
  destruct (rstrip_lines_lookup (lstrip l0 :: rest) i
              (match i with 0 => lstrip l0 | _ => l end)) as (l' & Hl' & Hs).
  { destruct i; simpl in *; congruence. }
  { destruct i; [|done]. simpl in Hi. injection Hi as ->. by rewrite strip_lstrip. }
  assert (Hs' : strip l' = strip l).
  { destruct i; [|done]. simpl in Hi. injection Hi as ->. by rewrite Hs, strip_lstrip. }
  exists l'. split; [exact Hl'|]. split; [exact Hs'|].
  unfold Stripper.is_download_line, Stripper.is_english_line. by rewrite Hs'.
Qed.

(** C6 (as stated) fails on an ordinary file that ends in a line feed:
    one download line is removed and counted, yet the cleaned text has
    one line where the input has two left. *)
Lemma strip_leading_download_lines_not_line_suffix :
  ~ (forall (text cleaned : str) (n : nat),
       Stripper.strip_leading_download_lines ascii_lower text = Some (cleaned, n) ->
       split_on LF cleaned = drop n (split_on LF text)).
Proof.
  intros H.
  specialize (H (Stripper.DOWNLOAD_AR ++ [LF] ++ of_string "x" ++ [LF])
                (of_string "x") 1).
  vm_compute in H. specialize (H eq_refl). discriminate H.
Qed.

(** ** Normalizer *)

Section NormalizerFacts.
Import Normalizer.

(** *** Which characters a pass can put into its output *)

Lemma elem_of_remove_char (c x : N) (s : str) :
  x ∈ remove_char c s <-> x ∈ s /\ x <> c.
Proof.
  unfold remove_char. rewrite !list_elem_of_In, List.filter_In.
  rewrite negb_true_iff, N.eqb_neq. reflexivity.
Qed.

Lemma elem_of_replace_crlf (x : N) (s : str) :
  x ∈ replace_crlf s -> x ∈ s \/ x = LF.
Proof.
  induction s as [s IH] using (induction_ltof1 _ (@length N)).
  unfold ltof in IH.
  destruct s as [|c [|d r]]; simpl; [auto|auto|].
  destruct ((c =? CR)%N && (d =? LF)%N).
  - intros [->|H]%elem_of_cons; [auto|].
    destruct (IH r) as [?|?]; simpl; [lia|done| |auto].
    left. by do 2 apply list_elem_of_further.
  - intros [->|H]%elem_of_cons; [left; by left|].
    destruct (IH (d :: r)) as [?|?]; simpl; [lia|done| |auto].
    left. by apply list_elem_of_further.
Qed.

Lemma elem_of_replace_char (c d x : N) (s : str) :
  x ∈ replace_char c d s -> (x ∈ s /\ x <> c) \/ x = d.
Proof.
  unfold replace_char. intros (y & -> & Hy)%list_elem_of_fmap.
  destruct (N.eqb_spec y c) as [->|Hne]; auto.
Qed.

Lemma elem_of_collapse_hspace (b : bool) (x : N) (s : str) :
  x ∈ collapse_hspace b s -> (x ∈ s /\ is_hspace x = false) \/ x = SPACE.
Proof.
  revert b. induction s as [|c r IH]; intros b; simpl; [by intros ?%elem_of_nil|].
  destruct (is_hspace c) eqn:E.
  - destruct b.
    + intros H. destruct (IH _ H) as [[? ?]|?]; [left|auto].
      split; [by apply list_elem_of_further|done].
    + intros [->|H]%elem_of_cons; [auto|].
      destruct (IH _ H) as [[? ?]|?]; [left|auto].
      split; [by apply list_elem_of_further|done].
  - intros [->|H]%elem_of_cons; [left; split; [by left|done]|].
    destruct (IH _ H) as [[? ?]|?]; [left|auto].
    split; [by apply list_elem_of_further|done].
Qed.

Lemma elem_of_flush_lf (n : nat) (x : N) : x ∈ flush_lf n -> x = LF.
Proof.
  unfold flush_lf. destruct (3 <=? n).
  - intros [->|[->|?%elem_of_nil]%elem_of_cons]%elem_of_cons; done.
  - by intros [-> _]%elem_of_replicate.
Qed.

Lemma elem_of_collapse_lf (n : nat) (x : N) (s : str) :
  x ∈ collapse_lf n s -> x ∈ s \/ x = LF.
Proof.
  revert n. induction s as [|c r IH]; intros n; simpl.
  - intros ?%elem_of_flush_lf. auto.
  - destruct (is_lf c).
    + intros H. destruct (IH _ H); [left; by apply list_elem_of_further|auto].
    + intros [?%elem_of_flush_lf|[->|H]%elem_of_cons]%elem_of_app;
        [auto|left; by left|].
      destruct (IH _ H); [left; by apply list_elem_of_further|auto].
Qed.

Lemma elem_of_strip (x : N) (s : str) : x ∈ strip s -> x ∈ s.
Proof. intros H. by apply elem_of_lstrip, elem_of_rstrip. Qed.

(** *** Runs *)

Lemma run_from_app_stop {A} (P : A -> bool) (a : list A) (c : A) (r : list A) :
  P c = false -> run_from P (a ++ c :: r) <= length a.
Proof.
  intros Hc. induction a as [|d a IH]; simpl; [by rewrite Hc|].
  destruct (P d); lia.
Qed.

Lemma max_run_app_stop {A} (P : A -> bool) (a : list A) (c : A) (r : list A) :
  P c = false ->
  max_run P (a ++ c :: r) <= Nat.max (length a) (max_run P r).
Proof.
  intros Hc. induction a as [|d a IH].
  - simpl. rewrite Hc. lia.
  - change (max_run P ((d :: a) ++ c :: r))
      with (Nat.max (run_from P ((d :: a) ++ c :: r)) (max_run P (a ++ c :: r))).
    pose proof (run_from_app_stop P (d :: a) c r Hc). simpl length in *. lia.
Qed.

Lemma run_from_le_length {A} (P : A -> bool) (s : list A) :
  run_from P s <= length s.
Proof. induction s as [|c r IH]; simpl; [lia|]. destruct (P c); lia. Qed.

Lemma max_run_le_length {A} (P : A -> bool) (s : list A) :
  max_run P s <= length s.
Proof.
  induction s as [|c r IH]; [simpl; lia|].
  change (max_run P (c :: r)) with (Nat.max (run_from P (c :: r)) (max_run P r)).
  pose proof (run_from_le_length P (c :: r)). simpl length in *. lia.
Qed.

Lemma run_from_skip {A} (P : A -> bool) (a s : list A) :
  Forall (fun x => P x = false) a -> a <> [] -> run_from P (a ++ s) = 0.
Proof. intros [|x a' Hx _] Hne; [done|]. simpl. by rewrite Hx. Qed.

Lemma max_run_skip {A} (P : A -> bool) (a s : list A) :
  Forall (fun x => P x = false) a -> max_run P (a ++ s) = max_run P s.
Proof.
  induction 1 as [|x a Hx Ha IH]; [reflexivity|].
  change (max_run P ((x :: a) ++ s))
    with (Nat.max (run_from P (x :: a ++ s)) (max_run P (a ++ s))).
  simpl. rewrite Hx, IH. reflexivity.
Qed.

Lemma max_run_suffix {A} (P : A -> bool) (a s : list A) :
  max_run P s <= max_run P (a ++ s).
Proof.
  induction a as [|x a IH]; [simpl; lia|].
  change (max_run P ((x :: a) ++ s))
    with (Nat.max (run_from P (x :: a ++ s)) (max_run P (a ++ s))). lia.
Qed.

Lemma run_from_prefix {A} (P : A -> bool) (s w : list A) :
  run_from P s <= run_from P (s ++ w).
Proof. induction s as [|c r IH]; simpl; [lia|]. destruct (P c); lia. Qed.

Lemma max_run_prefix {A} (P : A -> bool) (s w : list A) :
  max_run P s <= max_run P (s ++ w).
Proof.
  induction s as [|c r IH]; [simpl; lia|].
  change (max_run P ((c :: r) ++ w))
    with (Nat.max (run_from P ((c :: r) ++ w)) (max_run P (r ++ w))).
  change (max_run P (c :: r)) with (Nat.max (run_from P (c :: r)) (max_run P r)).
  pose proof (run_from_prefix P (c :: r) w). lia.
Qed.

Lemma lstrip_suffix (s : str) : exists w, s = w ++ lstrip s.
Proof.
  induction s as [|c r [w IH]]; simpl; [by exists []|].
  destruct (isspace c); [|by exists []].
  exists (c :: w). simpl. by f_equal.
Qed.

Lemma rstrip_prefix (s : str) : exists w, s = rstrip s ++ w.
Proof.
  induction s as [|c r [w IH]]; simpl; [by exists []|].
  destruct (rstrip r) as [|d r'].
  - destruct (isspace c); [by exists (c :: r)|].
    exists w. simpl in IH. by rewrite <- IH.
  - exists w. simpl. by f_equal.
Qed.

Lemma max_run_strip (P : N -> bool) (s : str) : max_run P (strip s) <= max_run P s.
Proof.
  unfold strip.
  destruct (lstrip_suffix s) as [w Hw]. destruct (rstrip_prefix (lstrip s)) as [w' Hw'].
  pose proof (max_run_suffix P w (lstrip s)).
  pose proof (max_run_prefix P (rstrip (lstrip s)) w').
  rewrite <- Hw' in *. rewrite <- Hw in *. lia.
Qed.

(** *** The two collapsing passes *)

Lemma run_from_collapse_hspace (b : bool) (s : str) :
  run_from is_hspace (collapse_hspace b s) <= (if b then 0 else 1).
Proof.
  revert b. induction s as [|c r IH]; intros b; simpl; [destruct b; lia|].
  destruct (is_hspace c) eqn:E.
  - destruct b; [apply (IH true)|].
    simpl. pose proof (IH true). simpl in *. lia.
  - simpl. rewrite E. destruct b; lia.
Qed.

Lemma max_run_collapse_hspace (b : bool) (s : str) :
  max_run is_hspace (collapse_hspace b s) <= 1.
Proof.
  revert b. induction s as [|c r IH]; intros b; [simpl; lia|].
  pose proof (run_from_collapse_hspace b (c :: r)) as Hrun.
  simpl in *. destruct (is_hspace c) eqn:E.
  - destruct b; [apply IH|].
    change (max_run is_hspace (SPACE :: collapse_hspace true r))
      with (Nat.max (run_from is_hspace (SPACE :: collapse_hspace true r))
                    (max_run is_hspace (collapse_hspace true r))).
    specialize (IH true). lia.
  - change (max_run is_hspace (c :: collapse_hspace false r))
      with (Nat.max (run_from is_hspace (c :: collapse_hspace false r))
                    (max_run is_hspace (collapse_hspace false r))).
    specialize (IH false). destruct b; lia.
Qed.

Lemma flush_lf_length (n : nat) : length (flush_lf n) <= 2.
Proof.
  unfold flush_lf. destruct (Nat.leb_spec 3 n); simpl; [lia|].
  rewrite length_replicate. lia.
Qed.

Lemma flush_lf_nonempty (n : nat) : 0 < n -> flush_lf n <> [].
Proof.
  unfold flush_lf. destruct (3 <=? n); [done|]. destruct n; [lia|done].
Qed.

Lemma flush_lf_not (P : N -> bool) (n : nat) :
  P LF = false -> Forall (fun x => P x = false) (flush_lf n).
Proof.
  intros HP. apply Forall_forall. by intros x ->%elem_of_flush_lf.
Qed.

Lemma max_run_collapse_lf (n : nat) (s : str) :
  max_run is_lf (collapse_lf n s) <= 2.
Proof.
  revert n. induction s as [|c r IH]; intros n; simpl.
  - pose proof (max_run_le_length is_lf (flush_lf n)).
    pose proof (flush_lf_length n). lia.
  - destruct (is_lf c) eqn:E; [apply IH|].
    pose proof (max_run_app_stop is_lf (flush_lf n) c (collapse_lf 0 r) E).
    pose proof (flush_lf_length n). specialize (IH 0). lia.
Qed.

Lemma run_from_cons_mono {A} (P : A -> bool) (c : A) (s t : list A) :
  run_from P s <= run_from P t -> run_from P (c :: s) <= run_from P (c :: t).
Proof. simpl. destruct (P c); lia. Qed.

Lemma max_run_cons_mono {A} (P : A -> bool) (c : A) (s t : list A) :
  run_from P s <= run_from P t -> max_run P s <= max_run P t ->
  max_run P (c :: s) <= max_run P (c :: t).
Proof. simpl. destruct (P c); lia. Qed.

(** Collapsing line feeds lengthens no run of other characters. *)
Lemma runs_collapse_lf (P : N -> bool) (s : str) :
  P LF = false ->
  forall n,
    run_from P (collapse_lf n s) <= (if n is 0 then run_from P s else 0)
    /\ max_run P (collapse_lf n s) <= max_run P s.
Proof.
  intros HP. induction s as [|c r IH]; intros n.
  - simpl. pose proof (flush_lf_not P n HP) as Hf.
    rewrite <- (app_nil_r (flush_lf n)) at 2. rewrite max_run_skip by done.
    split; [|simpl; lia].
    destruct n; [reflexivity|].
    rewrite <- (app_nil_r (flush_lf (S n))), run_from_skip;
      [lia|done|apply flush_lf_nonempty; lia].
  - cbn [collapse_lf]. destruct (is_lf c) eqn:E.
    + apply N.eqb_eq in E as ->.
      destruct (IH (S n)) as [Hr Hm]. split.
      * simpl. rewrite HP. destruct n; lia.
      * pose proof (max_run_suffix P [LF] r). simpl app in *. lia.
    + destruct (IH 0) as [Hr Hm]. split.
      * destruct n; [by apply run_from_cons_mono|].
        rewrite run_from_skip; [lia|by apply flush_lf_not|apply flush_lf_nonempty; lia].
      * rewrite max_run_skip by (by apply flush_lf_not).
        by apply max_run_cons_mono.
Qed.

(** *** The ends of a trimmed string *)

Lemma lstrip_head (s : str) (c : N) (r : str) :
  lstrip s = c :: r -> isspace c = false.
Proof.
  induction s as [|d s IH]; simpl; [done|].
  destruct (isspace d) eqn:E; [exact IH|]. by intros [= <- _].
Qed.

Lemma rstrip_last (s : str) (p : str) (c : N) :
  rstrip s = p ++ [c] -> isspace c = false.
Proof.
  revert p. induction s as [|d s IH]; intros p; simpl; [by destruct p|].
  destruct (rstrip s) as [|x r'] eqn:E.
  - destruct (isspace d) eqn:Ed; [by destruct p|].
    destruct p as [|y p]; [by intros [= <-]|]. intros [= _ H]. by destruct p.
  - destruct p as [|y p]; [done|]. intros [= _ H]. eauto.
Qed.

(** *** Empty lines and line feeds *)

Lemma tail_cons_head (c : N) (ls : list str) :
  tail (cons_head c ls) = tail ls.
Proof. by destruct ls. Qed.

Lemma run_from_cons_head (c : N) (ls : list str) :
  run_from is_empty_line (cons_head c ls) = 0.
Proof. by destruct ls. Qed.

(** In a text that ends in a character other than a line feed, runs of
    empty lines are no longer than runs of line feeds. *)
Lemma empty_lines_runs (p : str) (c : N) :
  c <> LF ->
  run_from is_empty_line (split_on LF (p ++ [c])) <= run_from is_lf (p ++ [c])
  /\ max_run is_empty_line (tail (split_on LF (p ++ [c]))) <= max_run is_lf (p ++ [c]).
Proof.
  intros Hc. induction p as [|d p [IHr IHm]].
  - simpl. destruct (N.eqb_spec c LF); [done|]. simpl. lia.
  - change (max_run is_lf ((d :: p) ++ [c]))
      with (Nat.max (run_from is_lf (d :: p ++ [c])) (max_run is_lf (p ++ [c]))).
    simpl. unfold is_lf at 1 3. destruct (N.eqb_spec d LF) as [->|Hd].
    + simpl. split; [lia|].
      pose proof (split_on_nonempty LF (p ++ [c])).
      destruct (split_on LF (p ++ [c])) as [|l ls] eqn:E; [done|].
      change (max_run is_empty_line (l :: ls))
        with (Nat.max (run_from is_empty_line (l :: ls)) (max_run is_empty_line ls)).
      simpl in IHm. lia.
    + rewrite run_from_cons_head, tail_cons_head. lia.
Qed.

Lemma max_run_empty_lines (s : str) :
  (forall p c, s = p ++ [c] -> c <> LF) ->
  max_run is_empty_line (split_on LF s) <= Nat.max 1 (max_run is_lf s).
Proof.
  intros Hlast. destruct (decide (s = [])) as [->|Hne]; [simpl; lia|].
  destruct (exists_last Hne) as (p & c & ->).
  destruct (empty_lines_runs p c (Hlast p c eq_refl)) as [Hr Hm].
  pose proof (split_on_nonempty LF (p ++ [c])).
  destruct (split_on LF (p ++ [c])) as [|l ls] eqn:E; [done|].
  change (max_run is_empty_line (l :: ls))
    with (Nat.max (run_from is_empty_line (l :: ls)) (max_run is_empty_line ls)).
  simpl in Hm.
  pose proof (max_run_suffix is_lf [] (p ++ [c])).
  assert (run_from is_lf (p ++ [c]) <= max_run is_lf (p ++ [c])).
  { destruct (p ++ [c]) eqn:E'; [simpl; lia|].
    change (max_run is_lf (n :: l0)) with
      (Nat.max (run_from is_lf (n :: l0)) (max_run is_lf l0)). lia. }
  lia.
Qed.

End NormalizerFacts.

(** C7 (as the code has it): for every input text, the normalizer's output
    holds no byte-order mark, no left-to-right or right-to-left mark and
    no carriage return; no tab and no two consecutive characters of the
    class [[ \t]]; no three consecutive line feeds, hence no run of three
    or more consecutive empty lines; and neither its first nor its last
    character is whitespace.  The function is total, and the empty text
    is a possible output. *)
Theorem normalize_newlines_clean (text : str) :
  let out := Normalizer.normalize_newlines text in
  (BOM ∉ out) /\ (LRM ∉ out) /\ (RLM ∉ out) /\ (CR ∉ out)
  /\ (TAB ∉ out)
  /\ max_run Normalizer.is_hspace out <= 1
  /\ max_run Normalizer.is_lf out <= 2
  /\ max_run is_empty_line (split_on LF out) < 3
  /\ (forall c r, out = c :: r -> isspace c = false)
  /\ (forall p c, out = p ++ [c] -> isspace c = false)
  /\ Normalizer.normalize_newlines [] = [].
Proof.
  intros out. unfold Normalizer.normalize_newlines in out.
  set (t1 := remove_char BOM text) in out.
  set (t2 := replace_char CR LF (replace_crlf t1)) in out.
  set (t3 := remove_char LRM (remove_char RLM t2)) in out.
  set (t4 := Normalizer.collapse_hspace false t3) in out.
  set (t5 := Normalizer.collapse_lf 0 t4) in out.
  assert (H3 : forall x, x ∈ t3 -> x ∈ t2 /\ x <> LRM /\ x <> RLM).
  { intros x [[? ?]%elem_of_remove_char ?]%elem_of_remove_char. auto. }
  assert (H2 : forall x, x ∈ t2 -> x <> CR /\ (x ∈ t1 \/ x = LF)).
  { intros x [[Hx ?]| ->]%elem_of_replace_char; [|split; [done|by right]].
    split; [done|]. by apply elem_of_replace_crlf. }
  assert (H1 : forall x, x ∈ t1 -> x <> BOM).
  { by intros x [_ ?]%elem_of_remove_char. }
  assert (Hout : forall x, x ∈ out ->
            (x ∈ t3 /\ Normalizer.is_hspace x = false) \/ x = SPACE \/ x = LF).
  { intros x Hx%elem_of_strip.
    apply elem_of_collapse_lf in Hx as [Hx| ->]; [|auto].
    apply elem_of_collapse_hspace in Hx as [?| ->]; auto. }
  assert (Hlast : forall p c, out = p ++ [c] -> isspace c = false).
  { intros p c. unfold out, strip. apply rstrip_last. }
  split_and!.
  - intros Hx. destruct (Hout _ Hx) as [[Ht3 _]|[E|E]]; try discriminate E.
    destruct (H3 _ Ht3) as (Ht2 & _ & _).
    destruct (H2 _ Ht2) as (_ & [Ht1|E]); [|discriminate E]. by apply (H1 _ Ht1).
  - intros Hx. destruct (Hout _ Hx) as [[Ht3 _]|[E|E]]; try discriminate E.
    by destruct (H3 _ Ht3) as (_ & ? & _).
  - intros Hx. destruct (Hout _ Hx) as [[Ht3 _]|[E|E]]; try discriminate E.
    by destruct (H3 _ Ht3) as (_ & _ & ?).
  - intros Hx. destruct (Hout _ Hx) as [[Ht3 _]|[E|E]]; try discriminate E.
    destruct (H3 _ Ht3) as (Ht2 & _ & _). by destruct (H2 _ Ht2) as (? & _).
  - intros Hx. destruct (Hout _ Hx) as [[_ E]|[E|E]]; discriminate E.
  - etrans; [apply max_run_strip|].
    etrans; [apply (runs_collapse_lf Normalizer.is_hspace t4 eq_refl 0)|].
    apply max_run_collapse_hspace.
  - etrans; [apply max_run_strip|]. apply max_run_collapse_lf.
  - assert (max_run Normalizer.is_lf out <= 2).
    { etrans; [apply max_run_strip|]. apply max_run_collapse_lf. }
    pose proof (max_run_empty_lines out) as Hm.
    assert (forall p c, out = p ++ [c] -> c <> LF).
    { intros p c Hpc%Hlast ->. done. }
    specialize (Hm ltac:(done)). lia.
  - intros c r. unfold out. rewrite <- strip_idemp. unfold strip at 1.
    intros H. destruct (rstrip_prefix (lstrip (strip t5))) as [w Hw].
    rewrite H in Hw. eapply lstrip_head. exact Hw.
  - exact Hlast.
  - reflexivity.
Qed.

(** C7 (as stated) fails on lines that hold a space: the five-line text
    below comes out of the normalizer as it went in, with three
    consecutive lines that are blank by the repository's own test
    ([line.strip() == ""]); only runs of line feeds are collapsed. *)
Lemma normalize_newlines_keeps_blank_lines :
  ~ (forall text : str,
       max_run Stripper.is_blank_line
         (split_on LF (Normalizer.normalize_newlines text)) < 3).
Proof.
  intros H.
  specialize (H [99; LF; SPACE; LF; SPACE; LF; SPACE; LF; 100]%N).
  vm_compute in H. lia.
Qed.

(** ** Article segmenter and [chunk_document] *)

Section SegmenterFacts.
Import Segmenter.
Variable is_digit : N -> bool.

Lemma chunk_parts_per_span (fuel : nat) (max_chars overlap_chars : Z)
    (parts : list str) :
  forall out,
    chunk_parts fuel parts max_chars overlap_chars out
    = (fun cs => out ++ cs) <$> per_span fuel parts max_chars overlap_chars.
Proof.
  unfold per_span.
  induction parts as [|part parts IH]; intros out; cbn.
  - by rewrite app_nil_r.
  - destruct (len part <=? max_chars)%Z; cbn.
    + rewrite IH.
      destruct (mapM _ parts) as [css|]; cbn; [|done]. by rewrite <- app_assoc.
    + destruct (Chunker.chunk_text_paragraphwise fuel part max_chars overlap_chars)
        as [cs|]; cbn; [|done].
      rewrite IH.
      destruct (mapM _ parts) as [css|]; cbn; [|done]. by rewrite <- app_assoc.
Qed.

Lemma per_span_all_fit (fuel : nat) (max_chars overlap_chars : Z) (parts : list str) :
  Forall (fun p => (len p <= max_chars)%Z) parts ->
  per_span fuel parts max_chars overlap_chars = Some parts.
Proof.
  unfold per_span. induction 1 as [|p ps Hp _ IH]; [done|]. cbn.
  destruct (Z.leb_spec (len p) max_chars); [|lia]. cbn.
  destruct (mapM _ ps) as [css|]; cbn in *; [|done]. by injection IH as ->.
Qed.

Lemma lstrip_nil_spaces (s : str) :
  lstrip s = [] -> Forall (fun c => isspace c = true) s.
Proof.
  induction s as [|c r IH]; simpl; [constructor|].
  destruct (isspace c) eqn:E; [|done]. intros H. constructor; auto.
Qed.

Lemma strip_nil_spaces (s : str) :
  strip s = [] -> Forall (fun c => isspace c = true) s.
Proof.
  unfold strip. intros H. apply lstrip_nil_spaces.
  destruct (lstrip s) as [|c r] eqn:E; [done|].
  pose proof (lstrip_head s c r E) as Hc. simpl in H.
  destruct (rstrip r); [by rewrite Hc in H|done].
Qed.

Lemma spaces_strip_nil (s : str) :
  Forall (fun c => isspace c = true) s -> strip s = [].
Proof.
  intros H. apply lstrip_nil_strip.
  induction H as [|c r Hc _ IH]; [done|]. simpl. by rewrite Hc.
Qed.

Lemma concat_cons_head (c : N) (ls : list str) : concat (cons_head c ls) = c :: concat ls.
Proof. by destruct ls. Qed.

(** The article pattern matches the empty string: the pieces of the split
    are the text. *)
Lemma re_split_articles_content (s : str) :
  forall bol, concat (re_split_articles is_digit bol s) = s.
Proof.
  induction s as [|c r IH]; intros bol; [reflexivity|].
  cbn [re_split_articles]. cbv zeta.
  destruct (bol && lookahead is_digit (c :: r)); cbn [concat app];
    by rewrite concat_cons_head, IH.
Qed.

Lemma after_literal_app (w s r : str) : after_literal w s = Some r -> s = w ++ r.
Proof.
  revert s. induction w as [|c w IH]; intros [|d s]; simpl; try congruence.
  destruct (N.eqb_spec c d) as [->|_]; [|done]. intros H. f_equal. by apply IH.
Qed.

Lemma after_literal_refl (w r : str) : after_literal w (w ++ r) = Some r.
Proof. induction w as [|c w IH]; [done|]. simpl. by rewrite N.eqb_refl. Qed.

(** *** The lookahead is the heading of the specification *)

Lemma number_ahead_spec (s : str) :
  number_ahead is_digit s = true <-> number_at is_digit s.
Proof.
  unfold number_ahead, number_at. split.
  - destruct s as [|c r]; [done|].
    intros [H|[Hc H]%andb_true_iff]%orb_true_iff.
    + exists c, r. auto.
    + apply N.eqb_eq in Hc as ->. destruct r as [|d r]; [done|].
      exists d, r. auto.
  - intros (d & rest & Hd & [->| ->]).
    + by rewrite Hd.
    + rewrite Hd, N.eqb_refl. apply orb_true_r.
Qed.

Lemma spaces_number_ahead_spec (s : str) :
  spaces_number_ahead is_digit s = true
  <-> exists sp r, s = sp ++ r /\ sp <> []
                   /\ Forall (fun c => isspace c = true) sp
                   /\ number_ahead is_digit r = true.
Proof.
  split.
  - induction s as [|c r IH]; [done|]. cbn [spaces_number_ahead].
    intros [Hc [H|H]%orb_true_iff]%andb_true_iff.
    + exists [c], r. split; [done|]. split; [done|]. split; [|done]. by constructor.
    + destruct (IH H) as (sp & r' & -> & _ & Hsp & Hn).
      exists (c :: sp), r'. split; [done|]. split; [done|]. split; [|done].
      by constructor.
  - intros (sp & r & -> & Hne & Hsp & Hn).
    destruct sp as [|c sp]; [done|]. clear Hne. revert c Hsp.
    induction sp as [|c' sp IH]; intros c [Hc Hsp]%Forall_cons.
    + simpl. by rewrite Hc, Hn.
    + change ((c :: c' :: sp) ++ r) with (c :: ((c' :: sp) ++ r)).
      cbn [spaces_number_ahead]. rewrite Hc. cbn [andb].
      rewrite (IH c' Hsp). apply orb_true_r.
Qed.

Lemma heading_ahead_spec (s : str) :
  heading_ahead is_digit s = true
  <-> exists word r, (word = AL_MADDA \/ word = MADDA) /\ s = word ++ r
                     /\ spaces_number_ahead is_digit r = true.
Proof.
  unfold heading_ahead. split.
  - intros [H|H]%orb_true_iff.
    + destruct (after_literal AL_MADDA s) as [r|] eqn:E; [|done].
      apply after_literal_app in E. exists AL_MADDA, r. auto.
    + destruct (after_literal MADDA s) as [r|] eqn:E; [|done].
      apply after_literal_app in E. exists MADDA, r. auto.
  - intros (word & r & [->| ->] & -> & H); rewrite after_literal_refl, H;
      [done|apply orb_true_r].
Qed.

Lemma lookahead_spec (s : str) :
  lookahead is_digit s = true
  <-> exists ws r, s = ws ++ r /\ Forall (fun c => isspace c = true) ws
                   /\ heading_ahead is_digit r = true.
Proof.
  split.
  - induction s as [|c r IH]; cbn [lookahead].
    + intros H. exists [], []. split; [done|]. split; [constructor|done].
    + intros [H|[Hc H]%andb_true_iff]%orb_true_iff.
      * exists [], (c :: r). split; [done|]. split; [constructor|done].
      * destruct (IH H) as (ws & r' & -> & Hws & Hh).
        exists (c :: ws), r'. split; [done|]. split; [by constructor|done].
  - intros (ws & r & -> & Hws & Hh).
    induction Hws as [|c ws Hc Hws IH].
    + destruct r as [|c r]; [done|]. cbn [app lookahead]. by rewrite Hh.
    + cbn [app lookahead]. rewrite Hc, IH. apply orb_true_r.
Qed.

Lemma lookahead_heading_at (s : str) :
  lookahead is_digit s = true <-> heading_at is_digit s.
Proof.
  rewrite lookahead_spec. unfold heading_at. split.
  - intros (ws & r & -> & Hws & (word & r1 & Hw & -> & Hsn)%heading_ahead_spec).
    apply spaces_number_ahead_spec in Hsn as (sp & r2 & -> & Hne & Hsp & Hn).
    apply number_ahead_spec in Hn. exists ws, word, sp, r2.
    split; [done|]. split; [done|]. split; [|done].
    destruct Hw as [-> | ->]; [by left|by right; left].
  - intros (ws & word & sp & rest & -> & Hws & Hw & Hne & Hsp & Hn).
    exists ws, (word ++ sp ++ rest). split; [done|]. split; [done|].
    apply heading_ahead_spec. exists word, (sp ++ rest). split.
    { apply elem_of_cons in Hw as [->|Hw]; [by left|].
      apply list_elem_of_singleton in Hw as ->. by right. }
    split; [done|]. apply spaces_number_ahead_spec. exists sp, rest.
    by rewrite number_ahead_spec.
Qed.

(** *** The split cuts the text at the cut points *)

Lemma elem_of_cut_points (s : str) :
  forall (bol : bool) (i k : nat),
    k ∈ cut_points is_digit bol i s
    <-> exists j, k = i + j /\ j < length s
                  /\ match j with
                     | O => bol = true
                     | S j' => s !! j' = Some LF
                     end
                  /\ lookahead is_digit (drop j s) = true.
Proof.
  induction s as [|c r IH]; intros bol i k.
  - simpl. split; [by intros ?%elem_of_nil|]. intros (j & _ & Hj & _). lia.
  - cbn [cut_points]. rewrite elem_of_app, IH. split.
    + intros [Hk|(j & -> & Hj & Hb & Hl)].
      * destruct (bol && lookahead is_digit (c :: r)) eqn:E;
          [|by apply elem_of_nil in Hk].
        apply list_elem_of_singleton in Hk as ->.
        apply andb_true_iff in E as [-> E].
        exists 0. split; [lia|]. split; [simpl; lia|]. done.
      * exists (S j). split; [lia|]. split; [simpl; lia|]. split; [|done].
        destruct j as [|j']; [|done]. simpl. by apply N.eqb_eq in Hb as ->.
    + intros (j & -> & Hj & Hb & Hl). destruct j as [|j].
      * left. rewrite Hb. change (drop 0 (c :: r)) with (c :: r) in Hl. rewrite Hl.
        rewrite Nat.add_0_r. by apply list_elem_of_singleton.
      * right. exists j. split; [lia|]. split; [simpl in Hj; lia|].
        split; [|done]. destruct j as [|j']; [|done].
        simpl in Hb. injection Hb as ->. apply N.eqb_refl.
Qed.

Lemma cut_points_sorted (s : str) :
  forall (bol : bool) (i : nat),
    StronglySorted lt (cut_points is_digit bol i s)
    /\ Forall (fun k => i <= k) (cut_points is_digit bol i s).
Proof.
  induction s as [|c r IH]; intros bol i; [split; constructor|].
  cbn [cut_points]. destruct (IH (c =? LF)%N (S i)) as [Hs Hge].
  assert (Hgt : Forall (fun k => i < k) (cut_points is_digit (c =? LF)%N (S i) r)).
  { eapply Forall_impl; [exact Hge|]. simpl. intros; lia. }
  destruct (bol && lookahead is_digit (c :: r)); simpl.
  - split; [by constructor|]. constructor; [lia|].
    eapply Forall_impl; [exact Hge|]. simpl. intros; lia.
  - split; [done|]. eapply Forall_impl; [exact Hge|]. simpl. intros; lia.
Qed.

Lemma cons_head_cut_at (c : N) (r : str) (i : nat) (cuts : list nat) :
  Forall (fun k => S i <= k) cuts ->
  cons_head c (cut_at (S i) cuts r) = cut_at i cuts (c :: r).
Proof.
  destruct cuts as [|p cuts]; [done|]. intros [Hp _]%Forall_cons. simpl.
  replace (p - i) with (S (p - S i)) by lia. reflexivity.
Qed.

Lemma re_split_articles_cut_at (s : str) :
  forall (bol : bool) (i : nat),
    re_split_articles is_digit bol s = cut_at i (cut_points is_digit bol i s) s.
Proof.
  induction s as [|c r IH]; intros bol i; [done|].
  cbn [re_split_articles cut_points]. cbv zeta.
  rewrite (IH (c =? LF)%N (S i)).
  rewrite cons_head_cut_at by apply cut_points_sorted.
  destruct (bol && lookahead is_digit (c :: r)); [|done].
  simpl. by rewrite Nat.sub_diag.
Qed.

Lemma article_spans_spans_of (text : str) :
  article_spans is_digit text
  = spans_of (cut_at 0 (cut_points is_digit true 0 text) text).
Proof.
  unfold article_spans, spans_of. rewrite <- re_split_articles_cut_at.
  f_equal. induction (re_split_articles is_digit true text) as [|p ps IH]; [done|].
  simpl. rewrite IH. by destruct p.
Qed.

(** *** A heading after a line of text makes a split *)

Lemma re_split_articles_app (a b : str) :
  lookahead is_digit b = true ->
  (forall a' c, a = a' ++ [c] -> c = LF) ->
  forall bol, (a = [] -> bol = true) ->
    exists pa pb, re_split_articles is_digit bol (a ++ b) = pa ++ pb
                  /\ pa <> [] /\ concat pa = a /\ concat pb = b.
Proof.
  intros Hb. induction a as [|x a IH]; intros Hlast bol Hbol.
  - rewrite (Hbol eq_refl). destruct b as [|c r]; [done|].
    cbn [app re_split_articles]. cbv zeta. rewrite Hb. cbn [andb].
    exists [[]], (cons_head c (re_split_articles is_digit (c =? LF)%N r)).
    split; [done|]. split; [done|]. split; [done|].
    by rewrite concat_cons_head, re_split_articles_content.
  - destruct (IH (fun a' c E => Hlast (x :: a') c ltac:(by rewrite E)) (x =? LF)%N)
      as (pa & pb & Hsplit & Hne & Hpa & Hpb).
    { intros ->. rewrite (Hlast [] x eq_refl). apply N.eqb_refl. }
    change ((x :: a) ++ b) with (x :: (a ++ b)).
    cbn [re_split_articles]. cbv zeta. rewrite Hsplit.
    destruct pa as [|p pa]; [done|].
    change (cons_head x ((p :: pa) ++ pb)) with (((x :: p) :: pa) ++ pb).
    assert (Hpa' : concat ((x :: p) :: pa) = x :: a) by (simpl; by rewrite <- Hpa).
    destruct (bol && lookahead is_digit (x :: a ++ b)).
    + by exists ([] :: (x :: p) :: pa), pb.
    + by exists ((x :: p) :: pa), pb.
Qed.

Lemma filter_blank_spaces (ps : list str) :
  List.filter (fun p => truthy p && truthy (strip p)) ps = [] ->
  Forall (fun c => isspace c = true) (concat ps).
Proof.
  induction ps as [|p ps IH]; [constructor|]. simpl.
  destruct (truthy p && truthy (strip p)) eqn:E; [done|]. intros H.
  apply Forall_app. split; [|by apply IH].
  apply strip_nil_spaces. destruct p; [done|]. by destruct (strip (n :: p)).
Qed.

Lemma heading_at_not_blank (b : str) :
  heading_at is_digit b -> ~ Forall (fun c => isspace c = true) b.
Proof.
  intros (ws & word & sp & rest & -> & _ & Hw & _) [_ [H _]%Forall_app]%Forall_app.
  apply elem_of_cons in Hw as [->|Hw];
    [|apply list_elem_of_singleton in Hw as ->]; by apply Forall_cons in H as [? _].
Qed.

Lemma split_after_line (a b : str) :
  strip a <> [] -> heading_at is_digit b ->
  2 <= length (article_spans is_digit (a ++ LF :: b)).
Proof.
  intros Ha Hb.
  destruct (re_split_articles_app (a ++ [LF]) b) with (bol := true)
    as (pa & pb & Hsplit & _ & Hpa & Hpb).
  { by apply lookahead_heading_at. }
  { intros a' c E. apply app_inj_tail in E as [_ <-]. done. }
  { by destruct a. }
  rewrite <- app_assoc in Hsplit. simpl in Hsplit.
  unfold article_spans. rewrite Hsplit, List.filter_app, map_app, length_app.
  rewrite !length_map.
  assert (H1 : List.filter (fun p => truthy p && truthy (strip p)) pa <> []).
  { intros E%filter_blank_spaces. rewrite Hpa in E.
    apply Forall_app in E as [E _]. by apply Ha, spaces_strip_nil. }
  assert (H2 : List.filter (fun p => truthy p && truthy (strip p)) pb <> []).
  { intros E%filter_blank_spaces. rewrite Hpb in E.
    by apply (heading_at_not_blank b). }
  destruct (List.filter _ pa); [done|]. destruct (List.filter _ pb); [done|].
  simpl. lia.
Qed.

Lemma article_spans_nonempty (text : str) :
  Forall (fun p => p <> [] /\ strip p = p) (article_spans is_digit text).
Proof.
  unfold article_spans. apply Forall_forall. intros p.
  rewrite list_elem_of_In, List.in_map_iff. intros (q & <- & Hq).
  apply List.filter_In in Hq as [_ Hq]. apply andb_true_iff in Hq as [_ Hq].
  split; [by destruct (strip q)|apply strip_idemp].
Qed.

End SegmenterFacts.

(** C8: the spans are those of the specification: the text cut at the
    line starts where an article heading lies ahead (whitespace if any,
    one of the two heading words, whitespace, a number), in the order of
    the text, each piece trimmed and the blank ones left out; a heading
    at a line start after a line of text makes at least two of them.
    [split_by_articles] returns that ordered list exactly when it has at
    least two spans, and the no-split signal [None] otherwise; on [None]
    (and when article splitting is not asked for), [chunk_document] is
    the paragraph chunker on the whole document; on a list of spans, it
    is the chunker applied span by span in article order, a span not
    exceeding the maximum being emitted as one chunk as it is (so that
    when every span fits, the chunks are the spans). *)
Theorem split_by_articles_then_chunk (is_digit : N -> bool) (text : str) :
  exists cuts : list nat,
    StronglySorted lt cuts
    /\ (forall i, i ∈ cuts
                  <-> i < length text /\ line_start text i
                      /\ heading_at is_digit (drop i text))
    /\ let spans := spans_of (cut_at 0 cuts text) in
       (Segmenter.split_by_articles is_digit text = Some spans <-> 2 <= length spans)
       /\ (Segmenter.split_by_articles is_digit text = None <-> length spans < 2)
       /\ Forall (fun p => p <> [] /\ strip p = p) spans
       /\ (forall a b, text = a ++ LF :: b -> strip a <> [] ->
                       heading_at is_digit b -> 2 <= length spans)
       /\ forall (fuel : nat) (max_chars overlap_chars : Z),
            Segmenter.chunk_document is_digit fuel text max_chars overlap_chars false
            = Chunker.chunk_text_paragraphwise fuel text max_chars overlap_chars
            /\
            match Segmenter.split_by_articles is_digit text with
            | None =>
                Segmenter.chunk_document is_digit fuel text max_chars overlap_chars true
                = Chunker.chunk_text_paragraphwise fuel text max_chars overlap_chars
            | Some parts =>
                parts = spans
                /\ Segmenter.chunk_document is_digit fuel text max_chars
                     overlap_chars true
                   = per_span fuel parts max_chars overlap_chars
                /\ (Forall (fun p => (len p <= max_chars)%Z) parts ->
                    Segmenter.chunk_document is_digit fuel text max_chars
                      overlap_chars true
                    = Some parts)
            end.
Proof.
  exists (cut_points is_digit true 0 text).
  split; [apply cut_points_sorted|]. split.
  { intros i. rewrite elem_of_cut_points. split.
    - intros (j & -> & Hj & Hb & Hl). simpl. split; [done|].
      split; [by destruct j|]. by apply lookahead_heading_at.
    - intros (Hi & Hb & Hl). exists i. split; [done|]. split; [done|].
      split; [by destruct i|]. by apply lookahead_heading_at. }
  rewrite <- article_spans_spans_of.
  intros spans. unfold Segmenter.chunk_document, Segmenter.split_by_articles.
  fold spans.
  assert (Hsplit : forall a b, text = a ++ LF :: b -> strip a <> [] ->
                               heading_at is_digit b -> 2 <= length spans).
  { intros a b -> Ha Hb. by apply split_after_line. }
  destruct (Nat.ltb_spec 1 (length spans)) as [Hlt|Hge].
  - split; [split; [lia|done]|]. split; [split; [done|lia]|].
    split; [apply article_spans_nonempty|]. split; [exact Hsplit|].
    intros fuel max_chars overlap_chars. split; [done|]. split; [done|].
    destruct spans as [|p ps] eqn:E; [simpl in Hlt; lia|].
    rewrite chunk_parts_per_span.
    destruct (per_span fuel (p :: ps) max_chars overlap_chars) as [cs|] eqn:Ep.
    + split; [done|]. intros Hfit. rewrite per_span_all_fit in Ep by done.
      by injection Ep as <-.
    + split; [done|]. intros Hfit. by rewrite per_span_all_fit in Ep.
  - split; [split; [done|lia]|]. split; [split; [lia|done]|].
    split; [apply article_spans_nonempty|]. split; [exact Hsplit|]. done.
Qed.

(** The scenario of the specification: two article headings, hence two
    spans, each a chunk of its own when both fit. *)
Example two_articles_two_chunks :
  let text := Segmenter.AL_MADDA ++ of_string " (1)" ++ [LF]
              ++ [1606; 1589; 32; 1571; 1608; 1604]%N ++ [LF; LF]
              ++ Segmenter.AL_MADDA ++ of_string " (2)" ++ [LF]
              ++ [1606; 1589; 32; 1579; 1575; 1606]%N in
  Segmenter.chunk_document ascii_digit 10 text 6500 500 true
  = Some [Segmenter.AL_MADDA ++ of_string " (1)" ++ [LF]
            ++ [1606; 1589; 32; 1571; 1608; 1604]%N;
          Segmenter.AL_MADDA ++ of_string " (2)" ++ [LF]
            ++ [1606; 1589; 32; 1579; 1575; 1606]%N].
Proof. vm_compute. reflexivity. Qed.

(** ** Override parsing *)

Section OverridesFacts.
Import Overrides.
Variable int : str -> option Z.

Lemma contains_elem_of (c : N) (s : str) : contains c s = true <-> c ∈ s.
Proof.
  unfold contains. rewrite List.existsb_exists. split.
  - intros (x & Hx & ->%N.eqb_eq). by apply list_elem_of_In.
  - intros H. exists c. split; [by apply list_elem_of_In|apply N.eqb_refl].
Qed.

Lemma parse_parts_spec (parts : list str) :
  forall out,
    match parse_parts int parts out with
    | inr m =>
        Forall (fun p => ~ malformed int p) (strip <$> parts)
        /\ m = foldl put out (entries int (strip <$> parts))
    | inl e =>
        exists pre p post,
          strip <$> parts = pre ++ p :: post
          /\ Forall (fun p => ~ malformed int p) pre
          /\ malformed int p /\ e = error_of p
    end.
Proof.
  induction parts as [|q parts IH]; intros out.
  - split; [constructor|reflexivity].
  - cbn [parse_parts]. rewrite fmap_cons.
    destruct (strip q) as [|c r] eqn:Eq; cbn [truthy negb].
    + specialize (IH out). destruct (parse_parts int parts out) as [e|m].
      * destruct IH as (pre & p & post & -> & Hpre & Hp & ->).
        exists ([] :: pre), p, post. split; [done|]. split; [|done].
        constructor; [by intros [? _]|done].
      * destruct IH as [Hall ->]. split; [|done].
        constructor; [by intros [? _]|done].
    + unfold parse_part.
      destruct (contains EQUALS (c :: r)) eqn:Ec; cbn [negb].
      * destruct (split_once EQUALS (c :: r)) as [k v] eqn:Es.
        destruct (int (strip v)) as [n|] eqn:Ei.
        -- specialize (IH (<[strip k:=n]> out)).
           assert (Hok : ~ malformed int (c :: r)).
           { intros [_ [Hno|Hint]].
             - by apply Hno, contains_elem_of.
             - unfold value_text in Hint. rewrite Es in Hint. simpl in Hint. congruence. }
           assert (He : entry int (c :: r) = Some (strip k, n)).
           { unfold entry, key_text, value_text. rewrite Es. simpl. by rewrite Ei. }
           destruct (parse_parts int parts (<[strip k:=n]> out)) as [e|m].
           ++ destruct IH as (pre & p & post & -> & Hpre & Hp & ->).
              exists ((c :: r) :: pre), p, post. split; [done|]. split; [|done].
              by constructor.
           ++ destruct IH as [Hall ->]. split; [by constructor|].
              unfold entries. cbn [omap list_omap]. rewrite He. reflexivity.
        -- exists [], (c :: r), (strip <$> parts). split; [done|].
           split; [constructor|]. split.
           ++ split; [done|]. right. unfold value_text. by rewrite Es.
           ++ unfold error_of, value_text. by rewrite Ec, Es.
      * exists [], (c :: r), (strip <$> parts). split; [done|].
        split; [constructor|]. split.
        -- split; [done|]. left. intros H%contains_elem_of. congruence.
        -- unfold error_of. by rewrite Ec.
Qed.

Lemma foldl_put_list_to_map (es : list (list N * Z)) :
  foldl put ∅ es = list_to_map (reverse es).
Proof.
  induction es as [|kv es IH] using rev_ind; [reflexivity|].
  rewrite foldl_snoc, reverse_snoc, IH. by destruct kv.
Qed.

(** A text of whitespace only has one part, and it is blank. *)
Lemma blank_text_parts (s : str) :
  strip s = [] -> strip <$> split_on COMMA s = [[]].
Proof.
  intros H. rewrite split_on_no_sep; [by cbn; rewrite H|].
  intros Hin. apply strip_nil_spaces in H. rewrite Forall_forall in H.
  by specialize (H _ Hin).
Qed.

End OverridesFacts.

(** C9: [parse_overrides] raises exactly when some non-empty
    comma-separated part (trimmed) is not of the form [KEY=NUMBER], that
    is has no ["="] or has a value that [int] rejects; the error is that
    of the first such part and names it; otherwise the function returns
    the mapping from each key to its integer value, a later part
    overriding an earlier one with the same key; and the empty or
    all-whitespace string yields the empty mapping. *)
Theorem parse_overrides_raises_iff_malformed (int : str -> option Z) (s : str) :
  let parts := strip <$> split_on Overrides.COMMA s in
  ((exists e, Overrides.parse_overrides int s = inl e) <-> Exists (malformed int) parts)
  /\ (forall e, Overrides.parse_overrides int s = inl e ->
        exists pre p post,
          parts = pre ++ p :: post
          /\ Forall (fun p => ~ malformed int p) pre
          /\ malformed int p /\ e = error_of p)
  /\ (Forall (fun p => ~ malformed int p) parts ->
      Overrides.parse_overrides int s = inr (list_to_map (reverse (entries int parts))))
  /\ (strip s = [] -> Overrides.parse_overrides int s = inr ∅).
Proof.
  intros parts. unfold Overrides.parse_overrides.
  destruct (strip s) as [|c r] eqn:Es; cbn.
  - assert (Hp : parts = [[]]) by (by apply blank_text_parts).
    rewrite Hp. split_and!.
    + split; [by intros [e ?]|].
      intros [[H _]|H%Exists_nil]%Exists_cons; done.
    + done.
    + done.
    + done.
  - pose proof (parse_parts_spec int (split_on Overrides.COMMA s) ∅) as Hspec.
    fold parts in Hspec.
    destruct (Overrides.parse_parts int (split_on Overrides.COMMA s) ∅) as [e|m].
    + destruct Hspec as (pre & p & post & Hparts & Hpre & Hp & ->).
      split_and!.
      * split; [intros _|by eauto].
        rewrite Hparts. apply Exists_app. right. by constructor.
      * intros e [= <-]. by exists pre, p, post.
      * intros Hall. rewrite Hparts, Forall_app, Forall_cons in Hall.
        by destruct Hall as (_ & ? & _).
      * done.
    + destruct Hspec as [Hall ->]. split_and!.
      * split; [by intros [e ?]|].
        intros Hex. by apply (Forall_not_Exists _ _ Hall) in Hex.
      * done.
      * intros _. by rewrite foldl_put_list_to_map.
      * done.
Qed.

(** The default of [--min_chars_overrides], and two malformed strings. *)
Example parse_overrides_default :
  Overrides.parse_overrides ascii_int (of_string "AD=300,RD=200,FATWA=500")
  = inr (list_to_map [(of_string "FATWA", 500%Z); (of_string "RD", 200%Z);
                      (of_string "AD", 300%Z)]).
Proof. vm_compute. reflexivity. Qed.

Example parse_overrides_no_equals :
  Overrides.parse_overrides ascii_int (of_string "AD=300, RD")
  = inl (Overrides.BadOverride (of_string "RD")).
Proof. vm_compute. reflexivity. Qed.

Example parse_overrides_not_a_number :
  Overrides.parse_overrides ascii_int (of_string "AD=3.5")
  = inl (Overrides.InvalidLiteral (of_string "3.5")).
Proof. vm_compute. reflexivity. Qed.

(** ** Content sufficiency filter *)

Section FilterFacts.
Import Filter.

Lemma sub_whitespace_app (a b : str) :
  sub_whitespace (a ++ b) = sub_whitespace a ++ sub_whitespace b.
Proof.
  induction a as [|c a IH]; [reflexivity|]. simpl.
  destruct (isspace c); simpl; by rewrite IH.
Qed.

Lemma sub_whitespace_spaces (s : str) :
  Forall (fun c => isspace c = true) s -> sub_whitespace s = [].
Proof. induction 1 as [|c s Hc _ IH]; [reflexivity|]. simpl. by rewrite Hc. Qed.

Lemma sub_whitespace_lstrip (s : str) : sub_whitespace (lstrip s) = sub_whitespace s.
Proof.
  induction s as [|c r IH]; [reflexivity|]. simpl.
  destruct (isspace c) eqn:E; [exact IH|]. simpl. by rewrite E.
Qed.

Lemma sub_whitespace_rstrip (s : str) : sub_whitespace (rstrip s) = sub_whitespace s.
Proof.
  induction s as [|c r IH]; [reflexivity|]. simpl.
  destruct (rstrip r) as [|d r'] eqn:E.
  - rewrite <- IH. simpl. destruct (isspace c) eqn:Ec; simpl; by rewrite ?Ec.
  - change (sub_whitespace (c :: d :: r'))
      with (if isspace c then sub_whitespace (d :: r') else c :: sub_whitespace (d :: r')).
    by rewrite IH.
Qed.

Lemma sub_whitespace_strip (s : str) : sub_whitespace (strip s) = sub_whitespace s.
Proof. unfold strip. by rewrite sub_whitespace_rstrip, sub_whitespace_lstrip. Qed.

Lemma sub_whitespace_remove_char (c : N) (s : str) :
  sub_whitespace (remove_char c s) = remove_char c (sub_whitespace s).
Proof.
  unfold remove_char. induction s as [|d s IH]; [reflexivity|]. simpl.
  destruct (d =? c)%N eqn:E, (isspace d) eqn:Es; simpl; rewrite ?E, ?Es, IH; reflexivity.
Qed.

Lemma sub_whitespace_cons (c : N) (s : str) :
  sub_whitespace (c :: s)
  = if isspace c then sub_whitespace s else c :: sub_whitespace s.
Proof. reflexivity. Qed.

Lemma replace_crlf_cons2 (c d : N) (r : str) :
  replace_crlf (c :: d :: r)
  = if (c =? CR)%N && (d =? LF)%N then LF :: replace_crlf r
    else c :: replace_crlf (d :: r).
Proof. reflexivity. Qed.

Lemma sub_whitespace_replace_crlf (s : str) :
  sub_whitespace (replace_crlf s) = sub_whitespace s.
Proof.
  induction s as [s IH] using (induction_ltof1 _ (@length N)). unfold ltof in IH.
  destruct s as [|c [|d r]]; [reflexivity|reflexivity|].
  rewrite replace_crlf_cons2.
  destruct (N.eqb_spec c CR) as [->|Hc]; cbn [andb].
  - destruct (N.eqb_spec d LF) as [->|Hd].
    + rewrite !sub_whitespace_cons.
      change (isspace LF) with true. change (isspace CR) with true. cbv iota.
      apply IH. simpl. lia.
    + rewrite (sub_whitespace_cons CR), (sub_whitespace_cons CR (d :: r)).
      change (isspace CR) with true. cbv iota.
      apply IH. simpl. lia.
  - rewrite (sub_whitespace_cons c), (sub_whitespace_cons c (d :: r)).
    rewrite (IH (d :: r)) by (simpl; lia). reflexivity.
Qed.

Lemma sub_whitespace_replace_cr (s : str) :
  sub_whitespace (replace_char CR LF s) = sub_whitespace s.
Proof.
  unfold replace_char. induction s as [|c s IH]; [reflexivity|]. cbn [map].
  destruct (N.eqb_spec c CR) as [->|_]; [exact IH|].
  simpl. by rewrite IH.
Qed.

Lemma is_hspace_isspace (c : N) : Normalizer.is_hspace c = true -> isspace c = true.
Proof.
  unfold Normalizer.is_hspace.
  intros [->%N.eqb_eq| ->%N.eqb_eq]%orb_true_iff; reflexivity.
Qed.

Lemma sub_whitespace_collapse_hspace (b : bool) (s : str) :
  sub_whitespace (Normalizer.collapse_hspace b s) = sub_whitespace s.
Proof.
  revert b. induction s as [|c s IH]; intros b; [reflexivity|]. simpl.
  destruct (Normalizer.is_hspace c) eqn:E.
  - rewrite (is_hspace_isspace c E). destruct b; simpl; apply IH.
  - simpl. by rewrite IH.
Qed.

Lemma sub_whitespace_flush_lf (n : nat) : sub_whitespace (Normalizer.flush_lf n) = [].
Proof.
  apply sub_whitespace_spaces, Forall_forall.
  by intros x ->%elem_of_flush_lf.
Qed.

Lemma sub_whitespace_collapse_lf (n : nat) (s : str) :
  sub_whitespace (Normalizer.collapse_lf n s) = sub_whitespace s.
Proof.
  revert n. induction s as [|c s IH]; intros n; simpl.
  - apply sub_whitespace_flush_lf.
  - unfold Normalizer.is_lf. destruct (N.eqb_spec c LF) as [->|Hc].
    + simpl. apply IH.
    + rewrite sub_whitespace_app, sub_whitespace_flush_lf. simpl. by rewrite IH.
Qed.

Lemma sub_whitespace_join (ls : list str) :
  sub_whitespace (join LF ls) = concat (sub_whitespace <$> ls).
Proof.
  induction ls as [|l ls IH]; [reflexivity|].
  destruct ls as [|l1 ls].
  - simpl. by rewrite app_nil_r.
  - rewrite join_cons2, sub_whitespace_app.
    change (sub_whitespace (LF :: join LF (l1 :: ls)))
      with (sub_whitespace (join LF (l1 :: ls))).
    by rewrite IH.
Qed.

Lemma filter_useful_char (s : str) :
  remove_char LRM (remove_char RLM (remove_char BOM (sub_whitespace s)))
  = List.filter useful_char s.
Proof.
  unfold remove_char, useful_char. induction s as [|c s IH]; [reflexivity|]. simpl.
  destruct (isspace c); simpl; [exact IH|].
  destruct (c =? BOM)%N; simpl; [exact IH|].
  destruct (c =? RLM)%N; simpl; [exact IH|].
  destruct (c =? LRM)%N; simpl; [exact IH|]. by rewrite IH.
Qed.

Lemma sub_whitespace_normalize (raw : str) :
  sub_whitespace (Normalizer.normalize_newlines raw) = List.filter useful_char raw.
Proof.
  unfold Normalizer.normalize_newlines.
  rewrite sub_whitespace_strip, sub_whitespace_collapse_lf,
    sub_whitespace_collapse_hspace, !sub_whitespace_remove_char,
    sub_whitespace_replace_cr, sub_whitespace_replace_crlf,
    sub_whitespace_remove_char.
  apply filter_useful_char.
Qed.

End FilterFacts.

(** X1: the sufficiency filter, applied as [main] applies it to the
    normalizer's output, counts exactly the characters of the raw text
    that are neither whitespace nor a byte-order or directional mark: its
    answer does not depend on how the text is laid out in lines and
    spaces. *)
Theorem has_useful_content_after_normalize (raw : str) (min_chars : Z) :
  Filter.sub_whitespace (Normalizer.normalize_newlines raw)
  = List.filter useful_char raw
  /\ Filter.has_useful_content (Normalizer.normalize_newlines raw) min_chars
     = (len (List.filter useful_char raw) >=? min_chars)%Z.
Proof.
  pose proof (sub_whitespace_normalize raw) as H.
  split; [exact H|]. unfold Filter.has_useful_content. by rewrite H.
Qed.

(** X2: the stripper takes no useful character out of the body: the
    non-whitespace characters of the cleaned text are those of the input
    with the characters of the removed head lines taken off the front.
    So a text that passes the sufficiency filter after stripping would
    have passed it before. *)
Theorem strip_leading_download_lines_keeps_body (lower : str -> str)
    (text : str) (min_chars : Z) :
  exists (cleaned : str) (n : nat),
    Stripper.strip_leading_download_lines lower text = Some (cleaned, n)
    /\ Filter.sub_whitespace text
       = concat (Filter.sub_whitespace <$> take n (split_on LF text))
         ++ Filter.sub_whitespace cleaned
    /\ (Filter.has_useful_content cleaned min_chars = true ->
        Filter.has_useful_content text min_chars = true).
Proof.
  destruct (strip_leading_download_lines_spec lower text)
    as (ls & n & Hr & (pre & Hl & Hpre & Hn) & Hc).
  simpl in Hn. subst n.
  exists (strip (join LF ls)), (length pre). split; [exact Hr|].
  assert (H : Filter.sub_whitespace text
              = concat (Filter.sub_whitespace <$> take (length pre) (split_on LF text))
                ++ Filter.sub_whitespace (strip (join LF ls))).
  { rewrite <- (join_split_on LF text) at 1.
    rewrite sub_whitespace_join, Hl, take_app_length, fmap_app, concat_app.
    by rewrite sub_whitespace_strip, sub_whitespace_join. }
  split; [exact H|].
  unfold Filter.has_useful_content. rewrite H. unfold len.
  rewrite length_app. intros Hge%Z.geb_le. apply Z.geb_le. lia.
Qed.

(** ** Fixed points of the two normalizers *)

Section NormalFormFacts.

Lemma remove_char_id (c : N) (s : str) : c ∉ s -> remove_char c s = s.
Proof.
  unfold remove_char. induction s as [|d s IH]; [reflexivity|].
  intros [Hd Hs]%not_elem_of_cons. simpl.
  destruct (N.eqb_spec d c) as [->|_]; [done|]. simpl. by rewrite IH.
Qed.

Lemma replace_char_id (c d : N) (s : str) : c ∉ s -> replace_char c d s = s.
Proof.
  unfold replace_char. induction s as [|x s IH]; [reflexivity|].
  intros [Hx Hs]%not_elem_of_cons. simpl.
  destruct (N.eqb_spec x c) as [->|_]; [done|]. by rewrite IH.
Qed.

Lemma replace_crlf_id (s : str) : CR ∉ s -> replace_crlf s = s.
Proof.
  induction s as [|c r IH]; [reflexivity|].
  intros [Hc Hr]%not_elem_of_cons. destruct r as [|d r']; [reflexivity|].
  rewrite replace_crlf_cons2.
  destruct (N.eqb_spec c CR) as [->|_]; [done|]. cbn [andb]. by rewrite IH.
Qed.

Lemma collapse_hspace_id (in_run : bool) (s : str) :
  (in_run = true -> run_from Normalizer.is_hspace s = 0) ->
  TAB ∉ s -> max_run Normalizer.is_hspace s <= 1 ->
  Normalizer.collapse_hspace in_run s = s.
Proof.
  revert in_run. induction s as [|c r IH]; intros b Hb; [reflexivity|].
  intros [Hc Hr]%not_elem_of_cons Hm.
  change (max_run Normalizer.is_hspace (c :: r))
    with (Nat.max (run_from Normalizer.is_hspace (c :: r))
                  (max_run Normalizer.is_hspace r)) in Hm.
  simpl in *. destruct (Normalizer.is_hspace c) eqn:E.
  - destruct b; [specialize (Hb eq_refl); lia|].
    unfold Normalizer.is_hspace in E.
    apply orb_true_iff in E as [->%N.eqb_eq| ->%N.eqb_eq]; [|done].
    f_equal. apply IH; [lia|done|lia].
  - f_equal. apply IH; [done|done|lia].
Qed.

Lemma flush_lf_small (n : nat) : n <= 2 -> Normalizer.flush_lf n = replicate n LF.
Proof.
  intros Hn. unfold Normalizer.flush_lf.
  destruct (Nat.leb_spec 3 n); [lia|reflexivity].
Qed.

Lemma run_from_le_max_run {A} (P : A -> bool) (s : list A) :
  run_from P s <= max_run P s.
Proof. destruct s; simpl; lia. Qed.

Lemma collapse_lf_id (n : nat) (s : str) :
  n + run_from Normalizer.is_lf s <= 2 -> max_run Normalizer.is_lf s <= 2 ->
  Normalizer.collapse_lf n s = replicate n LF ++ s.
Proof.
  revert n. induction s as [|c r IH]; intros n Hn Hm.
  - simpl in *. rewrite app_nil_r. apply flush_lf_small. lia.
  - change (max_run Normalizer.is_lf (c :: r))
      with (Nat.max (run_from Normalizer.is_lf (c :: r))
                    (max_run Normalizer.is_lf r)) in Hm.
    simpl in *. unfold Normalizer.is_lf in *.
    destruct (N.eqb_spec c LF) as [->|Hc].
    + rewrite IH by lia. change (LF :: r) with ([LF] ++ r).
      rewrite (app_assoc _ [LF]). f_equal.
      clear. induction n as [|n IHn]; [reflexivity|]. simpl. f_equal. exact IHn.
    + pose proof (run_from_le_max_run (fun c => (c =? LF)%N) r).
      rewrite flush_lf_small by lia. rewrite (IH 0) by (simpl; lia). reflexivity.
Qed.

Lemma normal_form_fixed (s : str) :
  normal_form s -> Normalizer.normalize_newlines s = s.
Proof.
  intros (Hb & Hl & Hr & Hc & Ht & Hh & Hn & Hs).
  unfold Normalizer.normalize_newlines.
  rewrite (remove_char_id BOM) by done.
  rewrite replace_crlf_id, replace_char_id by done.
  rewrite (remove_char_id RLM), (remove_char_id LRM) by done.
  rewrite collapse_hspace_id by done.
  pose proof (run_from_le_max_run Normalizer.is_lf s).
  rewrite collapse_lf_id by (simpl; lia). exact Hs.
Qed.

Lemma normalize_newlines_normal_form (text : str) :
  normal_form (Normalizer.normalize_newlines text).
Proof.
  unfold normal_form, Normalizer.normalize_newlines.
  set (t1 := remove_char BOM text).
  set (t2 := replace_char CR LF (replace_crlf t1)).
  set (t3 := remove_char LRM (remove_char RLM t2)).
  set (t4 := Normalizer.collapse_hspace false t3).
  set (t5 := Normalizer.collapse_lf 0 t4).
  assert (H3 : forall x, x ∈ t3 -> x ∈ t2 /\ x <> LRM /\ x <> RLM).
  { intros x [[? ?]%elem_of_remove_char ?]%elem_of_remove_char. auto. }
  assert (H2 : forall x, x ∈ t2 -> x <> CR /\ (x ∈ t1 \/ x = LF)).
  { intros x [[Hx ?]| ->]%elem_of_replace_char; [|split; [done|by right]].
    split; [done|]. by apply elem_of_replace_crlf. }
  assert (H1 : forall x, x ∈ t1 -> x <> BOM).
  { by intros x [_ ?]%elem_of_remove_char. }
  assert (Hout : forall x, x ∈ strip t5 ->
            (x ∈ t3 /\ Normalizer.is_hspace x = false) \/ x = SPACE \/ x = LF).
  { intros x Hx%elem_of_strip.
    apply elem_of_collapse_lf in Hx as [Hx| ->]; [|auto].
    apply elem_of_collapse_hspace in Hx as [?| ->]; auto. }
  split_and!.
  - intros Hx. destruct (Hout _ Hx) as [[Ht3 _]|[E|E]]; try discriminate E.
    destruct (H3 _ Ht3) as (Ht2 & _ & _).
    destruct (H2 _ Ht2) as (_ & [Ht1|E]); [|discriminate E]. by apply (H1 _ Ht1).
  - intros Hx. destruct (Hout _ Hx) as [[Ht3 _]|[E|E]]; try discriminate E.
    by destruct (H3 _ Ht3) as (_ & ? & _).
  - intros Hx. destruct (Hout _ Hx) as [[Ht3 _]|[E|E]]; try discriminate E.
    by destruct (H3 _ Ht3) as (_ & _ & ?).
  - intros Hx. destruct (Hout _ Hx) as [[Ht3 _]|[E|E]]; try discriminate E.
    destruct (H3 _ Ht3) as (Ht2 & _ & _). by destruct (H2 _ Ht2) as (? & _).
  - intros Hx. destruct (Hout _ Hx) as [[_ E]|[E|E]]; discriminate E.
  - etrans; [apply max_run_strip|].
    etrans; [apply (runs_collapse_lf Normalizer.is_hspace t4 eq_refl 0)|].
    apply max_run_collapse_hspace.
  - etrans; [apply max_run_strip|]. apply max_run_collapse_lf.
  - apply strip_idemp.
Qed.

Lemma mark_free_fixed (s : str) : mark_free s -> Cleaner.normalize_newlines s = s.
Proof.
  intros (Hb & Hc & Hl & Hr). unfold Cleaner.normalize_newlines.
  rewrite (remove_char_id BOM) by done.
  rewrite replace_crlf_id, replace_char_id by done.
  by rewrite (remove_char_id RLM), (remove_char_id LRM).
Qed.

Lemma cleaner_normalize_newlines_mark_free (text : str) :
  mark_free (Cleaner.normalize_newlines text).
Proof.
  unfold mark_free, Cleaner.normalize_newlines.
  set (t1 := remove_char BOM text).
  set (t2 := replace_char CR LF (replace_crlf t1)).
  assert (H2 : forall x, x ∈ t2 -> x <> CR /\ (x ∈ t1 \/ x = LF)).
  { intros x [[Hx ?]| ->]%elem_of_replace_char; [|split; [done|by right]].
    split; [done|]. by apply elem_of_replace_crlf. }
  assert (H1 : forall x, x ∈ t1 -> x <> BOM).
  { by intros x [_ ?]%elem_of_remove_char. }
  split_and!.
  - intros [[Hx _]%elem_of_remove_char _]%elem_of_remove_char.
    destruct (H2 _ Hx) as (_ & [Ht1|E]); [|discriminate E]. by apply (H1 _ Ht1).
  - intros [[Hx _]%elem_of_remove_char _]%elem_of_remove_char.
    by destruct (H2 _ Hx) as (? & _).
  - by intros [_ ?]%elem_of_remove_char.
  - by intros [[_ ?]%elem_of_remove_char _]%elem_of_remove_char.
Qed.

End NormalFormFacts.

(** X3: the normalizer of [prepare_axolotl_cpt.py] is idempotent, and the
    texts it returns unchanged are exactly those in normal form: no
    byte-order mark, directional mark, carriage return or tab, no two
    consecutive spaces, no three consecutive line feeds, no whitespace at
    either end. *)
Theorem normalize_newlines_fixed_points (text : str) :
  Normalizer.normalize_newlines (Normalizer.normalize_newlines text)
  = Normalizer.normalize_newlines text
  /\ (Normalizer.normalize_newlines text = text <-> normal_form text).
Proof.
  split; [apply normal_form_fixed, normalize_newlines_normal_form|].
  split; [|apply normal_form_fixed].
  intros H. rewrite <- H. apply normalize_newlines_normal_form.
Qed.

(** X4: the normalizer of [clean_qnoon_collection.py] returns a text with
    no byte-order mark, carriage return or directional mark; it is
    idempotent, and it returns unchanged exactly the texts that hold none
    of these characters (whitespace and blank lines are left alone). *)
Theorem cleaner_normalize_newlines_fixed_points (text : str) :
  mark_free (Cleaner.normalize_newlines text)
  /\ Cleaner.normalize_newlines (Cleaner.normalize_newlines text)
     = Cleaner.normalize_newlines text
  /\ (Cleaner.normalize_newlines text = text <-> mark_free text).
Proof.
  split; [apply cleaner_normalize_newlines_mark_free|].
  split; [apply mark_free_fixed, cleaner_normalize_newlines_mark_free|].
  split; [|apply mark_free_fixed].
  intros H. rewrite <- H. apply cleaner_normalize_newlines_mark_free.
Qed.

(** ** What the chunks hold *)

Section CoverFacts.
Import Filter Chunker.

Variables (max_chars overlap_chars : Z).

Lemma covers_refl (a : str) : covers overlap_chars a a.
Proof. unfold covers. by destruct (overlap_chars >? 0)%Z. Qed.

Lemma covers_trans (a b c : str) :
  covers overlap_chars a b -> covers overlap_chars b c -> covers overlap_chars a c.
Proof.
  unfold covers. destruct (overlap_chars >? 0)%Z; [|congruence].
  intros; by etrans.
Qed.

Lemma covers_app (a b c d : str) :
  covers overlap_chars a b -> covers overlap_chars c d ->
  covers overlap_chars (a ++ c) (b ++ d).
Proof.
  unfold covers. destruct (overlap_chars >? 0)%Z; [|congruence].
  apply sublist_app.
Qed.

Lemma covers_insert (t a : str) :
  ((overlap_chars >? 0)%Z = false -> t = []) -> covers overlap_chars a (t ++ a).
Proof.
  unfold covers. destruct (overlap_chars >? 0)%Z.
  - intros _. by apply sublist_inserts_l.
  - intros ->; done.
Qed.

Lemma slice_window (c : str) (i j : Z) :
  (0 <= i < j)%Z -> (j <= len c)%Z ->
  slice c i j = take (Z.to_nat (j - i)) (drop (Z.to_nat i) c).
Proof.
  intros Hij Hj. unfold slice, clamp_index.
  destruct (Z.ltb_spec i 0) as [?|_]; [lia|].
  destruct (Z.ltb_spec j 0) as [?|_]; [lia|].
  rewrite !Z.min_l by lia.
  destruct (Z.ltb_spec i j) as [_|?]; [reflexivity|lia].
Qed.

Lemma sub_whitespace_drop_suffix (c : str) (i j : nat) :
  i <= j ->
  sub_whitespace (drop i c)
  = sub_whitespace (take (j - i) (drop i c)) ++ sub_whitespace (drop j c).
Proof.
  intros Hij. rewrite <- sub_whitespace_app. f_equal.
  rewrite <- (take_drop (j - i) (drop i c)) at 1. f_equal.
  rewrite drop_drop. f_equal. lia.
Qed.

(** The windows of the hard split are trimmed and account for the chunk
    from the first window's start onwards. *)
Lemma hard_split_windows (c : str) (fuel : nat) :
  (0 < max_chars)%Z -> (0 <= overlap_chars < max_chars)%Z ->
  forall start hardened h,
    (0 <= start <= len c)%Z ->
    hard_split fuel c max_chars overlap_chars start hardened = Some h ->
    exists ws, h = hardened ++ ws
      /\ Forall (fun w => strip w = w) ws
      /\ covers overlap_chars (sub_whitespace (drop (Z.to_nat start) c))
           (sub_whitespace (concat ws)).
Proof.
  intros HM HO. induction fuel as [|fuel IH]; intros start hardened h Hs; simpl;
    [discriminate|].
  destruct (Z.ltb_spec start (len c)) as [Hlt|Hge].
  - set (end_ := Z.min (start + max_chars) (len c)).
    set (w := strip (slice c start end_)).
    assert (Hw : sub_whitespace w
                 = sub_whitespace (take (Z.to_nat end_ - Z.to_nat start)
                                     (drop (Z.to_nat start) c))).
    { unfold w. rewrite sub_whitespace_strip, slice_window by lia.
      do 2 f_equal. lia. }
    destruct (Z.geb_spec end_ (len c)) as [Hend|Hend].
    + intros [= <-]. exists [w]. split; [done|]. split.
      { constructor; [apply strip_idemp|constructor]. }
      simpl. rewrite app_nil_r, Hw, take_ge; [apply covers_refl|].
      rewrite length_drop. unfold len in *. lia.
    + intros Hr. apply IH in Hr as (ws & -> & Hws & Hc); [|lia].
      exists (w :: ws). split; [by rewrite <- app_assoc|]. split.
      { constructor; [apply strip_idemp|done]. }
      simpl. rewrite sub_whitespace_app, Hw.
      rewrite (sub_whitespace_drop_suffix c (Z.to_nat start) (Z.to_nat end_)) by lia.
      apply covers_app; [apply covers_refl|].
      eapply covers_trans; [|exact Hc].
      set (start' := Z.max 0 (end_ - overlap_chars)).
      rewrite (sub_whitespace_drop_suffix c (Z.to_nat start') (Z.to_nat end_)) by lia.
      apply covers_insert. intros HO0.
      assert (overlap_chars = 0)%Z by (destruct (Z.gtb_spec overlap_chars 0); [done|lia]).
      replace (Z.to_nat end_ - Z.to_nat start') with 0 by lia. reflexivity.
  - intros [= <-]. exists []. split; [by rewrite app_nil_r|]. split; [constructor|].
    rewrite drop_ge by (unfold len in *; lia). apply covers_refl.
Qed.

Lemma harden_windows (fuel : nat) (chunks : list str) :
  (0 < max_chars)%Z -> (0 <= overlap_chars < max_chars)%Z ->
  Forall (fun c => strip c = c) chunks ->
  forall hardened h,
    harden fuel chunks max_chars overlap_chars hardened = Some h ->
    exists ws, h = hardened ++ ws
      /\ Forall (fun w => strip w = w) ws
      /\ covers overlap_chars (sub_whitespace (concat chunks))
           (sub_whitespace (concat ws)).
Proof.
  intros HM HO. induction 1 as [|c cs Hc Hcs IH]; intros hardened h; simpl.
  - intros [= <-]. exists []. split; [by rewrite app_nil_r|]. split; [constructor|].
    apply covers_refl.
  - destruct (len c <=? max_chars)%Z.
    + intros (ws & -> & Hws & Hcov)%IH. exists (c :: ws).
      split; [by rewrite <- app_assoc|]. split; [by constructor|].
      simpl. rewrite !sub_whitespace_app. apply covers_app; [apply covers_refl|done].
    + destruct (hard_split fuel c max_chars overlap_chars 0 hardened) as [h'|] eqn:E;
        [|discriminate].
      apply hard_split_windows in E as (ws1 & -> & Hws1 & Hc1);
        [|done|done|pose proof (len_nonneg c); lia].
      intros (ws & -> & Hws & Hcov)%IH. exists (ws1 ++ ws).
      split; [by rewrite <- app_assoc|]. split; [by apply Forall_app|].
      rewrite concat_app, !sub_whitespace_app. by apply covers_app.
Qed.

(** The accumulating loop, from any state. *)
Lemma accumulate_from (paras : list str) :
  forall (chunks : list str) (buf : str) (x : str),
    Forall (fun c => strip c = c) chunks ->
    covers overlap_chars x (sub_whitespace (concat chunks ++ buf)) ->
    let st := foldl (para_step max_chars overlap_chars) (chunks, buf) paras in
    Forall (fun c => strip c = c) st.1
    /\ covers overlap_chars (x ++ sub_whitespace (concat paras))
         (sub_whitespace (concat st.1 ++ st.2)).
Proof.
  induction paras as [|p ps IH]; intros chunks buf x Hch Hx; simpl.
  - split; [done|]. by rewrite app_nil_r.
  - rewrite sub_whitespace_app, app_assoc.
    unfold para_step at 2. destruct (negb (truthy buf)) eqn:Eb.
    { apply IH; [done|]. destruct buf; [|done]. rewrite app_nil_r in Hx.
      rewrite sub_whitespace_app. apply covers_app; [done|apply covers_refl]. }
    destruct (len buf + len p + 2 <=? max_chars)%Z.
    { apply IH; [done|]. rewrite !sub_whitespace_app in *.
      change (sub_whitespace ([LF; LF] ++ p)) with (sub_whitespace p).
      rewrite app_assoc. apply covers_app; [done|apply covers_refl]. }
    apply IH.
    + apply Forall_app. split; [done|]. constructor; [apply strip_idemp|constructor].
    + rewrite concat_app. simpl. rewrite app_nil_r.
      rewrite !sub_whitespace_app, !sub_whitespace_strip, sub_whitespace_app in *.
      change (sub_whitespace (LF :: LF :: p)) with (sub_whitespace p).
      apply covers_app; [done|]. apply covers_insert.
      by intros ->.
Qed.

Lemma accumulate_chunks (paras : list str) :
  Forall (fun c => strip c = c) (accumulate paras max_chars overlap_chars)
  /\ covers overlap_chars (sub_whitespace (concat paras))
       (sub_whitespace (concat (accumulate paras max_chars overlap_chars))).
Proof.
  unfold accumulate.
  destruct (accumulate_from paras [] [] [] ltac:(constructor) ltac:(apply covers_refl))
    as [Ht Hc].
  destruct (foldl _ _ paras) as [chunks buf]. simpl in *.
  destruct buf as [|b buf]; simpl.
  - by rewrite app_nil_r in Hc.
  - split.
    + apply Forall_app. split; [done|]. constructor; [apply strip_idemp|constructor].
    + rewrite concat_app. simpl. rewrite app_nil_r.
      rewrite !sub_whitespace_app, sub_whitespace_strip in *. exact Hc.
Qed.

Lemma sep_tail_spaces (rest : str) (k : nat) :
  sep_tail rest = Some k -> Forall (fun c => isspace c = true) (take k rest).
Proof.
  revert k. induction rest as [|c r IH]; intros k; simpl; [discriminate|].
  destruct (isspace c) eqn:Ec; [|discriminate].
  destruct (sep_tail r) as [k'|].
  - intros [= <-]. simpl. constructor; [done|]. by apply IH.
  - destruct (c =? LF)%N; [|discriminate]. intros [= <-]. simpl.
    constructor; [done|]. rewrite take_0. constructor.
Qed.

Lemma re_split_blank_content (s : str) :
  forall skip, Forall (fun c => isspace c = true) (take skip s) ->
    sub_whitespace (concat (re_split_blank skip s)) = sub_whitespace s.
Proof.
  induction s as [|c r IH]; intros skip Hk; [reflexivity|].
  destruct skip as [|k]; simpl.
  - destruct (N.eqb_spec c LF) as [->|Hc].
    + destruct (sep_tail r) as [k|] eqn:E.
      * simpl. apply IH. by apply sep_tail_spaces.
      * rewrite concat_cons_head. simpl. apply IH. rewrite take_0. constructor.
    + rewrite concat_cons_head. simpl. rewrite IH; [done|]. rewrite take_0. constructor.
  - simpl in Hk. apply Forall_cons in Hk as [Hc Hk]. rewrite Hc. by apply IH.
Qed.

Lemma sub_whitespace_strip_nil (p : str) : strip p = [] -> sub_whitespace p = [].
Proof. intros H. by rewrite <- sub_whitespace_strip, H. Qed.

Lemma paragraphs_content (text : str) :
  sub_whitespace (concat (paragraphs text)) = sub_whitespace text.
Proof.
  unfold paragraphs.
  rewrite <- (re_split_blank_content text 0) by (rewrite take_0; constructor).
  induction (re_split_blank 0 text) as [|p ps IH]; [reflexivity|].
  cbn [List.filter concat]. rewrite sub_whitespace_app.
  destruct (truthy (strip p)) eqn:E.
  - cbn [map concat]. by rewrite sub_whitespace_app, IH, sub_whitespace_strip.
  - rewrite IH, (sub_whitespace_strip_nil p); [done|]. by destruct (strip p).
Qed.

Lemma paragraphs_trimmed (text : str) :
  Forall (fun p => p <> [] /\ strip p = p) (paragraphs text).
Proof.
  unfold paragraphs. apply Forall_forall. intros p.
  rewrite list_elem_of_In, List.in_map_iff. intros (q & <- & Hq).
  apply List.filter_In in Hq as [_ Hq].
  split; [by destruct (strip q)|apply strip_idemp].
Qed.

Lemma concat_filter_truthy (l : list str) : concat (List.filter truthy l) = concat l.
Proof.
  induction l as [|c l IH]; [reflexivity|]. simpl.
  destruct c; simpl; by rewrite IH.
Qed.

Lemma Forall_filter_truthy (P : str -> Prop) (l : list str) :
  Forall P l -> Forall (fun c => P c /\ c <> []) (List.filter truthy l).
Proof.
  induction 1 as [|c l Hc _ IH]; simpl; [constructor|].
  destruct c; simpl; [done|]. by constructor.
Qed.

(** The paragraph chunker, all facts together. *)
Lemma chunk_text_paragraphwise_spec (text : str) :
  (0 < max_chars)%Z -> (0 <= overlap_chars < max_chars)%Z ->
  exists (fuel0 : nat) (chunks : list str),
    (forall fuel, fuel0 <= fuel ->
       chunk_text_paragraphwise fuel text max_chars overlap_chars = Some chunks)
    /\ Forall (well_formed max_chars) chunks
    /\ covers overlap_chars (sub_whitespace text) (sub_whitespace (concat chunks)).
Proof.
  intros HM HO. unfold chunk_text_paragraphwise.
  set (cs := accumulate (paragraphs text) max_chars overlap_chars).
  destruct (accumulate_chunks (paragraphs text)) as [Hcs Hcov]. fold cs in Hcs, Hcov.
  destruct (harden_terminates max_chars overlap_chars (S (longest cs)) cs HM
              ltac:(lia) ltac:(lia) []) as [h Hh].
  exists (S (longest cs)), (List.filter truthy h). split.
  { intros fuel Hf.
    by rewrite (harden_mono max_chars overlap_chars _ fuel cs Hf _ _ Hh). }
  pose proof (harden_fits max_chars overlap_chars _ _ HM [] h ltac:(constructor) Hh)
    as Hfit.
  destruct (harden_windows _ cs HM HO Hcs [] h Hh) as (ws & -> & Hws & Hc).
  simpl in *. split.
  - assert (H : Forall (fun c => fits max_chars c /\ strip c = c) ws).
    { apply Forall_forall. intros c Hc'. split.
      - by eapply (proj1 (Forall_forall _ _) Hfit).
      - by eapply (proj1 (Forall_forall _ _) Hws). }
    eapply Forall_impl; [apply (Forall_filter_truthy _ _ H)|].
    intros c [[? ?] ?]. done.
  - rewrite concat_filter_truthy. rewrite <- (paragraphs_content text).
    by eapply covers_trans.
Qed.

End CoverFacts.

Section DocumentFacts.
Import Filter Segmenter.

Variable is_digit : N -> bool.
Variables (max_chars overlap_chars : Z).

Lemma article_spans_content (text : str) :
  sub_whitespace (concat (article_spans is_digit text)) = sub_whitespace text.
Proof.
  unfold article_spans.
  rewrite <- (re_split_articles_content is_digit text true) at 2.
  induction (re_split_articles is_digit true text) as [|p ps IH]; [reflexivity|].
  cbn [List.filter concat]. rewrite sub_whitespace_app.
  destruct (truthy p && truthy (strip p)) eqn:E.
  - cbn [map concat]. by rewrite sub_whitespace_app, IH, sub_whitespace_strip.
  - rewrite IH, (sub_whitespace_strip_nil p); [done|].
    destruct p; [done|]. by destruct (strip (n :: p)).
Qed.

Lemma chunk_parts_spec (parts : list str) :
  (0 < max_chars)%Z -> (0 <= overlap_chars < max_chars)%Z ->
  Forall (fun p => p <> [] /\ strip p = p) parts ->
  exists (fuel0 : nat) (out : list str),
    (forall fuel, fuel0 <= fuel ->
       forall acc, chunk_parts fuel parts max_chars overlap_chars acc = Some (acc ++ out))
    /\ Forall (well_formed max_chars) out
    /\ covers overlap_chars (sub_whitespace (concat parts))
         (sub_whitespace (concat out)).
Proof.
  intros HM HO. induction 1 as [|p ps [Hne Htr] _ (f1 & out & Hout & Hwf & Hcov)].
  - exists 0, []. split; [|split; [constructor|apply covers_refl]].
    intros fuel _ acc. simpl. by rewrite app_nil_r.
  - simpl. destruct (Z.leb_spec (len p) max_chars) as [Hle|Hgt].
    + exists f1, (p :: out). split; [|split].
      * intros fuel Hf acc. rewrite Hout by done. by rewrite <- app_assoc.
      * by constructor.
      * simpl. rewrite !sub_whitespace_app.
        apply covers_app; [apply covers_refl|done].
    + destruct (chunk_text_paragraphwise_spec max_chars overlap_chars p HM HO)
        as (f2 & cs & Hcs & Hwf2 & Hcov2).
      exists (Nat.max f1 f2), (cs ++ out). split; [|split].
      * intros fuel Hf acc. rewrite Hcs by lia. rewrite Hout by lia.
        by rewrite <- app_assoc.
      * by apply Forall_app.
      * rewrite concat_app, !sub_whitespace_app. by apply covers_app.
Qed.

Lemma chunk_document_spec (text : str) (use_article_split : bool) :
  (0 < max_chars)%Z -> (0 <= overlap_chars < max_chars)%Z ->
  exists (fuel0 : nat) (chunks : list str),
    (forall fuel, fuel0 <= fuel ->
       chunk_document is_digit fuel text max_chars overlap_chars use_article_split
       = Some chunks)
    /\ Forall (well_formed max_chars) chunks
    /\ covers overlap_chars (sub_whitespace text) (sub_whitespace (concat chunks)).
Proof.
  intros HM HO. unfold chunk_document, split_by_articles.
  pose proof (chunk_text_paragraphwise_spec max_chars overlap_chars text HM HO) as Hp.
  destruct use_article_split; [|exact Hp].
  destruct (1 <? length (article_spans is_digit text)); [|exact Hp].
  pose proof (article_spans_nonempty is_digit text) as Hs.
  pose proof (article_spans_content text) as Hc.
  destruct (article_spans is_digit text) as [|p ps]; [exact Hp|].
  destruct (chunk_parts_spec (p :: ps) HM HO Hs) as (f & out & Hout & Hwf & Hcov).
  exists f, out. split; [|split; [done|]].
  - intros fuel Hf. by rewrite Hout.
  - by rewrite <- Hc.
Qed.

End DocumentFacts.

(** X5: with [0 <= overlap_chars < max_chars], [chunk_document] returns
    (with or without article splitting), and every chunk it returns is a
    training sample in good shape: at most [max_chars] long, not empty,
    and with no whitespace at either end. *)
Theorem chunk_document_well_formed (is_digit : N -> bool) (text : str)
    (max_chars overlap_chars : Z) (use_article_split : bool) :
  (0 < max_chars)%Z -> (0 <= overlap_chars < max_chars)%Z ->
  exists (fuel0 : nat) (chunks : list str),
    (forall fuel, fuel0 <= fuel ->
       Segmenter.chunk_document is_digit fuel text max_chars overlap_chars
         use_article_split = Some chunks)
    /\ Forall (well_formed max_chars) chunks.
Proof.
  intros HM HO.
  destruct (chunk_document_spec is_digit max_chars overlap_chars text
              use_article_split HM HO) as (f & chunks & H & Hwf & _).
  by exists f, chunks.
Qed.

Lemma chunk_document_well_formed_witness :
  exists (fuel0 : nat) (chunks : list str),
    (forall fuel, fuel0 <= fuel ->
       Segmenter.chunk_document ascii_digit fuel
         (Segmenter.MADDA ++ of_string " 1" ++ [LF] ++ of_string "abcdefghijkl"
          ++ [LF] ++ Segmenter.MADDA ++ of_string " 2" ++ [LF] ++ of_string "xy")
         8 3 true = Some chunks)
    /\ Forall (well_formed 8) chunks.
Proof.
  apply (chunk_document_well_formed ascii_digit _ 8 3 true); lia.
Defined.

(** X6: with [0 <= overlap_chars < max_chars], chunking loses nothing of
    the document but whitespace: the non-whitespace characters of the
    text, in order, are a subsequence of those of the chunks put one
    after the other; with [overlap_chars = 0] nothing is repeated either,
    and the two are equal. *)
Theorem chunk_document_covers (is_digit : N -> bool) (text : str)
    (max_chars overlap_chars : Z) (use_article_split : bool) :
  (0 < max_chars)%Z -> (0 <= overlap_chars < max_chars)%Z ->
  exists (fuel0 : nat) (chunks : list str),
    (forall fuel, fuel0 <= fuel ->
       Segmenter.chunk_document is_digit fuel text max_chars overlap_chars
         use_article_split = Some chunks)
    /\ sublist (Filter.sub_whitespace text) (Filter.sub_whitespace (concat chunks))
    /\ (overlap_chars = 0%Z ->
        Filter.sub_whitespace (concat chunks) = Filter.sub_whitespace text).
Proof.
  intros HM HO.
  destruct (chunk_document_spec is_digit max_chars overlap_chars text
              use_article_split HM HO) as (f & chunks & H & _ & Hc).
  exists f, chunks. split; [done|]. unfold covers in Hc.
  destruct (Z.gtb_spec overlap_chars 0) as [Hpos|Hle].
  - split; [done|lia].
  - rewrite Hc. done.
Qed.

Lemma chunk_document_covers_witness :
  exists (fuel0 : nat) (chunks : list str),
    (forall fuel, fuel0 <= fuel ->
       Segmenter.chunk_document ascii_digit fuel
         (of_string "abc def ghi jkl" ++ [LF; LF] ++ of_string "mno pqr")
         6 0 false = Some chunks)
    /\ sublist (Filter.sub_whitespace
                  (of_string "abc def ghi jkl" ++ [LF; LF] ++ of_string "mno pqr"))
         (Filter.sub_whitespace (concat chunks))
    /\ (0%Z = 0%Z ->
        Filter.sub_whitespace (concat chunks)
        = Filter.sub_whitespace
            (of_string "abc def ghi jkl" ++ [LF; LF] ++ of_string "mno pqr")).
Proof.
  apply (chunk_document_covers ascii_digit _ 6 0 false); lia.
Defined.

(** ** Documents that fit in one chunk, and the overlap bug *)

Section SingleChunkFacts.
Import Chunker.

Variables (max_chars overlap_chars : Z).

(** a text that is not empty and has no whitespace at either end *)
Local Abbreviation solid := (fun s : str => s <> [] /\ strip s = s).

Lemma solid_lstrip (s : str) : strip s = s -> lstrip s = s.
Proof.
  intros H. rewrite <- H at 1. unfold strip.
  by rewrite lstrip_rstrip_comm, lstrip_idemp.
Qed.

Lemma solid_rstrip (s : str) : strip s = s -> rstrip s = s.
Proof. intros H. rewrite <- H at 1. unfold strip. by rewrite rstrip_idemp. Qed.

Lemma solid_join (a m b : str) : solid a -> solid b -> solid (a ++ m ++ b).
Proof.
  intros [Ha Hsa] [Hb Hsb]. split; [by destruct a|].
  unfold strip. rewrite lstrip_app by (by rewrite solid_lstrip).
  rewrite solid_lstrip by done.
  rewrite rstrip_app, rstrip_app, (solid_rstrip b) by done.
  destruct b; [done|]. by destruct m.
Qed.

Lemma blank_joined_from_solid (ps : list str) :
  forall buf, solid buf -> Forall solid ps ->
    solid (foldl (fun buf q => buf ++ [LF; LF] ++ q) buf ps).
Proof.
  induction ps as [|q qs IH]; intros buf Hb Hps; [done|].
  apply Forall_cons in Hps as [Hq Hqs]. simpl. apply IH; [|done].
  by apply (solid_join buf [LF; LF] q).
Qed.

Lemma blank_joined_from_len (ps : list str) :
  forall buf, (len buf <= len (foldl (fun buf q => buf ++ [LF; LF] ++ q) buf ps))%Z.
Proof.
  induction ps as [|q qs IH]; intros buf; simpl; [lia|].
  etrans; [|apply IH]. rewrite len_app. pose proof (len_nonneg (LF :: LF :: q)). lia.
Qed.

Lemma len_blank_step (buf q : str) : len (buf ++ [LF; LF] ++ q) = (len buf + len q + 2)%Z.
Proof. rewrite !len_app. unfold len. simpl. lia. Qed.

(** As long as the buffer fits, the loop only grows it. *)
Lemma accumulate_from_small (ps : list str) :
  forall buf, solid buf -> Forall solid ps ->
    (len (foldl (fun buf q => buf ++ [LF; LF] ++ q) buf ps) <= max_chars)%Z ->
    foldl (para_step max_chars overlap_chars) ([], buf) ps
    = ([], foldl (fun buf q => buf ++ [LF; LF] ++ q) buf ps).
Proof.
  induction ps as [|q qs IH]; intros buf Hb Hps Hlen; [done|].
  apply Forall_cons in Hps as [Hq Hqs]. cbn [foldl] in *.
  pose proof (blank_joined_from_len qs (buf ++ [LF; LF] ++ q)) as Hmono.
  rewrite len_blank_step in Hmono.
  unfold para_step at 2. destruct buf as [|b buf]; [by destruct Hb|].
  cbn [truthy negb].
  destruct (Z.leb_spec (len (b :: buf) + len q + 2) max_chars) as [_|?]; [|lia].
  apply IH; [|done|done]. by apply (solid_join (b :: buf) [LF; LF] q).
Qed.

Lemma accumulate_small (p : str) (ps : list str) :
  Forall solid (p :: ps) ->
  (len (blank_joined (p :: ps)) <= max_chars)%Z ->
  accumulate (p :: ps) max_chars overlap_chars = [blank_joined (p :: ps)].
Proof.
  intros [Hp Hps]%Forall_cons Hlen. unfold accumulate. cbn [foldl].
  change (para_step max_chars overlap_chars ([], []) p) with (@nil str, p).
  rewrite accumulate_from_small by done.
  destruct (blank_joined_from_solid ps p Hp Hps) as [Hne Hs].
  simpl in *. rewrite Hs.
  by destruct (foldl (fun buf q => buf ++ LF :: LF :: q) p ps).
Qed.

Lemma single_chunk (text : str) (fuel : nat) :
  (len (blank_joined (paragraphs text)) <= max_chars)%Z ->
  chunk_text_paragraphwise fuel text max_chars overlap_chars
  = Some match paragraphs text with
         | [] => []
         | _ :: _ => [blank_joined (paragraphs text)]
         end.
Proof.
  intros Hlen. unfold chunk_text_paragraphwise.
  pose proof (paragraphs_trimmed text) as Hs.
  destruct (paragraphs text) as [|p ps]; [reflexivity|].
  rewrite accumulate_small by done. cbn [harden].
  destruct (Z.leb_spec (len (blank_joined (p :: ps))) max_chars) as [_|?]; [|lia].
  cbn [harden app List.filter].
  destruct (blank_joined_from_solid ps p) as [Hne _];
    [by apply Forall_cons in Hs as [? ?]|by apply Forall_cons in Hs as [? ?]|].
  change (foldl _ p ps) with (blank_joined (p :: ps)) in Hne.
  by destruct (blank_joined (p :: ps)).
Qed.

(** From here on: an overlap of at least the maximum. *)
Hypothesis max_pos : (0 < max_chars)%Z.
Hypothesis overlap_ge : (max_chars <= overlap_chars)%Z.

Local Abbreviation big := (fun c : str => (max_chars < len c)%Z).

Lemma harden_stuck (chunks : list str) :
  Exists big chunks ->
  forall fuel hardened, harden fuel chunks max_chars overlap_chars hardened = None.
Proof using All.
  induction chunks as [|c cs IH]; intros Hex fuel hardened; [by inversion Hex|].
  simpl. destruct (Z.leb_spec (len c) max_chars) as [Hle|Hgt].
  - apply IH. apply Exists_cons in Hex as [?|?]; [lia|done].
  - by rewrite hard_split_stuck.
Qed.

Local Abbreviation big_state := (oversized max_chars).

Lemma big_state_step (st : list str * str) (p : str) :
  big_state st -> big_state (para_step max_chars overlap_chars st p).
Proof using All.
  destruct st as [chunks buf]. unfold oversized, para_step. simpl.
  intros [Hex|[Hb Hs]].
  - left. destruct (negb (truthy buf)); [done|].
    destruct (len buf + len p + 2 <=? max_chars)%Z; [done|].
    simpl. apply Exists_app. by left.
  - destruct buf as [|b buf]; [unfold len in Hb; simpl in Hb; lia|]. simpl.
    pose proof (len_nonneg p).
    destruct (Z.leb_spec (len (b :: buf) + len p + 2) max_chars) as [?|_]; [lia|].
    left. simpl. apply Exists_app. right. rewrite Hs. by constructor.
Qed.

Lemma big_state_foldl (ps : list str) (st : list str * str) :
  big_state st -> big_state (foldl (para_step max_chars overlap_chars) st ps).
Proof using All.
  revert st. induction ps as [|p ps IH]; intros st H; [done|].
  simpl. by apply IH, big_state_step.
Qed.

Lemma slice_from_all (buf : str) :
  (len buf <= overlap_chars)%Z -> slice_from buf (- overlap_chars) = buf.
Proof using All.
  intros H. unfold slice_from, clamp_index.
  destruct (Z.ltb_spec (- overlap_chars) 0) as [_|?]; [|lia].
  by rewrite Z.max_l by lia.
Qed.

Lemma accumulate_from_big (ps : list str) :
  forall buf, solid buf -> (len buf <= max_chars)%Z -> Forall solid ps ->
    (max_chars < len (foldl (fun buf q => buf ++ [LF; LF] ++ q) buf ps))%Z ->
    big_state (foldl (para_step max_chars overlap_chars) ([], buf) ps).
Proof using All.
  induction ps as [|q qs IH]; intros buf Hb Hlen Hps Hbig; [simpl in Hbig; lia|].
  apply Forall_cons in Hps as [Hq Hqs]. cbn [foldl] in *.
  pose proof (solid_join buf [LF; LF] q Hb Hq) as Hj.
  unfold para_step at 2. destruct buf as [|b buf]; [by destruct Hb|].
  cbn [truthy negb].
  destruct (Z.leb_spec (len (b :: buf) + len q + 2) max_chars) as [Hfit|Hover].
  - apply IH; [done| |done|done]. by rewrite len_blank_step.
  - apply big_state_foldl. right. cbn [snd].
    destruct (Z.gtb_spec overlap_chars 0) as [_|?]; [|lia].
    rewrite slice_from_all by lia.
    destruct Hj as [_ Hj]. rewrite Hj. split; [|exact Hj]. rewrite len_blank_step. lia.
Qed.

Lemma accumulate_big (paras : list str) :
  Forall solid paras ->
  (max_chars < len (blank_joined paras))%Z ->
  Exists big (accumulate paras max_chars overlap_chars).
Proof using All.
  intros Hs Hbig. destruct paras as [|p ps]; [unfold len in Hbig; simpl in Hbig; lia|].
  apply Forall_cons in Hs as [Hp Hps].
  assert (H : big_state (foldl (para_step max_chars overlap_chars) ([], []) (p :: ps))).
  { cbn [foldl].
    change (para_step max_chars overlap_chars ([], []) p) with (@nil str, p).
    destruct (Z.le_gt_cases (len p) max_chars) as [Hle|Hgt].
    - by apply accumulate_from_big.
    - apply big_state_foldl. right. simpl. split; [lia|by destruct Hp]. }
  unfold accumulate.
  destruct (foldl _ _ (p :: ps)) as [chunks buf].
  destruct H as [Hex|[Hb Hsb]]; simpl in *.
  - destruct (truthy buf); [apply Exists_app; by left|done].
  - destruct buf as [|b buf]; [unfold len in Hb; simpl in Hb; lia|]. simpl.
    apply Exists_app. right. rewrite Hsb. by constructor.
Qed.

Lemma overlap_ge_max_result (text : str) (fuel : nat) :
  chunk_text_paragraphwise fuel text max_chars overlap_chars
  = if (len (blank_joined (paragraphs text)) <=? max_chars)%Z
    then Some match paragraphs text with
              | [] => []
              | _ :: _ => [blank_joined (paragraphs text)]
              end
    else None.
Proof using All.
  destruct (Z.leb_spec (len (blank_joined (paragraphs text))) max_chars) as [Hle|Hgt].
  - by apply single_chunk.
  - unfold chunk_text_paragraphwise.
    rewrite harden_stuck; [done|].
    apply accumulate_big; [apply paragraphs_trimmed|done].
Qed.

End SingleChunkFacts.

(** X7: a document whose paragraphs, joined by blank lines, fit in
    [max_chars] comes out as that one chunk, whatever the overlap and
    however few steps the loops are allowed: the hard split is not
    entered. *)
Theorem chunk_text_paragraphwise_single_chunk (text : str)
    (max_chars overlap_chars : Z) (fuel : nat) :
  (len (blank_joined (Chunker.paragraphs text)) <= max_chars)%Z ->
  Chunker.chunk_text_paragraphwise fuel text max_chars overlap_chars
  = Some match Chunker.paragraphs text with
         | [] => []
         | _ :: _ => [blank_joined (Chunker.paragraphs text)]
         end.
Proof. apply single_chunk. Qed.

Lemma chunk_text_paragraphwise_single_chunk_witness :
  Chunker.chunk_text_paragraphwise 0
    (of_string " ab" ++ [LF; SPACE; LF; LF] ++ of_string "cd ") 6 9
  = Some [of_string "ab" ++ [LF; LF] ++ of_string "cd"].
Proof.
  apply (chunk_text_paragraphwise_single_chunk
           (of_string " ab" ++ [LF; SPACE; LF; LF] ++ of_string "cd ") 6 9 0).
  vm_compute. discriminate.
Defined.

(** X8: with [overlap_chars >= max_chars > 0] the paragraph chunker
    returns exactly on the documents that fit in one chunk: on every
    other document an accumulated chunk exceeds the maximum (the overlap
    tail is the whole buffer) and the hard split never ends. *)
Theorem chunk_text_paragraphwise_overlap_ge_max (text : str)
    (max_chars overlap_chars : Z) :
  (0 < max_chars)%Z -> (max_chars <= overlap_chars)%Z ->
  forall fuel : nat,
    Chunker.chunk_text_paragraphwise fuel text max_chars overlap_chars
    = if (len (blank_joined (Chunker.paragraphs text)) <=? max_chars)%Z
      then Some match Chunker.paragraphs text with
                | [] => []
                | _ :: _ => [blank_joined (Chunker.paragraphs text)]
                end
      else None.
Proof. intros HM HO fuel. by apply overlap_ge_max_result. Qed.

Lemma chunk_text_paragraphwise_overlap_ge_max_witness :
  Chunker.chunk_text_paragraphwise 1000
    (of_string "ab" ++ [LF; LF] ++ of_string "cd") 4 4 = None.
Proof.
  apply (chunk_text_paragraphwise_overlap_ge_max
           (of_string "ab" ++ [LF; LF] ++ of_string "cd") 4 4); lia.
Defined.

(** ** Options of [prepare_axolotl_cpt.py] *)

Section OptionFacts.
Import Prepare Overrides.

Lemma parse_list_tokens (s : str) : Forall token (parse_list s).
Proof.
  unfold parse_list. apply Forall_forall. intros t.
  rewrite list_elem_of_In, List.in_map_iff. intros (c & <- & Hc).
  apply List.filter_In in Hc as [Hc Ht]. split; [by destruct (strip c)|].
  split; [apply strip_idemp|].
  intros Hin%elem_of_strip.
  pose proof (split_on_free COMMA s) as Hfree. rewrite Forall_forall in Hfree.
  apply (Hfree c); [by apply list_elem_of_In|done].
Qed.

Lemma parse_list_join_tokens (tokens : list str) :
  Forall token tokens -> parse_list (join COMMA tokens) = tokens.
Proof.
  intros Ht. unfold parse_list. destruct tokens as [|t ts]; [reflexivity|].
  rewrite split_on_join; [|done|].
  - induction Ht as [|x xs (Hne & Hs & _) _ IH]; [reflexivity|].
    cbn [List.filter]. rewrite Hs. destruct x; [done|].
    cbn [truthy map]. by rewrite Hs, IH.
  - eapply Forall_impl; [exact Ht|]. by intros x (_ & _ & ?).
Qed.

Lemma parse_label_parts_spec (parts : list str) :
  forall labels,
    match parse_label_parts parts labels with
    | Some m =>
        Forall (fun part => EQUALS ∈ part) parts
        /\ m = foldl (fun m part => <[(label_entry part).1 := (label_entry part).2]> m)
                 labels parts
    | None => Exists (fun part => EQUALS ∉ part) parts
    end.
Proof.
  induction parts as [|part parts IH]; intros labels; simpl; [done|].
  destruct (contains EQUALS part) eqn:E.
  - apply contains_elem_of in E. unfold label_entry.
    destruct (split_once EQUALS part) as [k v]. specialize (IH (<[strip k := strip v]> labels)).
    destruct (parse_label_parts parts _); [|by right].
    destruct IH as [? ->]. split; [by constructor|done].
  - left. rewrite <- contains_elem_of. by rewrite E.
Qed.

Lemma foldl_insert_union (es : list (list N * list N)) (m0 : gmap (list N) (list N)) :
  foldl (fun m kv => <[kv.1 := kv.2]> m) m0 es = list_to_map (reverse es) ∪ m0.
Proof.
  induction es as [|kv es IH] using rev_ind.
  - simpl. by rewrite (left_id_L ∅ (∪)).
  - rewrite foldl_snoc, reverse_snoc, IH. destruct kv as [k v]. simpl.
    by rewrite insert_union_l.
Qed.

Lemma foldl_label_entries (parts : list str) (m0 : gmap (list N) (list N)) :
  foldl (fun m part => <[(label_entry part).1 := (label_entry part).2]> m) m0 parts
  = foldl (fun m kv => <[kv.1 := kv.2]> m) m0 (label_entry <$> parts).
Proof. revert m0. induction parts as [|p ps IH]; intros m0; simpl; [done|apply IH]. Qed.

End OptionFacts.

(** X9: the comma-separated options [--extensions] and [--keep_categories]
    are read as the list of their non-blank items, trimmed; joining such
    items with commas and reading the result gives the items back, which
    is how the default [",".join(DEFAULT_EXTS)] comes back as
    [DEFAULT_EXTS]. *)
Theorem parse_list_join (tokens : list str) :
  Forall token tokens ->
  Prepare.parse_list (join Overrides.COMMA tokens) = tokens
  /\ forall s : str, Forall token (Prepare.parse_list s).
Proof.
  intros Ht. split; [by apply parse_list_join_tokens|apply parse_list_tokens].
Qed.

Lemma parse_list_join_witness :
  Prepare.parse_list (join Overrides.COMMA Prepare.DEFAULT_EXTS) = Prepare.DEFAULT_EXTS
  /\ forall s : str, Forall token (Prepare.parse_list s).
Proof.
  apply (parse_list_join Prepare.DEFAULT_EXTS).
  repeat constructor; try discriminate; intros H; vm_compute in H;
    repeat (apply elem_of_cons in H as [H|H]; [discriminate H|]);
    by apply elem_of_nil in H.
Defined.

(** X10: [--category_labels] is read without the care taken for
    [--min_chars_overrides]: the parts are not trimmed before the test
    and empty parts are not skipped, so that the unpacking of [k, v]
    raises exactly when the option is not blank and one of its
    comma-separated parts, an empty one included, holds no ["="].
    Otherwise the labels are the given ones over the defaults, a later
    part winning over an earlier one with the same key. *)
Theorem parse_labels_raises_iff (s : str) :
  (Prepare.parse_labels s = None
   <-> strip s <> []
       /\ Exists (fun part => Overrides.EQUALS ∉ part) (split_on Overrides.COMMA s))
  /\ (strip s = [] -> Prepare.parse_labels s = Some Prepare.DEFAULT_CATEGORY_LABELS)
  /\ (forall labels, strip s <> [] -> Prepare.parse_labels s = Some labels ->
        labels = list_to_map (reverse (label_entry <$> split_on Overrides.COMMA s))
                 ∪ Prepare.DEFAULT_CATEGORY_LABELS).
Proof.
  unfold Prepare.parse_labels.
  pose proof (parse_label_parts_spec (split_on Overrides.COMMA s)
                Prepare.DEFAULT_CATEGORY_LABELS) as H.
  destruct (strip s) as [|c r] eqn:Es; cbn [truthy].
  - split; [split; [done|by intros [? _]]|]. split; [done|]. by intros labels ?.
  - destruct (Prepare.parse_label_parts _ _) as [m|].
    + destruct H as [Hall ->]. split.
      { split; [done|]. intros [_ Hex]. apply Exists_exists in Hex as (p & Hp & Hno).
        rewrite Forall_forall in Hall. by specialize (Hall p Hp). }
      split; [done|]. intros labels _ [= <-].
      by rewrite foldl_label_entries, foldl_insert_union.
    + split; [|split; [done|by intros labels _ ?]].
      split; [|done]. intros _. split; [done|exact H].
Qed.

(** ** Records of a document *)

Section RecordFacts.
Import Prepare.

Lemma of_string_inj (s t : string) : of_string s = of_string t -> s = t.
Proof.
  revert t. induction s as [|a s IH]; intros [|b t]; simpl; try done.
  intros [= Hab Hst]. f_equal; [|by apply IH].
  rewrite <- (Ascii.ascii_N_embedding a), <- (Ascii.ascii_N_embedding b).
  by rewrite Hab.
Qed.

Lemma str_of_int_inj (i j : Z) : str_of_int i = str_of_int j -> i = j.
Proof.
  unfold str_of_int. intros H%of_string_inj.
  apply DecimalZ.to_int_inj.
  assert (Hn : forall n, Z.to_int n <> Decimal.Pos Decimal.Nil
                         /\ Z.to_int n <> Decimal.Neg Decimal.Nil).
  { intros [|p|p]; simpl; split; try done;
      intros [= Hp]; by apply DecimalPos.Unsigned.to_uint_nonnil in Hp. }
  apply (f_equal DecimalString.NilZero.int_of_string) in H.
  rewrite !DecimalString.NilZero.isi in H by apply Hn. by injection H.
Qed.

Lemma string_of_uint_no_slash (d : Decimal.uint) :
  SLASH ∉ of_string (DecimalString.NilEmpty.string_of_uint d).
Proof.
  induction d; simpl; [apply not_elem_of_nil|..];
    (apply not_elem_of_cons; split; [done|assumption]).
Qed.

Lemma str_of_int_no_slash (i : Z) : SLASH ∉ str_of_int i.
Proof.
  unfold str_of_int.
  assert (H : forall d, SLASH ∉ of_string (DecimalString.NilZero.string_of_uint d)).
  { intros d. pose proof (string_of_uint_no_slash d).
    destruct d; try done. simpl. apply not_elem_of_cons. split; [done|apply not_elem_of_nil]. }
  destruct (Z.to_int i); simpl; [apply H|].
  apply not_elem_of_cons. split; [done|apply H].
Qed.

Lemma app_sep_inj (sep : N) (a b x y : str) :
  sep ∉ a -> sep ∉ b -> a ++ sep :: x = b ++ sep :: y -> a = b.
Proof.
  revert b. induction a as [|c a IH]; intros [|d b]; simpl.
  - done.
  - intros _ [Hd _]%not_elem_of_cons [= <- _]. done.
  - intros [Hc _]%not_elem_of_cons _ [= -> _]. done.
  - intros [_ Ha]%not_elem_of_cons [_ Hb]%not_elem_of_cons [= -> H].
    f_equal. by apply IH.
Qed.

(** A record with a header names its position. *)
Lemma build_header_index (cat : str) (labels : gmap (list N) (list N))
    (rel_path : str) (total i j : Z) (ch ch' : str) :
  build_header cat labels rel_path i total true ++ ch
  = build_header cat labels rel_path j total true ++ ch' -> i = j.
Proof.
  unfold build_header. cbn [negb]. rewrite <- !app_assoc. intros H.
  do 8 apply app_inv_head in H.
  apply str_of_int_inj.
  eapply (app_sep_inj SLASH); [apply str_of_int_no_slash..|exact H].
Qed.

Lemma elem_of_record_texts (cat : str) (labels : gmap (list N) (list N))
    (rel_path : str) (h : bool) (total : Z) (chunks : list str) :
  forall i x, x ∈ record_texts cat labels rel_path h total i chunks ->
    exists j ch, (i <= j)%Z /\ ch ∈ chunks
                 /\ x = build_header cat labels rel_path j total h ++ ch.
Proof.
  induction chunks as [|c cs IH]; intros i x; simpl; [by intros ?%elem_of_nil|].
  intros [->|Hx]%elem_of_cons.
  - exists i, c. split; [lia|]. split; [by left|done].
  - apply IH in Hx as (j & ch & Hj & Hch & ->). exists j, ch.
    split; [lia|]. split; [by right|done].
Qed.

Lemma record_texts_length (cat : str) (labels : gmap (list N) (list N))
    (rel_path : str) (h : bool) (total : Z) (chunks : list str) :
  forall i, length (record_texts cat labels rel_path h total i chunks) = length chunks.
Proof. induction chunks as [|c cs IH]; intros i; simpl; [done|]. by rewrite IH. Qed.

End RecordFacts.

(** X11: the records of one document, as [main] builds them: as many as
    there are chunks; without the header their texts are the chunks; with
    the header each text names its own position [i/total], so that the
    texts are pairwise different even where two chunks are the same. *)
Theorem record_texts_distinct (cat : str) (labels : gmap (list N) (list N))
    (rel_path : str) (total i : Z) (chunks : list str) :
  length (Prepare.record_texts cat labels rel_path true total i chunks)
  = length chunks
  /\ Prepare.record_texts cat labels rel_path false total i chunks = chunks
  /\ NoDup (Prepare.record_texts cat labels rel_path true total i chunks).
Proof.
  split; [apply record_texts_length|]. split.
  - revert i. induction chunks as [|c cs IH]; intros i; simpl; [done|]. by rewrite IH.
  - revert i. induction chunks as [|c cs IH]; intros i; simpl; [constructor|].
    constructor; [|apply IH].
    intros (j & ch & Hj & _ & Heq)%elem_of_record_texts.
    apply build_header_index in Heq. lia.
Qed.

(** ** One file through [main] *)

Section ProcessFacts.
Import Prepare.

(** The generator used to run the definitions keeps the contract. *)
Lemma lcg_draw_spec (k : nat) :
  forall (pool : list nat) (st : N),
    NoDup pool -> k <= length pool ->
    let drawn := (Random.Lcg.draw k pool st).1 in
    length drawn = k /\ NoDup drawn /\ drawn ⊆ pool.
Proof.
  induction k as [|k IH]; intros pool st Hnd Hk; simpl.
  - split; [done|]. split; [constructor|]. by intros x ?%elem_of_nil.
  - set (st1 := Random.Lcg.next st).
    set (j := N.to_nat (st1 mod N.of_nat (length pool))%N).
    assert (Hj : j < length pool).
    { unfold j. pose proof (N.mod_lt st1 (N.of_nat (length pool))). lia. }
    destruct (lookup_lt_is_Some_2 pool j Hj) as [x Hx]. rewrite Hx.
    assert (Hd : delete j pool = take j pool ++ drop (S j) pool)
      by apply delete_take_drop.
    pose proof (take_drop_middle pool j x Hx) as Hmid.
    rewrite <- Hmid in Hnd. apply NoDup_app in Hnd as (Hn1 & Hn12 & Hn2).
    apply NoDup_cons in Hn2 as [Hx2 Hn2].
    assert (Hnd' : NoDup (delete j pool)).
    { rewrite Hd. apply NoDup_app. split; [done|]. split; [|done].
      intros y Hy1 Hy2. apply (Hn12 y Hy1). by right. }
    assert (Hxd : x ∉ delete j pool).
    { rewrite Hd. intros [H1|H2]%elem_of_app; [|done].
      apply (Hn12 x H1). by left. }
    specialize (IH (delete j pool) st1 Hnd').
    rewrite length_delete in IH by eauto. specialize (IH ltac:(lia)).
    destruct (Random.Lcg.draw k (delete j pool) st1) as [xs st2]. simpl in *.
    destruct IH as (Hl & Hn & Hsub). split; [by rewrite Hl|]. split.
    + constructor; [|done]. intros Hin. by apply Hxd, Hsub.
    + intros y [->|Hy]%elem_of_cons.
      * by eapply list_elem_of_lookup_2.
      * apply Hsub in Hy. rewrite Hd in Hy. rewrite <- Hmid.
        apply elem_of_app in Hy as [?|?]; apply elem_of_app; [by left|].
        right. by right.
Qed.

Lemma lcg_sample_contract : sample_contract Random.Lcg.lcg.
Proof.
  intros n k st Hk. simpl.
  destruct (lcg_draw_spec k (seq 0 n) st) as (Hl & Hn & Hsub);
    [apply NoDup_seq|by rewrite length_seq|].
  split; [done|]. split; [done|].
  apply Forall_forall. intros i Hi%Hsub. apply elem_of_seq in Hi. lia.
Qed.

Context {rng : Type} (R : Random.methods rng).
Hypothesis contract : sample_contract R.

Lemma cap_document_spec (chunks : list str) (cap : Z) (st : rng) :
  exists (kept : list str) (capped_away : nat) (st' : rng),
    Capper.cap_document R chunks cap st = Some (kept, capped_away, st')
    /\ kept `sublist_of` chunks
    /\ length kept + capped_away = length chunks
    /\ ((0 < cap)%Z -> (len kept <= cap)%Z)
    /\ (chunks <> [] -> kept <> [])
    /\ ((cap <= 0)%Z \/ (len chunks <= cap)%Z -> kept = chunks /\ st' = st).
Proof using contract.
  unfold Capper.cap_document.
  destruct (decide ((cap <= 0)%Z \/ (len chunks <= cap)%Z)) as [Hun|Hcap].
  - rewrite (maybe_cap_chunks_unchanged R) by done.
    exists chunks, 0, st. rewrite Nat.ltb_irrefl.
    split; [done|]. split; [done|]. split; [lia|]. split; [lia|]. done.
  - assert (Hc : (0 < cap < len chunks)%Z) by lia. unfold len in Hc.
    pose proof (contract (length chunks) (Z.to_nat cap) st ltac:(lia)) as Hd.
    unfold Capper.maybe_cap_chunks, len.
    destruct (Z.leb_spec cap 0); [lia|].
    destruct (Z.leb_spec (Z.of_nat (length chunks)) cap); [lia|]. cbn [orb].
    destruct (Random.sample_range R (length chunks) (Z.to_nat cap) st)
      as [drawn st'] eqn:Es. simpl in Hd. destruct Hd as (Hlen & Hnd & Hrange).
    set (idxs := merge_sort Nat.le drawn).
    assert (Hperm : idxs ≡ₚ drawn) by apply merge_sort_Permutation.
    assert (Hinc : StronglySorted lt idxs).
    { apply sorted_nodup_increasing.
      - apply (Sorted_merge_sort Nat.le).
      - by rewrite Hperm. }
    assert (Hin : Forall (fun i => 0 <= i < 0 + length chunks) idxs).
    { rewrite Hperm. eapply Forall_impl; [exact Hrange|]. simpl. intros; lia. }
    destruct (lookup_increasing_sublist chunks 0 idxs Hinc Hin) as (out & Hout & Hsub).
    rewrite (mapM_ext _ (fun i => chunks !! i)) in Hout
      by (intros i; by rewrite Nat.sub_0_r).
    rewrite Hout.
    assert (Hlo : length out = Z.to_nat cap).
    { rewrite <- (length_mapM _ _ _ Hout), Hperm. exact Hlen. }
    exists out, (length chunks - length out), st'.
    destruct (Nat.ltb_spec (length out) (length chunks)); [|lia].
    split; [done|]. split; [done|]. split; [lia|].
    split; [unfold len; lia|]. split; [|intros; lia].
    intros _ ->. simpl in Hlo. lia.
Qed.

Variable is_digit : N -> bool.

Lemma process_document_spec (a : args) (overrides : gmap (list N) Z)
    (labels : gmap (list N) (list N)) (cat rel_path raw : str) (st : rng) :
  (0 < max_chars a)%Z -> (0 <= overlap_chars a < max_chars a)%Z ->
  let min_chars := choose_min_chars cat (min_chars_default a) overrides in
  let split := use_article_split a
               && (str_eqb cat (of_string "RD") || str_eqb cat (of_string "FATWA")
                   || str_eqb cat (of_string "AD")) in
  exists (fuel0 : nat) (outcome : document) (st' : rng),
    (forall fuel, fuel0 <= fuel ->
       process_document is_digit R fuel a overrides labels cat rel_path raw st
       = Some (outcome, st'))
    /\ match outcome with
       | NotUseful =>
           (len (List.filter useful_char raw) < min_chars)%Z /\ st' = st
       | Kept kept texts capped_away =>
           (min_chars <= len (List.filter useful_char raw))%Z
           /\ exists chunks : list str,
                (forall fuel, fuel0 <= fuel ->
                   Segmenter.chunk_document is_digit fuel
                     (Normalizer.normalize_newlines raw)
                     (max_chars a) (overlap_chars a) split = Some chunks)
                /\ kept `sublist_of` chunks
                /\ length kept + capped_away = length chunks
                /\ ((0 < max_chunks_per_doc a)%Z ->
                    (len kept <= max_chunks_per_doc a)%Z)
                /\ ((1 <= min_chars)%Z -> kept <> [])
                /\ Forall (well_formed (max_chars a)) kept
                /\ texts = record_texts cat labels rel_path (include_header a)
                             (len kept) 1 kept
       end.
Proof using contract.
  intros HM HO min_chars split. unfold process_document. fold min_chars split.
  unfold Filter.has_useful_content. rewrite sub_whitespace_normalize.
  destruct (Z.geb_spec (len (List.filter useful_char raw)) min_chars) as [Hge|Hlt].
  2:{ exists 0, NotUseful, st. split; [done|]. split; [lia|done]. }
  cbn [negb].
  destruct (chunk_document_spec is_digit (max_chars a) (overlap_chars a)
              (Normalizer.normalize_newlines raw) split HM HO)
    as (fuel0 & chunks & Hch & Hwf & Hcov).
  destruct (cap_document_spec chunks (max_chunks_per_doc a) st)
    as (kept & away & st' & Hcap & Hsub & Hlen & Hle & Hne & _).
  exists fuel0, (Kept kept (record_texts cat labels rel_path (include_header a)
                              (len kept) 1 kept) away), st'.
  split.
  { intros fuel Hf. by rewrite Hch, Hcap. }
  split; [lia|]. exists chunks.
  split; [done|]. split; [done|]. split; [done|]. split; [done|].
  split; [|split; [|done]].
  - intros Hmin. apply Hne. intros ->. simpl in Hcov.
    rewrite sub_whitespace_normalize in Hcov.
    assert (List.filter useful_char raw = []) as Hnil.
    { unfold covers in Hcov. destruct (overlap_chars a >? 0)%Z; [|done].
      by apply sublist_nil_r. }
    rewrite Hnil in Hge. unfold len in Hge. simpl in Hge. lia.
  - apply Forall_forall. intros c Hc. rewrite Forall_forall in Hwf.
    apply Hwf. by eapply elem_of_sublist.
Qed.

End ProcessFacts.

(** X12: what [main] does with one file of a kept category, for
    [0 <= overlap_chars < max_chars] and a generator whose [sample] keeps
    its contract: the work returns; the file is dropped exactly when the
    raw text has fewer useful characters (neither whitespace nor marks)
    than the category's threshold, and then the generator is untouched;
    otherwise the records are the headers followed by the chunks kept from
    [chunk_document]'s list in their order, each chunk well formed, at
    most [max_chunks_per_doc] of them when that cap is positive, at least
    one when the threshold is at least 1, and the chunks kept and the
    chunks counted as capped away add up to the chunks produced. *)
Theorem process_document_records (is_digit : N -> bool) {rng : Type}
    (R : Random.methods rng) (a : Prepare.args) (overrides : gmap (list N) Z)
    (labels : gmap (list N) (list N)) (cat rel_path raw : str) (st : rng) :
  sample_contract R ->
  (0 < Prepare.max_chars a)%Z ->
  (0 <= Prepare.overlap_chars a < Prepare.max_chars a)%Z ->
  let min_chars :=
    Prepare.choose_min_chars cat (Prepare.min_chars_default a) overrides in
  let split :=
    Prepare.use_article_split a
    && (str_eqb cat (of_string "RD") || str_eqb cat (of_string "FATWA")
        || str_eqb cat (of_string "AD")) in
  exists (fuel0 : nat) (outcome : Prepare.document) (st' : rng),
    (forall fuel, fuel0 <= fuel ->
       Prepare.process_document is_digit R fuel a overrides labels cat rel_path raw st
       = Some (outcome, st'))
    /\ match outcome with
       | Prepare.NotUseful =>
           (len (List.filter useful_char raw) < min_chars)%Z /\ st' = st
       | Prepare.Kept kept texts capped_away =>
           (min_chars <= len (List.filter useful_char raw))%Z
           /\ exists chunks : list str,
                (forall fuel, fuel0 <= fuel ->
                   Segmenter.chunk_document is_digit fuel
                     (Normalizer.normalize_newlines raw)
                     (Prepare.max_chars a) (Prepare.overlap_chars a) split
                   = Some chunks)
                /\ kept `sublist_of` chunks
                /\ length kept + capped_away = length chunks
                /\ ((0 < Prepare.max_chunks_per_doc a)%Z ->
                    (len kept <= Prepare.max_chunks_per_doc a)%Z)
                /\ ((1 <= min_chars)%Z -> kept <> [])
                /\ Forall (well_formed (Prepare.max_chars a)) kept
                /\ texts = Prepare.record_texts cat labels rel_path
                             (Prepare.include_header a) (len kept) 1 kept
       end.
Proof. intros Hc HM HO. by apply process_document_spec. Qed.

Lemma process_document_records_witness :
  exists (fuel0 : nat) (outcome : Prepare.document) (st' : N),
    (forall fuel, fuel0 <= fuel ->
       Prepare.process_document ascii_digit Random.Lcg.lcg fuel (Prepare.Args 5 0 false 2 2 true) ∅
         Prepare.DEFAULT_CATEGORY_LABELS (of_string "RD") (of_string "RD/a.txt") (of_string "aaaa" ++ [LF; LF] ++ of_string "bbbb" ++ [LF; LF] ++ of_string "cccc") 42%N
       = Some (outcome, st'))
    /\ match outcome with
       | Prepare.NotUseful =>
           (len (List.filter useful_char (of_string "aaaa" ++ [LF; LF] ++ of_string "bbbb" ++ [LF; LF] ++ of_string "cccc")) < 2)%Z /\ st' = 42%N
       | Prepare.Kept kept texts capped_away =>
           (2 <= len (List.filter useful_char (of_string "aaaa" ++ [LF; LF] ++ of_string "bbbb" ++ [LF; LF] ++ of_string "cccc")))%Z
           /\ exists chunks : list str,
                (forall fuel, fuel0 <= fuel ->
                   Segmenter.chunk_document ascii_digit fuel
                     (Normalizer.normalize_newlines (of_string "aaaa" ++ [LF; LF] ++ of_string "bbbb" ++ [LF; LF] ++ of_string "cccc")) 5 0 false
                   = Some chunks)
                /\ kept `sublist_of` chunks
                /\ length kept + capped_away = length chunks
                /\ ((0 < 2)%Z -> (len kept <= 2)%Z)
                /\ ((1 <= 2)%Z -> kept <> [])
                /\ Forall (well_formed 5) kept
                /\ texts = Prepare.record_texts (of_string "RD") Prepare.DEFAULT_CATEGORY_LABELS
                             (of_string "RD/a.txt") true (len kept) 1 kept
       end.
Proof.
  exact (process_document_records ascii_digit Random.Lcg.lcg (Prepare.Args 5 0 false 2 2 true) ∅
           Prepare.DEFAULT_CATEGORY_LABELS (of_string "RD") (of_string "RD/a.txt")
           (of_string "aaaa" ++ [LF; LF] ++ of_string "bbbb" ++ [LF; LF] ++ of_string "cccc")
           42%N lcg_sample_contract ltac:(simpl; lia) ltac:(simpl; lia)).
Defined.

(** ** One file through the cleaner *)

Section CleanerFacts.
Import Stripper Cleaner Filter.
Variable lower : str -> str.

Lemma elem_of_join_suffix (x : N) (pre ls : list str) :
  x ∈ join LF ls -> x ∈ join LF (pre ++ ls).
Proof.
  intros Hx. induction pre as [|p pre IH]; [done|].
  destruct (pre ++ ls) as [|l1 rest] eqn:E.
  - destruct pre; [|done]. simpl in E. subst ls. by apply elem_of_nil in Hx.
  - change ((p :: pre) ++ ls) with (p :: (pre ++ ls)). rewrite E, join_cons2.
    apply elem_of_app. right. by right.
Qed.

Lemma split_on_snoc_sep (sep : N) (s : str) :
  split_on sep (s ++ [sep]) = split_on sep s ++ [[]].
Proof.
  induction s as [|c r IH]; simpl.
  - by rewrite N.eqb_refl.
  - rewrite IH. destruct (c =? sep)%N; [done|].
    pose proof (split_on_nonempty sep r). by destruct (split_on sep r).
Qed.

Lemma strip_snoc_lf (c : str) : c <> [] -> strip c = c -> strip (c ++ [LF]) = c.
Proof.
  intros Hne Hs. unfold strip.
  rewrite lstrip_app by (by rewrite solid_lstrip).
  rewrite solid_lstrip, rstrip_app by done. simpl. by apply solid_rstrip.
Qed.

Lemma elem_of_sub_whitespace (x : N) (s : str) : x ∈ sub_whitespace s -> x ∈ s.
Proof.
  induction s as [|c s IH]; simpl; [done|].
  destruct (isspace c); [by right; apply IH|].
  intros [->|?]%elem_of_cons; [by left|by right; apply IH].
Qed.

Lemma mark_free_useful (s : str) :
  mark_free s -> List.filter useful_char s = sub_whitespace s.
Proof.
  intros (Hb & _ & Hl & Hr). rewrite <- filter_useful_char.
  rewrite (remove_char_id BOM) by (by intros ?%elem_of_sub_whitespace).
  rewrite (remove_char_id RLM) by (by intros ?%elem_of_sub_whitespace).
  by rewrite (remove_char_id LRM) by (by intros ?%elem_of_sub_whitespace).
Qed.

(** What the cleaner writes under [cleaned/]. *)
Lemma clean_file_cleaned (raw : str) (min_chars : Z) (content : str) (n : nat) :
  clean_file lower raw min_chars = Some (Cleaned content, n) ->
  exists cleaned,
    content = cleaned ++ [LF]
    /\ strip cleaned = cleaned
    /\ has_useful_content cleaned min_chars = true
    /\ mark_free content
    /\ strip_leading_download_lines lower cleaned
       = Some (cleaned, match cleaned with [] => 1 | _ => 0 end)
    /\ (cleaned <> [] ->
        exists l0 rest, split_on LF cleaned = l0 :: rest /\ noise lower l0 = false).
Proof.
  unfold clean_file.
  pose proof (cleaner_normalize_newlines_mark_free raw) as Hmf.
  set (raw' := Cleaner.normalize_newlines raw) in *.
  destruct (strip_leading_download_lines_spec lower raw')
    as (ls & n0 & Hr & (pre & Hl & Hpre & Hn) & Hc).
  rewrite Hr. set (cleaned := strip (join LF ls)).
  destruct (has_useful_content cleaned min_chars) eqn:Hu; [|discriminate].
  intros [= <- <-]. exists cleaned.
  split; [done|]. split; [apply strip_idemp|]. split; [done|]. split.
  { assert (Hin : forall x, x ∈ cleaned ++ [LF] -> x ∈ raw' \/ x = LF).
    { intros x [Hx| ->%list_elem_of_singleton]%elem_of_app; [left|by right].
      apply elem_of_strip in Hx. rewrite <- (join_split_on LF raw'), Hl.
      by apply elem_of_join_suffix. }
    destruct Hmf as (H1 & H2 & H3 & H4).
    split_and!; intros [?|E]%Hin; done || discriminate E. }
  destruct ls as [|l0 rest]; [split; [reflexivity|done]|].
  simpl in Hc.
  destruct (cleaned_lines lower raw' pre l0 rest Hl Hc)
    as (Hsplit & l0' & rest' & Hrl & Hs).
  assert (Hn' : noise lower l0' = false) by (by rewrite (noise_strip lower l0 l0')).
  assert (Hb' : is_blank_line l0' = false).
  { unfold noise in Hn'. by destruct (is_blank_line l0'). }
  rewrite Hrl in Hsplit. fold cleaned in Hsplit.
  assert (Hne : cleaned <> []).
  { intros E. rewrite E in Hsplit. simpl in Hsplit.
    injection Hsplit as <- _. discriminate Hb'. }
  split; [|by intros _; exists l0', rest'].
  unfold strip_leading_download_lines.
  rewrite Hsplit. cbn [pop_blank]. rewrite Hb'.
  rewrite strip_loop_clean by exact Hn'.
  rewrite <- Hsplit, join_split_on.
  unfold cleaned at 1. rewrite strip_idemp. fold cleaned.
  by destruct cleaned.
Qed.

Lemma clean_file_total (raw : str) (min_chars : Z) :
  is_Some (clean_file lower raw min_chars).
Proof.
  unfold clean_file.
  destruct (strip_leading_download_lines_spec lower (Cleaner.normalize_newlines raw))
    as (ls & n0 & -> & _).
  by destruct (has_useful_content _ _).
Qed.

Lemma clean_file_again (raw : str) (min_chars : Z) (content : str) (n : nat) :
  clean_file lower raw min_chars = Some (Cleaned content, n) ->
  exists n', clean_file lower content min_chars = Some (Cleaned content, n')
             /\ ((1 <= min_chars)%Z -> n' = 0).
Proof.
  intros (cleaned & -> & Hs & Hu & Hmf & _ & Hlines)%clean_file_cleaned.
  unfold clean_file. rewrite (mark_free_fixed _ Hmf).
  destruct (decide (cleaned = [])) as [->|Hne].
  - exists 2. change (strip_leading_download_lines lower ([] ++ [LF]))
      with (Some (@nil N, 2)).
    cbv beta iota. rewrite Hu. split; [done|]. intros Hm.
    unfold has_useful_content, len in Hu. simpl in Hu. apply Z.geb_le in Hu. lia.
  - destruct (Hlines Hne) as (l0 & rest & Hsplit & Hn0).
    assert (Hb : is_blank_line l0 = false).
    { unfold noise in Hn0. by destruct (is_blank_line l0). }
    exists 0. unfold strip_leading_download_lines.
    rewrite split_on_snoc_sep, Hsplit.
    change ((l0 :: rest) ++ [[]]) with (l0 :: (rest ++ [[]])).
    cbn [pop_blank]. rewrite Hb.
    rewrite strip_loop_clean by exact Hn0.
    change (l0 :: (rest ++ [[]])) with ((l0 :: rest) ++ [[]]).
    rewrite <- Hsplit, <- split_on_snoc_sep, join_split_on.
    rewrite strip_snoc_lf by done. by rewrite Hu.
Qed.

End CleanerFacts.

(** X13: the cleaner's work on one file always returns, and it is
    idempotent on what it keeps: run on a file it wrote under [cleaned/],
    it writes the same content again; with a threshold of at least 1 it
    removes no line from it. *)
Theorem clean_file_idempotent (lower : str -> str) (raw : str) (min_chars : Z) :
  is_Some (Cleaner.clean_file lower raw min_chars)
  /\ forall (content : str) (n : nat),
       Cleaner.clean_file lower raw min_chars = Some (Cleaner.Cleaned content, n) ->
       exists n',
         Cleaner.clean_file lower content min_chars
         = Some (Cleaner.Cleaned content, n')
         /\ ((1 <= min_chars)%Z -> n' = 0).
Proof.
  split; [apply clean_file_total|]. intros content n. apply clean_file_again.
Qed.

(** X14: the cleaner's output as the input of [prepare_axolotl_cpt.py]: a
    file written under [cleaned/] holds no byte-order mark, carriage
    return or directional mark, so the other script's normalizer changes
    nothing in what the sufficiency filter counts, and the file passes
    that filter for every threshold up to the cleaner's own. *)
Theorem cleaned_file_passes_prepare (lower : str -> str) (raw : str)
    (min_chars : Z) (content : str) (n : nat) :
  Cleaner.clean_file lower raw min_chars = Some (Cleaner.Cleaned content, n) ->
  mark_free content
  /\ Filter.sub_whitespace (Normalizer.normalize_newlines content)
     = Filter.sub_whitespace content
  /\ forall m : Z, (m <= min_chars)%Z ->
       Filter.has_useful_content (Normalizer.normalize_newlines content) m = true.
Proof.
  intros (cleaned & -> & Hs & Hu & Hmf & _)%clean_file_cleaned.
  assert (H : Filter.sub_whitespace (Normalizer.normalize_newlines (cleaned ++ [LF]))
              = Filter.sub_whitespace (cleaned ++ [LF])).
  { by rewrite sub_whitespace_normalize, mark_free_useful. }
  split; [done|]. split; [done|]. intros m Hm.
  unfold Filter.has_useful_content in *. rewrite H, sub_whitespace_app.
  simpl. rewrite app_nil_r. apply Z.geb_le. apply Z.geb_le in Hu. lia.
Qed.

Lemma cleaned_file_passes_prepare_witness :
  mark_free (of_string "Royal Decree 1" ++ [LF])
  /\ Filter.sub_whitespace
       (Normalizer.normalize_newlines (of_string "Royal Decree 1" ++ [LF]))
     = Filter.sub_whitespace (of_string "Royal Decree 1" ++ [LF])
  /\ forall m : Z, (m <= 5)%Z ->
       Filter.has_useful_content
         (Normalizer.normalize_newlines (of_string "Royal Decree 1" ++ [LF])) m = true.
Proof.
  apply (cleaned_file_passes_prepare ascii_lower
           ([BOM] ++ Stripper.DOWNLOAD_AR ++ [CR; LF] ++ of_string "English"
            ++ [LF; LF] ++ of_string "Royal Decree 1" ++ [LF]) 5 _ 3).
  vm_compute. reflexivity.
Defined.

(** X15: the stripper never counts more lines than the text has, and it
    leaves nothing exactly when every line of the text is noise (blank, a
    download marker or an English marker): then, and only then, the count
    is the number of lines and the cleaned text is empty. *)
Theorem strip_leading_download_lines_empties (lower : str -> str) (text : str) :
  exists (cleaned : str) (n : nat),
    Stripper.strip_leading_download_lines lower text = Some (cleaned, n)
    /\ n <= length (split_on LF text)
    /\ (cleaned = [] <-> n = length (split_on LF text))
    /\ (cleaned = [] <-> Forall (fun l => noise lower l = true) (split_on LF text)).
Proof.
  destruct (strip_leading_download_lines_spec lower text)
    as (ls & n & Hr & (pre & Hl & Hpre & Hn) & Hc).
  exists (strip (join LF ls)), n. split; [exact Hr|].
  rewrite Hl, length_app. simpl in Hn. subst n.
  destruct ls as [|l0 rest].
  - simpl. rewrite app_nil_r. split; [lia|]. split; [split; [lia|done]|].
    split; [done|done].
  - simpl in Hc.
    destruct (cleaned_lines lower text pre l0 rest Hl Hc)
      as (Hsplit & l0' & rest' & Hrl & Hs).
    assert (Hn' : noise lower l0' = false) by (by rewrite (noise_strip lower l0 l0')).
    assert (Hb' : Stripper.is_blank_line l0' = false).
    { unfold noise in Hn'. by destruct (Stripper.is_blank_line l0'). }
    rewrite Hrl in Hsplit.
    assert (Hne : strip (join LF (l0 :: rest)) <> []).
    { intros E. rewrite E in Hsplit. simpl in Hsplit.
      injection Hsplit as <- _. discriminate Hb'. }
    simpl length. split; [lia|]. split; [split; [done|lia]|].
    split; [done|]. intros [_ Hall]%Forall_app.
    apply Forall_cons in Hall as [Hall _]. congruence.
Qed.

(** ** The counters of [prepare_axolotl_cpt.py] *)

Section CollectFacts.
Import Prepare.

Lemma total_of_insert {C : Type} (field : C -> nat) (stats : gmap (list N) C)
    (cat : str) (c c' : C) :
  stats !! cat = Some c ->
  total_of field (<[cat := c']> stats) + field c = total_of field stats + field c'.
Proof.
  intros H. unfold total_of.
  rewrite <- (insert_delete_id stats cat c H) at 2.
  rewrite <- (insert_delete_eq stats cat c').
  rewrite !map_fold_insert_L; [lia|intros; lia|apply lookup_delete_eq|
                                intros; lia|apply lookup_delete_eq].
Qed.

Lemma total_of_insert_fresh {C : Type} (field : C -> nat) (stats : gmap (list N) C)
    (cat : str) (c' : C) :
  stats !! cat = None ->
  total_of field (<[cat := c']> stats) = total_of field stats + field c'.
Proof.
  intros H. unfold total_of. rewrite map_fold_insert_L; [lia|intros; lia|done].
Qed.

Lemma total_of_zero {C : Type} (field : C -> nat) (stats : gmap (list N) C) :
  (forall cat c, stats !! cat = Some c -> field c = 0) -> total_of field stats = 0.
Proof.
  unfold total_of.
  apply (map_fold_weak_ind
           (fun r (m : gmap (list N) C) =>
              (forall cat c, m !! cat = Some c -> field c = 0) -> r = 0)).
  - done.
  - intros i x m r Hi IH Hall.
    rewrite (Hall i x) by apply lookup_insert_eq. simpl. apply IH.
    intros cat c Hc. apply (Hall cat). rewrite lookup_insert_ne; [done|].
    intros ->. congruence.
Qed.

Lemma bump_present (stats : gmap (list N) counters) (cat : str)
    (add : counters -> counters) (c : counters) :
  stats !! cat = Some c -> bump stats cat add = Some (<[cat := add c]> stats).
Proof. unfold bump. by intros ->. Qed.

Lemma count_document_spec (stats : gmap (list N) counters) (cat : str)
    (d : document) (c : counters) :
  stats !! cat = Some c ->
  exists c',
    count_document stats cat d = Some (<[cat := c']> stats)
    /\ files_seen c' = files_seen c
    /\ files_kept c' + files_discarded c' = files_kept c + files_discarded c + 1
    /\ chunks_written c'
       = chunks_written c
         + match d with Kept chunks _ _ => length chunks | NotUseful => 0 end.
Proof.
  intros Hc. destruct d as [|chunks texts away]; simpl.
  - rewrite (bump_present _ _ _ _ Hc). eexists. split; [done|]. simpl. lia.
  - rewrite (bump_present _ _ _ _ Hc).
    destruct (0 <? away).
    + rewrite (bump_present _ _ _ (add_kept 1 c)) by apply lookup_insert_eq.
      rewrite insert_insert_eq.
      rewrite (bump_present _ _ _ (add_capped_away away (add_kept 1 c)))
        by apply lookup_insert_eq.
      rewrite insert_insert_eq. eexists. split; [done|]. simpl. lia.
    + rewrite (bump_present _ _ _ (add_kept 1 c)) by apply lookup_insert_eq.
      rewrite insert_insert_eq. eexists. split; [done|]. simpl. lia.
Qed.

Lemma files_in_cons (cat : str) (fp : file) (files : list file) :
  files_in cat (fp :: files)
  = (if bool_decide (file_cat fp = cat) then 1 else 0) + files_in cat files.
Proof. unfold files_in. simpl. by destruct (bool_decide _). Qed.

Lemma files_kept_in_cons (keep_set : gset (list N)) (fp : file) (files : list file) :
  files_kept_in keep_set (fp :: files)
  = (if bool_decide (file_cat fp ∈ keep_set) then 1 else 0)
    + files_kept_in keep_set files.
Proof. unfold files_kept_in. simpl. by destruct (bool_decide _). Qed.

Context {rng : Type} (R : Random.methods rng).
Hypothesis contract : sample_contract R.
Variable is_digit : N -> bool.
Variables (a : args) (overrides : gmap (list N) Z)
  (labels : gmap (list N) (list N)) (keep_set : gset (list N)).
Hypothesis max_pos : (0 < max_chars a)%Z.
Hypothesis overlap_ok : (0 <= overlap_chars a < max_chars a)%Z.

Lemma collect_spec (files : list file) :
  forall (stats : gmap (list N) counters) (total : nat) (records : list str) (st : rng),
    (forall cat, cat ∈ keep_set -> is_Some (stats !! cat)) ->
    exists (fuel0 : nat) (stats' : gmap (list N) counters) (total' : nat)
           (records' : list str) (st' : rng),
      (forall fuel, fuel0 <= fuel ->
         collect is_digit R fuel a overrides labels keep_set files stats total records st
         = Some (stats', total', records', st'))
      /\ dom stats' = dom stats
      /\ total' = total + files_kept_in keep_set files
      /\ (forall cat c, stats !! cat = Some c ->
            exists c', stats' !! cat = Some c'
              /\ files_seen c'
                 = files_seen c
                   + (if bool_decide (cat ∈ keep_set) then files_in cat files else 0)
              /\ files_kept c' + files_discarded c' + files_seen c
                 = files_kept c + files_discarded c + files_seen c')
      /\ total_of files_seen stats' + total = total_of files_seen stats + total'
      /\ total_of chunks_written stats' + length records
         = total_of chunks_written stats + length records'.
Proof using contract max_pos overlap_ok.
  induction files as [|fp files IH]; intros stats total records st Hkeys.
  - exists 0, stats, total, records, st. split; [done|]. split; [done|].
    split; [unfold files_kept_in; simpl; lia|]. split; [|lia].
    intros cat c Hc. exists c. split; [done|].
    unfold files_in. destruct (bool_decide _); simpl; lia.
  - rewrite files_kept_in_cons. cbn [collect].
    destruct (decide (file_cat fp ∈ keep_set)) as [Hin|Hout].
    + rewrite (bool_decide_true _ Hin). cbn [negb].
      destruct (Hkeys _ Hin) as [c0 Hc0].
      rewrite (bump_present _ _ _ _ Hc0).
      destruct (process_document_spec R contract is_digit a overrides labels
                  (file_cat fp) (file_rel_path fp) (file_raw fp) st max_pos overlap_ok)
        as (f1 & d & st1 & Hp & Hd).
      destruct (count_document_spec (<[file_cat fp := add_seen 1 c0]> stats)
                  (file_cat fp) d (add_seen 1 c0))
        as (c1 & Hcount & Hseen & Hkd & Hw); [apply lookup_insert_eq|].
      rewrite insert_insert_eq in Hcount.
      destruct (IH (<[file_cat fp := c1]> stats) (total + 1)
                  (records ++ texts_of d) st1)
        as (f2 & stats' & total' & records' & st' & Hrun & Hdom & Htot & Hcat & Hts & Htw).
      { intros cat Hcat. destruct (decide (cat = file_cat fp)) as [->|Hne].
        - rewrite lookup_insert_eq. eauto.
        - rewrite lookup_insert_ne by done. by apply Hkeys. }
      assert (Hlen : length (texts_of d)
                     = match d with Kept chunks _ _ => length chunks | NotUseful => 0 end).
      { destruct d as [|kept texts away]; [done|].
        destruct Hd as (_ & chunks & _ & _ & _ & _ & _ & _ & ->).
        apply record_texts_length. }
      exists (Nat.max f1 f2), stats', total', records', st'.
      split.
      { intros fuel Hf. rewrite Hp by lia. rewrite Hcount. apply Hrun. lia. }
      split.
      { rewrite Hdom. apply dom_insert_lookup_L. eauto. }
      split; [lia|]. split; [|split].
      * intros cat c Hc. destruct (decide (cat = file_cat fp)) as [->|Hne].
        -- rewrite Hc0 in Hc. injection Hc as <-.
           destruct (Hcat (file_cat fp) c1) as (c' & Hc' & Hs' & Hk');
             [apply lookup_insert_eq|].
           exists c'. split; [done|]. rewrite (bool_decide_true _ Hin) in *.
           rewrite files_in_cons, (bool_decide_true (file_cat fp = file_cat fp)) by done.
           simpl in Hseen, Hkd. split; lia.
        -- destruct (Hcat cat c) as (c' & Hc' & Hs' & Hk');
             [by rewrite lookup_insert_ne|].
           exists c'. split; [done|].
           assert (file_cat fp <> cat) by congruence.
           rewrite files_in_cons, (bool_decide_false (file_cat fp = cat)) by done.
           simpl. done.
      * pose proof (total_of_insert files_seen stats (file_cat fp) c0 c1 Hc0).
        simpl in Hseen. lia.
      * pose proof (total_of_insert chunks_written stats (file_cat fp) c0 c1 Hc0).
        rewrite length_app in Htw. simpl in Hw. lia.
    + rewrite (bool_decide_false _ Hout). cbn [negb].
      destruct (IH stats total records st Hkeys)
        as (f2 & stats' & total' & records' & st' & Hrun & Hdom & Htot & Hcat & Hts & Htw).
      exists f2, stats', total', records', st'.
      split; [done|]. split; [done|]. split; [lia|]. split; [|done].
      intros cat c Hc. destruct (Hcat cat c Hc) as (c' & Hc' & Hs' & Hk').
      exists c'. split; [done|]. split; [|done].
      rewrite files_in_cons. destruct (decide (cat ∈ keep_set)) as [Hc1|Hc1].
      * rewrite (bool_decide_true _ Hc1) in *.
        rewrite (bool_decide_false (file_cat fp = cat)); [done|].
        intros E. by rewrite E in Hout.
      * by rewrite (bool_decide_false _ Hc1) in *.
Qed.

End CollectFacts.

(** X16: the file loop of [main], for [0 <= overlap_chars < max_chars] and
    a generator whose [sample] keeps its contract: the loop returns, no
    access to [stats[cat]] fails, and the counters written to the stats
    file add up.  The categories counted are the kept ones; every file of
    a kept category is seen, and is either kept or discarded; the files
    seen over all categories are [total_files_seen]; and the chunks
    written over all categories are the records collected for the
    shuffle. *)
Theorem collect_counters (is_digit : N -> bool) {rng : Type}
    (R : Random.methods rng) (a : Prepare.args) (overrides : gmap (list N) Z)
    (labels : gmap (list N) (list N)) (keep_set : gset (list N))
    (files : list Prepare.file) (st : rng) :
  sample_contract R ->
  (0 < Prepare.max_chars a)%Z ->
  (0 <= Prepare.overlap_chars a < Prepare.max_chars a)%Z ->
  exists (fuel0 : nat) (stats : gmap (list N) Prepare.counters) (total : nat)
         (records : list str) (st' : rng),
    (forall fuel, fuel0 <= fuel ->
       Prepare.collect is_digit R fuel a overrides labels keep_set files
         (Prepare.init_stats keep_set) 0 [] st
       = Some (stats, total, records, st'))
    /\ dom stats = keep_set
    /\ total = files_kept_in keep_set files
    /\ (forall cat c, stats !! cat = Some c ->
          Prepare.files_seen c = files_in cat files
          /\ Prepare.files_seen c = Prepare.files_kept c + Prepare.files_discarded c)
    /\ total_of Prepare.files_seen stats = total
    /\ total_of Prepare.chunks_written stats = length records.
Proof.
  intros Hc HM HO.
  assert (Hinit : forall cat c, Prepare.init_stats keep_set !! cat = Some c ->
                                cat ∈ keep_set /\ c = Prepare.Counters 0 0 0 0 0).
  { intros cat c [? ?]%lookup_gset_to_gmap_Some. done. }
  destruct (collect_spec R Hc is_digit a overrides labels keep_set HM HO files
              (Prepare.init_stats keep_set) 0 [] st)
    as (f & stats & total & records & st' & Hrun & Hdom & Htot & Hcat & Hts & Htw).
  { intros cat Hcat. exists (Prepare.Counters 0 0 0 0 0).
    by apply lookup_gset_to_gmap_Some. }
  exists f, stats, total, records, st'. split; [done|].
  split; [by rewrite Hdom; apply dom_gset_to_gmap|]. split; [done|].
  rewrite (total_of_zero Prepare.files_seen (Prepare.init_stats keep_set)) in Hts
    by (by intros cat c [_ ->]%Hinit).
  rewrite (total_of_zero Prepare.chunks_written (Prepare.init_stats keep_set)) in Htw
    by (by intros cat c [_ ->]%Hinit).
  split; [|split; [lia|simpl in Htw; lia]].
  intros cat c Hlook.
  assert (Hk : cat ∈ keep_set).
  { rewrite <- (dom_gset_to_gmap keep_set (Prepare.Counters 0 0 0 0 0)).
    fold (Prepare.init_stats keep_set). rewrite <- Hdom. apply elem_of_dom. eauto. }
  destruct (Hcat cat (Prepare.Counters 0 0 0 0 0)) as (c' & Hc' & Hs & Hkd).
  { by apply lookup_gset_to_gmap_Some. }
  rewrite Hlook in Hc'. injection Hc' as <-.
  rewrite (bool_decide_true _ Hk) in Hs. simpl in *. lia.
Qed.

Lemma collect_counters_witness :
  exists (fuel0 : nat) (stats : gmap (list N) Prepare.counters) (total : nat)
         (records : list str) (st' : N),
    (forall fuel, fuel0 <= fuel ->
       Prepare.collect ascii_digit Random.Lcg.lcg fuel (Prepare.Args 5 0 false 2 2 true) ∅
         Prepare.DEFAULT_CATEGORY_LABELS ({[ of_string "RD" ]} : gset (list N))
         [Prepare.File (of_string "RD") (of_string "RD/a.txt")
            (of_string "aaaa" ++ [LF; LF] ++ of_string "bbbb" ++ [LF; LF] ++ of_string "cccc");
          Prepare.File (of_string "TA") (of_string "TA/b.txt") (of_string "dddd");
          Prepare.File (of_string "RD") (of_string "RD/c.txt") (of_string "e")]
         (Prepare.init_stats ({[ of_string "RD" ]} : gset (list N))) 0 [] 42%N
       = Some (stats, total, records, st'))
    /\ dom stats = ({[ of_string "RD" ]} : gset (list N))
    /\ total = files_kept_in ({[ of_string "RD" ]} : gset (list N))
         [Prepare.File (of_string "RD") (of_string "RD/a.txt")
            (of_string "aaaa" ++ [LF; LF] ++ of_string "bbbb" ++ [LF; LF] ++ of_string "cccc");
          Prepare.File (of_string "TA") (of_string "TA/b.txt") (of_string "dddd");
          Prepare.File (of_string "RD") (of_string "RD/c.txt") (of_string "e")]
    /\ (forall cat c, stats !! cat = Some c ->
          Prepare.files_seen c = files_in cat
            [Prepare.File (of_string "RD") (of_string "RD/a.txt")
            (of_string "aaaa" ++ [LF; LF] ++ of_string "bbbb" ++ [LF; LF] ++ of_string "cccc");
          Prepare.File (of_string "TA") (of_string "TA/b.txt") (of_string "dddd");
          Prepare.File (of_string "RD") (of_string "RD/c.txt") (of_string "e")]
          /\ Prepare.files_seen c = Prepare.files_kept c + Prepare.files_discarded c)
    /\ total_of Prepare.files_seen stats = total
    /\ total_of Prepare.chunks_written stats = length records.
Proof.
  exact (collect_counters ascii_digit Random.Lcg.lcg (Prepare.Args 5 0 false 2 2 true) ∅
           Prepare.DEFAULT_CATEGORY_LABELS ({[ of_string "RD" ]} : gset (list N))
           [Prepare.File (of_string "RD") (of_string "RD/a.txt")
            (of_string "aaaa" ++ [LF; LF] ++ of_string "bbbb" ++ [LF; LF] ++ of_string "cccc");
          Prepare.File (of_string "TA") (of_string "TA/b.txt") (of_string "dddd");
          Prepare.File (of_string "RD") (of_string "RD/c.txt") (of_string "e")]
           42%N lcg_sample_contract ltac:(simpl; lia) ltac:(simpl; lia)).
Defined.

(** ** The counters of [clean_qnoon_collection.py] *)

Section RunFacts.
Import Cleaner.
Variable lower : str -> str.
Variables (include_uncategorized : bool) (min_chars : Z).

Local Abbreviation zero := (Counters 0 0 0 0).
Local Abbreviation get stats cat := (default zero (stats !! cat)).

Lemma bump_bump_bump (stats : gmap (list N) counters) (cat : str)
    (f g h : counters -> counters) :
  bump (bump (bump stats cat f) cat g) cat h
  = <[cat := h (g (f (get stats cat)))]> stats.
Proof. unfold bump. by rewrite !lookup_insert_eq, !insert_insert_eq. Qed.

Lemma total_of_bump (field : counters -> nat) (stats : gmap (list N) counters)
    (cat : str) (c' : counters) :
  field zero = 0 ->
  total_of field (<[cat := c']> stats) + field (get stats cat)
  = total_of field stats + field c'.
Proof.
  intros Hz. destruct (stats !! cat) as [c|] eqn:E; simpl.
  - by apply total_of_insert.
  - rewrite total_of_insert_fresh by done. simpl in Hz. lia.
Qed.

Lemma processed_in_cons (cat : str) (fp : file) (files : list file) :
  processed_in include_uncategorized cat (fp :: files)
  = (if is_processed include_uncategorized fp && bool_decide (file_cat fp = cat)
     then 1 else 0)
    + processed_in include_uncategorized cat files.
Proof. unfold processed_in. simpl. by destruct (_ && _). Qed.

Lemma run_spec (files : list file) :
  forall (stats : gmap (list N) counters) (total : nat) (out : list (str * written)),
    exists (stats' : gmap (list N) counters) (total' : nat)
           (out' : list (str * written)),
      run lower include_uncategorized min_chars files stats total out
      = Some (stats', total', out')
      /\ out'.*1
         = out.*1 ++ (file_rel_path <$> List.filter (is_processed include_uncategorized) files)
      /\ total' = total + length (List.filter (is_processed include_uncategorized) files)
      /\ (forall cat,
            processed (get stats' cat)
            = processed (get stats cat) + processed_in include_uncategorized cat files
            /\ cleaned (get stats' cat) + discarded (get stats' cat)
               + processed (get stats cat)
               = cleaned (get stats cat) + discarded (get stats cat)
                 + processed (get stats' cat)
            /\ (is_Some (stats' !! cat)
                <-> is_Some (stats !! cat)
                    \/ 0 < processed_in include_uncategorized cat files))
      /\ total_of processed stats' + total = total_of processed stats + total'
      /\ total_of cleaned stats' + length (List.filter is_cleaned out)
         = total_of cleaned stats + length (List.filter is_cleaned out').
Proof.
  induction files as [|fp files IH]; intros stats total out.
  - exists stats, total, out. split; [done|]. simpl. rewrite app_nil_r.
    split; [done|]. split; [lia|]. split; [|lia].
    intros cat. unfold processed_in. simpl. split; [lia|]. split; [lia|].
    split; [auto|]. intros [?|?]; [done|lia].
  - cbn [run].
    replace (negb include_uncategorized
             && negb (within_configured_categories (file_cat fp)))
      with (negb (is_processed include_uncategorized fp))
      by (unfold is_processed;
          by destruct include_uncategorized, (within_configured_categories _)).
    destruct (is_processed include_uncategorized fp) eqn:Ep; cbn [negb].
    +
      destruct (clean_file_total lower (file_raw fp) min_chars) as [[w removed] Hw].
      rewrite Hw.
      set (c0 := get stats (file_cat fp)).
      set (stats3 := match w with
                     | Cleaned _ => bump _ _ _
                     | Discarded _ => bump _ _ _
                     end).
      assert (Hs3 : exists c3, stats3 = <[file_cat fp := c3]> stats
                /\ processed c3 = processed c0 + 1
                /\ cleaned c3 + discarded c3 = cleaned c0 + discarded c0 + 1
                /\ cleaned c3 = cleaned c0 + (if is_cleaned (file_rel_path fp, w)
                                              then 1 else 0)).
      { unfold stats3. destruct w; rewrite bump_bump_bump; eexists; (split; [done|]);
          simpl; fold c0; lia. }
      destruct Hs3 as (c3 & -> & Hp3 & Hcd3 & Hc3).
      destruct (IH (<[file_cat fp := c3]> stats) (total + 1)
                  (out ++ [(file_rel_path fp, w)]))
        as (stats' & total' & out' & Hrun & Hout & Htot & Hcat & Htp & Htc).
      exists stats', total', out'. split; [done|].
      cbn [List.filter]. rewrite Ep. split.
      { rewrite Hout, fmap_app, <- app_assoc. done. }
      split; [simpl; lia|]. split; [|split].
      * intros cat. destruct (Hcat cat) as (H1 & H2 & H3).
        rewrite processed_in_cons, Ep. cbn [andb].
        destruct (decide (file_cat fp = cat)) as [<-|Hne].
        -- rewrite lookup_insert_eq in H1, H2, H3. simpl in H1, H2.
           rewrite (bool_decide_true (file_cat fp = file_cat fp)) by done.
           fold c0. split; [lia|]. split; [lia|].
           rewrite H3. split; [intros _; right; lia|intros _; left; eauto].
        -- rewrite lookup_insert_ne in H1, H2, H3 by done.
           rewrite (bool_decide_false (file_cat fp = cat)) by done.
           simpl. done.
      * pose proof (total_of_bump processed stats (file_cat fp) c3 eq_refl).
        fold c0 in H. lia.
      * pose proof (total_of_bump cleaned stats (file_cat fp) c3 eq_refl).
        fold c0 in H. rewrite List.filter_app, length_app in Htc.
        cbn [List.filter] in Htc. destruct (is_cleaned _); simpl in Htc; lia.
    + destruct (IH stats total out)
        as (stats' & total' & out' & Hrun & Hout & Htot & Hcat & Htp & Htc).
      exists stats', total', out'. split; [done|].
      cbn [List.filter]. rewrite Ep. split; [done|]. split; [done|].
      split; [|done]. intros cat. rewrite processed_in_cons, Ep. apply Hcat.
Qed.

End RunFacts.

(** X17: the file loop of the cleaner always returns, and its report adds
    up: every processed file is written exactly once, at its own relative
    path and in traversal order, under [cleaned/] or under [discarded/];
    a category has a row in the report exactly when one of its files was
    processed; in each row [processed = cleaned + discarded], and
    [processed] is the number of the category's processed files; over all
    rows [processed] sums to [processed_files] and [cleaned] to the
    number of files written under [cleaned/]. *)
Theorem run_counters (lower : str -> str) (include_uncategorized : bool)
    (min_chars : Z) (files : list Cleaner.file) :
  exists (stats : gmap (list N) Cleaner.counters) (processed_files : nat)
         (out : list (str * Cleaner.written)),
    Cleaner.run lower include_uncategorized min_chars files ∅ 0 []
    = Some (stats, processed_files, out)
    /\ out.*1 = Cleaner.file_rel_path
                <$> List.filter (is_processed include_uncategorized) files
    /\ processed_files = length out
    /\ (forall cat,
          is_Some (stats !! cat) <-> 0 < processed_in include_uncategorized cat files)
    /\ (forall cat c, stats !! cat = Some c ->
          Cleaner.processed c = processed_in include_uncategorized cat files
          /\ Cleaner.processed c = Cleaner.cleaned c + Cleaner.discarded c)
    /\ total_of Cleaner.processed stats = processed_files
    /\ total_of Cleaner.cleaned stats = length (List.filter is_cleaned out).
Proof.
  destruct (run_spec lower include_uncategorized min_chars files ∅ 0 [])
    as (stats & total & out & Hrun & Hout & Htot & Hcat & Htp & Htc).
  exists stats, total, out. split; [done|]. simpl in Hout. split; [done|].
  split.
  { rewrite <- (length_fmap fst out), Hout, length_fmap. lia. }
  split.
  { intros cat. destruct (Hcat cat) as (_ & _ & H). rewrite H, lookup_empty.
    split; [intros [[? ?]|?]; done|by right]. }
  split.
  { intros cat c Hc. destruct (Hcat cat) as (H1 & H2 & _).
    rewrite Hc, lookup_empty in H1, H2. simpl in H1, H2. lia. }
  unfold total_of in *. rewrite map_fold_empty in Htp, Htc. simpl in Htc. lia.
Qed.

(** ** Documents without article headings *)

Section NoArticleFacts.
Import Segmenter.
Variable is_digit : N -> bool.

Lemma heading_ahead_mentions (s : str) :
  heading_ahead is_digit s = true -> mentions_article s.
Proof.
  unfold heading_ahead. intros [H|H]%orb_true_iff.
  - destruct (after_literal AL_MADDA s) as [r|] eqn:E; [|done].
    apply after_literal_app in E as ->. by exists [1575; 1604]%N, r.
  - destruct (after_literal MADDA s) as [r|] eqn:E; [|done].
    apply after_literal_app in E as ->. by exists [], r.
Qed.

Lemma mentions_article_cons (c : N) (s : str) :
  mentions_article s -> mentions_article (c :: s).
Proof. intros (a & b & ->). by exists (c :: a), b. Qed.

Lemma lookahead_mentions (s : str) :
  lookahead is_digit s = true -> mentions_article s.
Proof.
  induction s as [|c r IH]; [done|]. cbn [lookahead].
  intros [H|[_ H]%andb_true_iff]%orb_true_iff.
  - by apply heading_ahead_mentions.
  - by apply mentions_article_cons, IH.
Qed.

Lemma re_split_articles_none (s : str) :
  ~ mentions_article s -> forall bol, re_split_articles is_digit bol s = [s].
Proof.
  induction s as [|c r IH]; intros Hno bol; [done|].
  cbn [re_split_articles]. cbv zeta.
  rewrite IH by (intros H; by apply Hno, mentions_article_cons).
  destruct (lookahead is_digit (c :: r)) eqn:E.
  - by apply lookahead_mentions in E.
  - by rewrite andb_false_r.
Qed.

End NoArticleFacts.

(** X18: a text in which the word ["مادة"] does not occur has no article
    heading: [split_by_articles] gives the no-split signal, and
    [chunk_document] is the paragraph chunker whether article splitting
    is asked for or not. *)
Theorem no_article_no_split (is_digit : N -> bool) (text : str) :
  ~ mentions_article text ->
  Segmenter.split_by_articles is_digit text = None
  /\ forall (fuel : nat) (max_chars overlap_chars : Z) (use_article_split : bool),
       Segmenter.chunk_document is_digit fuel text max_chars overlap_chars
         use_article_split
       = Chunker.chunk_text_paragraphwise fuel text max_chars overlap_chars.
Proof.
  intros Hno.
  assert (H : Segmenter.split_by_articles is_digit text = None).
  { unfold Segmenter.split_by_articles, Segmenter.article_spans.
    rewrite re_split_articles_none by done. simpl.
    by destruct (truthy text && truthy (strip text)). }
  split; [done|]. intros fuel max_chars overlap_chars use_article_split.
  unfold Segmenter.chunk_document. rewrite H. by destruct use_article_split.
Qed.

Lemma no_article_no_split_witness :
  Segmenter.split_by_articles ascii_digit (of_string "fatwa 12") = None
  /\ forall (fuel : nat) (max_chars overlap_chars : Z) (use_article_split : bool),
       Segmenter.chunk_document ascii_digit fuel (of_string "fatwa 12")
         max_chars overlap_chars use_article_split
       = Chunker.chunk_text_paragraphwise fuel (of_string "fatwa 12")
           max_chars overlap_chars.
Proof.
  apply (no_article_no_split ascii_digit (of_string "fatwa 12")).
  intros (a & b & H).
  assert (Hin : 1605%N ∈ of_string "fatwa 12").
  { rewrite H. apply elem_of_app. right. by left. }
  vm_compute in Hin.
  repeat (apply elem_of_cons in Hin as [Hin|Hin]; [discriminate Hin|]).
  by apply elem_of_nil in Hin.
Defined.
